(** * RealtimeTenVad: the streaming segmentation state machine of [index.js]

    A shallow embedding of the class [RealtimeTenVad] (framing of the
    sample stream, probability smoothing, hysteresis, run-length
    debouncing, pre-pad ring, post-pad countdown, misfire decision) and
    the properties of it that the specification states.

    Conventions of the embedding:
    - a JavaScript number is [JS.number]: an exact rational or [NaN].
      Rounding of IEEE doubles and the two infinities are not modelled;
      a statement that needs numbers on which doubles are exact (a pad
      of whole frames, a countdown of at most 2^53) says so;
    - a [Float32Array] is the list of its elements; a view made by
      [subarray] is the list of the elements it shows (the arrays the
      views point into are never written after the views are taken);
    - the three callbacks are opaque observers: a call of one is recorded
      as an entry of the list of calls a method makes (the source wraps
      each call in [try]/[catch], so a throwing callback changes nothing);
    - a method that throws returns [None];
    - the WASM classifier and the two transcendental functions of [Math]
      are interfaces ([TenVad], [MathLib]); loading the module is outside
      the embedding, and [destroy], which touches the module and the
      pointers into its heap only, is modelled apart ([Teardown]). *)

From Stdlib Require Import List ZArith QArith Qround Bool Lia Lqa.
From Equations Require Import Equations.
Import ListNotations.

(* ===================================================================== *)
(** ** JavaScript numbers *)
(* ===================================================================== *)

Module JS.

Inductive number : Type :=
| NaN : number
| Num : Q -> number.

Definition of_Z (z : Z) : number := Num (inject_Z z).
Definition of_nat (n : nat) : number := of_Z (Z.of_nat n).

Definition Qltb (x y : Q) : bool :=
  match x ?= y with Lt => true | _ => false end.

(** [a + b], [a - b], [a * b]: [NaN] is absorbing. *)
Definition add (a b : number) : number :=
  match a, b with Num x, Num y => Num (x + y) | _, _ => NaN end.
Definition sub (a b : number) : number :=
  match a, b with Num x, Num y => Num (x - y) | _, _ => NaN end.
Definition mul (a b : number) : number :=
  match a, b with Num x, Num y => Num (x * y) | _, _ => NaN end.

(** [a / b].  The source divides by the constants 1000, 256 and 16000
    only; a zero divisor (an infinity or [NaN] in JavaScript) gives [NaN]
    here. *)
Definition div (a b : number) : number :=
  match a, b with
  | Num x, Num y => if Qeq_bool y 0 then NaN else Num (x / y)
  | _, _ => NaN
  end.

(** The comparisons [<], [<=], [>], [>=] and [===]: false as soon as one
    side is [NaN]. *)
Definition lt (a b : number) : bool :=
  match a, b with Num x, Num y => Qltb x y | _, _ => false end.
Definition le (a b : number) : bool :=
  match a, b with Num x, Num y => Qle_bool x y | _, _ => false end.
Definition gt (a b : number) : bool := lt b a.
Definition ge (a b : number) : bool := le b a.
Definition strict_eq (a b : number) : bool :=
  match a, b with Num x, Num y => Qeq_bool x y | _, _ => false end.

(** [Math.max(a, b)] and [Math.min(a, b)]: [NaN] if an argument is. *)
Definition Math_max (a b : number) : number :=
  match a, b with
  | Num x, Num y => if Qle_bool x y then Num y else Num x
  | _, _ => NaN
  end.
Definition Math_min (a b : number) : number :=
  match a, b with
  | Num x, Num y => if Qle_bool x y then Num x else Num y
  | _, _ => NaN
  end.

(** [Math.round(a)]: the integer nearest to [a], ties towards +infinity. *)
Definition Math_round (a : number) : number :=
  match a with
  | Num x => of_Z (Qfloor (x + (1 # 2)))
  | NaN => NaN
  end.

(** [a | 0] (ToInt32): truncate towards zero, wrap into [-2^31, 2^31). *)
Definition wrap (bits : Z) (z : Z) : Z :=
  (z + 2 ^ (bits - 1)) mod 2 ^ bits - 2 ^ (bits - 1).
Definition truncate (x : Q) : Z := Z.quot (Qnum x) (Zpos (Qden x)).
Definition to_int32 (a : number) : Z :=
  match a with
  | Num x => wrap 32 (truncate x)
  | NaN => 0
  end.
(** Storing an integer in an [Int16Array] keeps its low 16 bits. *)
Definition to_int16 (z : Z) : Z := wrap 16 z.

(** [Number(opt ?? dflt)] for an option that, when given, is a number. *)
Definition or_default (opt : option number) (dflt : number) : number :=
  match opt with Some v => v | None => dflt end.

Definition is_number (a : number) : Prop :=
  match a with Num _ => True | NaN => False end.

End JS.

Abbreviation number := JS.number.
Abbreviation NaN := JS.NaN.
Abbreviation Num := JS.Num.

(* ===================================================================== *)
(** ** Typed arrays *)
(* ===================================================================== *)

Abbreviation Float32Array := (list number).
Abbreviation Int16Array := (list Z).

(** [new Float32Array(n)]: [n] zeros. *)
Definition new_Float32Array (n : nat) : Float32Array := repeat (Num 0) n.

(** [a.subarray(start, end)] and [a.subarray(start)]. *)
Definition subarray (a : Float32Array) (start stop : nat) : Float32Array :=
  firstn (stop - start) (skipn start a).
Definition subarray_from (a : Float32Array) (start : nat) : Float32Array :=
  skipn start a.

(** [out.set(src, off)]: copies [src] into [out] at offset [off]; throws a
    [RangeError] when [src] does not fit. *)
Definition typed_set (out src : Float32Array) (off : nat)
  : option Float32Array :=
  if (off + length src <=? length out)%nat
  then Some (firstn off out ++ src ++ skipn (off + length src) out)
  else None.

(** [a[i]] read as a number; an index out of range reads [undefined],
    which every arithmetic use in the source turns into [NaN]. *)
Definition get (a : Float32Array) (i : nat) : number := nth i a NaN.

(* ===================================================================== *)
(** ** External collaborators *)
(* ===================================================================== *)

(** What [_ten_vad_process] leaves behind: its return code and the two
    values the wrapper reads back from the heap. *)
Record vad_result : Type := {
  rc : Z;
  out_probability : number;
  out_flag : Z
}.

(** The WASM classifier: a deterministic function of its own state (the
    instance behind [_handle]) and of the frame of 16-bit samples. *)
Class TenVad : Type := {
  vad : Type;
  ten_vad_process : vad -> Int16Array -> vad * vad_result
}.

(** [Math.sqrt] and [Math.log10]. *)
Class MathLib : Type := {
  Math_sqrt : number -> number;
  Math_log10 : number -> number
}.

(** A call of one of the three callbacks. *)
Inductive callback : Type :=
| onSpeechStart : callback
| onSpeechEnd : Float32Array -> callback
| onVADMisfire : callback.

(* ===================================================================== *)
(** ** The instance *)
(* ===================================================================== *)

Definition SAMPLE_RATE : Z := 16000.
Definition HOP_SIZE : nat := 256.

(** The options object given to the constructor; [None] is an absent
    ([undefined] or [null]) entry. *)
Module opts.
Record t : Type := {
  positiveSpeechThreshold : option number;
  negativeSpeechThreshold : option number;
  minSpeechFrames : option number;
  minSilenceFrames : option number;
  probSmoothing : option number;
  energyGateDb : option number;
  preEmphasis : option number;
  preSpeechPadMs : option number;
  postSpeechPadMs : option number;
  minSpeechMs : option number
}.
Definition empty : t :=
  Build_t None None None None None None None None None None.
End opts.

(** The tunables of an instance, as the constructor stores them. *)
Record Tunables : Type := {
  positiveSpeechThreshold : number;
  negativeSpeechThreshold : number;
  minSpeechFrames : number;
  minSilenceFrames : number;
  probSmoothing : number;
  energyGateDb : option number;
  preEmphasis : number;
  preSpeechPadMs : number;
  postSpeechPadMs : number;
  minSpeechMs : number
}.

Section Instance.
Context {V : TenVad}.

Record RealtimeTenVad : Type := {
  knobs : Tunables;
  _handle : vad;
  _floatBuf : Float32Array;
  _lastSampleForPreEmph : number;
  _pSmoothed : number;
  _frameIndex : Z;
  _inSpeech : bool;
  _voiceRun : Z;
  _silenceRun : Z;
  _prePadFrames : number;
  _postPadFrames : number;
  _ring : list Float32Array;
  _ringMax : number;
  _currentSegment : list Float32Array;
  _postPadCountdown : number;
  _int16Frame : Int16Array
}.

Definition set_handle (v : vad) (s : RealtimeTenVad) : RealtimeTenVad :=
  Build_RealtimeTenVad (knobs s) v (_floatBuf s) (_lastSampleForPreEmph s)
    (_pSmoothed s) (_frameIndex s) (_inSpeech s) (_voiceRun s) (_silenceRun s)
    (_prePadFrames s) (_postPadFrames s) (_ring s) (_ringMax s)
    (_currentSegment s) (_postPadCountdown s) (_int16Frame s).
Definition set_floatBuf (v : Float32Array) (s : RealtimeTenVad) :=
  Build_RealtimeTenVad (knobs s) (_handle s) v (_lastSampleForPreEmph s)
    (_pSmoothed s) (_frameIndex s) (_inSpeech s) (_voiceRun s) (_silenceRun s)
    (_prePadFrames s) (_postPadFrames s) (_ring s) (_ringMax s)
    (_currentSegment s) (_postPadCountdown s) (_int16Frame s).
Definition set_lastSampleForPreEmph (v : number) (s : RealtimeTenVad) :=
  Build_RealtimeTenVad (knobs s) (_handle s) (_floatBuf s) v
    (_pSmoothed s) (_frameIndex s) (_inSpeech s) (_voiceRun s) (_silenceRun s)
    (_prePadFrames s) (_postPadFrames s) (_ring s) (_ringMax s)
    (_currentSegment s) (_postPadCountdown s) (_int16Frame s).
Definition set_pSmoothed (v : number) (s : RealtimeTenVad) :=
  Build_RealtimeTenVad (knobs s) (_handle s) (_floatBuf s)
    (_lastSampleForPreEmph s) v (_frameIndex s) (_inSpeech s) (_voiceRun s)
    (_silenceRun s) (_prePadFrames s) (_postPadFrames s) (_ring s) (_ringMax s)
    (_currentSegment s) (_postPadCountdown s) (_int16Frame s).
Definition set_frameIndex (v : Z) (s : RealtimeTenVad) :=
  Build_RealtimeTenVad (knobs s) (_handle s) (_floatBuf s)
    (_lastSampleForPreEmph s) (_pSmoothed s) v (_inSpeech s) (_voiceRun s)
    (_silenceRun s) (_prePadFrames s) (_postPadFrames s) (_ring s) (_ringMax s)
    (_currentSegment s) (_postPadCountdown s) (_int16Frame s).
Definition set_inSpeech (v : bool) (s : RealtimeTenVad) :=
  Build_RealtimeTenVad (knobs s) (_handle s) (_floatBuf s)
    (_lastSampleForPreEmph s) (_pSmoothed s) (_frameIndex s) v (_voiceRun s)
    (_silenceRun s) (_prePadFrames s) (_postPadFrames s) (_ring s) (_ringMax s)
    (_currentSegment s) (_postPadCountdown s) (_int16Frame s).
Definition set_voiceRun (v : Z) (s : RealtimeTenVad) :=
  Build_RealtimeTenVad (knobs s) (_handle s) (_floatBuf s)
    (_lastSampleForPreEmph s) (_pSmoothed s) (_frameIndex s) (_inSpeech s) v
    (_silenceRun s) (_prePadFrames s) (_postPadFrames s) (_ring s) (_ringMax s)
    (_currentSegment s) (_postPadCountdown s) (_int16Frame s).
Definition set_silenceRun (v : Z) (s : RealtimeTenVad) :=
  Build_RealtimeTenVad (knobs s) (_handle s) (_floatBuf s)
    (_lastSampleForPreEmph s) (_pSmoothed s) (_frameIndex s) (_inSpeech s)
    (_voiceRun s) v (_prePadFrames s) (_postPadFrames s) (_ring s) (_ringMax s)
    (_currentSegment s) (_postPadCountdown s) (_int16Frame s).
Definition set_ring (v : list Float32Array) (s : RealtimeTenVad) :=
  Build_RealtimeTenVad (knobs s) (_handle s) (_floatBuf s)
    (_lastSampleForPreEmph s) (_pSmoothed s) (_frameIndex s) (_inSpeech s)
    (_voiceRun s) (_silenceRun s) (_prePadFrames s) (_postPadFrames s) v
    (_ringMax s) (_currentSegment s) (_postPadCountdown s) (_int16Frame s).
Definition set_currentSegment (v : list Float32Array) (s : RealtimeTenVad) :=
  Build_RealtimeTenVad (knobs s) (_handle s) (_floatBuf s)
    (_lastSampleForPreEmph s) (_pSmoothed s) (_frameIndex s) (_inSpeech s)
    (_voiceRun s) (_silenceRun s) (_prePadFrames s) (_postPadFrames s)
    (_ring s) (_ringMax s) v (_postPadCountdown s) (_int16Frame s).
Definition set_postPadCountdown (v : number) (s : RealtimeTenVad) :=
  Build_RealtimeTenVad (knobs s) (_handle s) (_floatBuf s)
    (_lastSampleForPreEmph s) (_pSmoothed s) (_frameIndex s) (_inSpeech s)
    (_voiceRun s) (_silenceRun s) (_prePadFrames s) (_postPadFrames s)
    (_ring s) (_ringMax s) (_currentSegment s) v (_int16Frame s).
Definition set_int16Frame (v : Int16Array) (s : RealtimeTenVad) :=
  Build_RealtimeTenVad (knobs s) (_handle s) (_floatBuf s)
    (_lastSampleForPreEmph s) (_pSmoothed s) (_frameIndex s) (_inSpeech s)
    (_voiceRun s) (_silenceRun s) (_prePadFrames s) (_postPadFrames s)
    (_ring s) (_ringMax s) (_currentSegment s) (_postPadCountdown s) v.

(** The constructor followed by [_loadVADModule]: [h] is the classifier
    instance that [_ten_vad_create] hands back. *)
Definition construct (o : opts.t) (h : vad) : RealtimeTenVad :=
  let pos := JS.or_default (opts.positiveSpeechThreshold o) (Num (6 # 10)) in
  let neg := JS.or_default (opts.negativeSpeechThreshold o) (Num (4 # 10)) in
  let pos := JS.Math_min (Num 1) (JS.Math_max (Num 0) pos) in
  let neg := JS.Math_min (Num 1) (JS.Math_max (Num 0) neg) in
  let '(pos, neg) := if JS.gt neg pos then (neg, pos) else (pos, neg) in
  let k := {|
    positiveSpeechThreshold := pos;
    negativeSpeechThreshold := neg;
    minSpeechFrames := JS.or_default (opts.minSpeechFrames o) (Num 3);
    minSilenceFrames := JS.or_default (opts.minSilenceFrames o) (Num 8);
    probSmoothing :=
      JS.Math_min (Num 1)
        (JS.Math_max (Num 0) (JS.or_default (opts.probSmoothing o) (Num (2 # 10))));
    energyGateDb := opts.energyGateDb o;
    preEmphasis := JS.or_default (opts.preEmphasis o) (Num 0);
    preSpeechPadMs := JS.or_default (opts.preSpeechPadMs o) (Num 80);
    postSpeechPadMs := JS.or_default (opts.postSpeechPadMs o) (Num 160);
    minSpeechMs := JS.or_default (opts.minSpeechMs o) (Num 150)
  |} in
  let pad_frames (ms : number) : number :=
    JS.Math_round
      (JS.div (JS.mul (JS.div ms (Num 1000)) (JS.of_Z SAMPLE_RATE)) (JS.of_nat HOP_SIZE)) in
  let prePadFrames := pad_frames (preSpeechPadMs k) in
  {|
    knobs := k;
    _handle := h;
    _floatBuf := new_Float32Array 0;
    _lastSampleForPreEmph := Num 0;
    _pSmoothed := Num 0;
    _frameIndex := 0;
    _inSpeech := false;
    _voiceRun := 0;
    _silenceRun := 0;
    _prePadFrames := prePadFrames;
    _postPadFrames := pad_frames (postSpeechPadMs k);
    _ring := [];
    _ringMax := JS.Math_max (Num 0) prePadFrames;
    _currentSegment := [];
    _postPadCountdown := Num 0;
    _int16Frame := repeat 0%Z HOP_SIZE
  |}.

End Instance.

(* ===================================================================== *)
(** ** The methods *)
(* ===================================================================== *)

Section Methods.
Context {V : TenVad} {M : MathLib}.

(** What a method leaves: the instance and the callbacks it called, in
    order; [None] when it threw. *)
Definition Result : Type := option (RealtimeTenVad * list callback).

Definition ret (s : RealtimeTenVad) : Result := Some (s, []).

(** [r], after the callbacks [calls] were called. *)
Definition after (calls : list callback) (r : Result) : Result :=
  match r with
  | Some (s, calls') => Some (s, calls ++ calls')
  | None => None
  end.

Definition andThen (m : Result) (f : RealtimeTenVad -> Result) : Result :=
  match m with
  | Some (s, calls) => after calls (f s)
  | None => None
  end.

(** [r] with [g] applied to the instance it leaves. *)
Definition on_instance (g : RealtimeTenVad -> RealtimeTenVad) (r : Result)
  : Result :=
  match r with
  | Some (s, calls) => Some (g s, calls)
  | None => None
  end.

(** One turn of the loop of [_concatFrames]:
    [out.set(f, off); off += f.length]. *)
Definition concat_step (acc : option (Float32Array * nat)) (f : Float32Array)
  : option (Float32Array * nat) :=
  match acc with
  | Some (out, off) =>
      match typed_set out f off with
      | Some out' => Some (out', off + length f)%nat
      | None => None
      end
  | None => None
  end.

(** [_concatFrames(frames)]: a buffer of [frames.length * HOP_SIZE] zeros
    filled frame after frame, the offset moving by each frame's length. *)
Definition concatFrames (frames : list Float32Array) : option Float32Array :=
  let out := new_Float32Array (length frames * HOP_SIZE) in
  option_map fst (fold_left concat_step frames (Some (out, 0%nat))).

(** [Math.round(seg.length / SAMPLE_RATE * 1000)]. *)
Definition duration_ms (seg : Float32Array) : number :=
  JS.Math_round (JS.mul (JS.div (JS.of_nat (length seg)) (JS.of_Z SAMPLE_RATE)) (Num 1000)).

(** [_advanceState(isVoice, prob, frameRaw)]. *)
Definition advanceState (isVoice : bool) (prob : number)
    (frameRaw : Float32Array) (s : RealtimeTenVad) : Result :=
  (* ring of the last frames, for the pre-pad *)
  let s :=
    if JS.gt (_ringMax s) (Num 0) then
      let s :=
        if JS.ge (JS.of_nat (length (_ring s))) (_ringMax s)
        then set_ring (tl (_ring s)) s else s in
      set_ring (_ring s ++ [frameRaw]) s
    else s in
  andThen
    (if isVoice then
       let s := set_voiceRun (_voiceRun s + 1) s in
       let s := set_silenceRun 0 s in
       (* enter speech? *)
       let '(s, calls) :=
         if negb (_inSpeech s)
            && JS.ge (JS.of_Z (_voiceRun s)) (minSpeechFrames (knobs s))
         then
           let s := set_inSpeech true s in
           let s :=
             if JS.gt (_ringMax s) (Num 0)
             then set_currentSegment (_currentSegment s ++ _ring s) s
             else s in
           let s := set_postPadCountdown (Num 0) s in
           (s, [onSpeechStart])
         else (s, []) in
       (* accumulate frames while in speech *)
       let s :=
         if _inSpeech s
         then set_currentSegment (_currentSegment s ++ [frameRaw]) s
         else s in
       Some (s, calls)
     else
       let s := set_silenceRun (_silenceRun s + 1) s in
       let s := set_voiceRun 0 s in
       if _inSpeech s then
         let s :=
           if JS.strict_eq (_postPadCountdown s) (Num 0)
           then set_postPadCountdown (_postPadFrames s) s else s in
         let s := set_currentSegment (_currentSegment s ++ [frameRaw]) s in
         let s := set_postPadCountdown (JS.sub (_postPadCountdown s) (Num 1)) s in
         (* finalize once enough trailing silence is collected *)
         if JS.ge (JS.of_Z (_silenceRun s)) (minSilenceFrames (knobs s))
            && JS.le (_postPadCountdown s) (Num 0)
         then
           match concatFrames (_currentSegment s) with
           | Some seg =>
               let durMs := duration_ms seg in
               let s := set_inSpeech false s in
               let s := set_currentSegment [] s in
               let s := set_postPadCountdown (Num 0) s in
               if JS.lt durMs (minSpeechMs (knobs s))
               then Some (s, [onVADMisfire])
               else Some (s, [onSpeechEnd seg])
           | None => None
           end
         else Some (s, [])
       else Some (s, []))
    (fun s => ret (set_frameIndex (_frameIndex s + 1) s)).

(** [_finalizeWithFrame(trailingFrame, treatAsSilence)], the helper of
    [flush]. *)
Definition finalizeWithFrame (trailingFrame : Float32Array)
    (treatAsSilence : bool) (s : RealtimeTenVad) : Result :=
  let s := set_currentSegment (_currentSegment s ++ [trailingFrame]) s in
  if treatAsSilence then
    let s :=
      if JS.strict_eq (_postPadCountdown s) (Num 0)
      then set_postPadCountdown (_postPadFrames s) s else s in
    let s := set_postPadCountdown (JS.sub (_postPadCountdown s) (Num 1)) s in
    if JS.le (_postPadCountdown s) (Num 0) then
      match concatFrames (_currentSegment s) with
      | Some seg =>
          let durMs := duration_ms seg in
          let s := set_inSpeech false s in
          let s := set_currentSegment [] s in
          let s := set_postPadCountdown (Num 0) s in
          if JS.lt durMs (minSpeechMs (knobs s))
          then Some (s, [onVADMisfire])
          else Some (s, [onSpeechEnd seg])
      | None => None
      end
    else Some (s, [])
  else Some (s, []).

(** [a[i] = v] on a typed array: ignored when [i] is out of range. *)
Fixpoint store (a : Int16Array) (i : nat) (v : Z) : Int16Array :=
  match a, i with
  | [], _ => []
  | _ :: a', O => v :: a'
  | x :: a', S i' => x :: store a' i' v
  end.

(** [(Math.max(-1, Math.min(1, y)) * 32768) | 0], as an [Int16Array]
    keeps it. *)
Definition quantize (y : number) : Z :=
  let s := JS.Math_max (Num (-1)) (JS.Math_min (Num 1) y) in
  JS.to_int16 (JS.to_int32 (JS.mul s (Num 32768))).

(** The conversion loops of [_processFrame]: the frame for the classifier
    and the raw sample carried to the next frame. *)
Definition to_int16_frame (a prev : number) (frameRaw : Float32Array)
    (buf : Int16Array) : number * Int16Array :=
  if JS.gt a (Num 0) then
    fold_left
      (fun (acc : number * Int16Array) (i : nat) =>
         let '(prev, buf) := acc in
         let x := get frameRaw i in
         let y := JS.sub x (JS.mul a prev) in
         (x, store buf i (quantize y)))
      (seq 0 HOP_SIZE) (prev, buf)
  else
    let buf :=
      fold_left
        (fun (buf : Int16Array) (i : nat) =>
           store buf i (quantize (get frameRaw i)))
        (seq 0 HOP_SIZE) buf in
    (get frameRaw (HOP_SIZE - 1), buf).

(** The energy gate of [_processFrame], on the raw frame. *)
Definition gate_open (gate : option number) (frameRaw : Float32Array) : bool :=
  match gate with
  | None => true
  | Some g =>
      let sum :=
        fold_left
          (fun (sum : number) (i : nat) =>
             JS.add sum (JS.mul (get frameRaw i) (get frameRaw i)))
          (seq 0 HOP_SIZE) (Num 0) in
      let rms :=
        JS.add (Math_sqrt (JS.div sum (JS.of_nat HOP_SIZE)))
            (Num (1 # 1000000000000)) in
      let db := JS.mul (Num 20) (Math_log10 rms) in
      JS.ge db g
  end.

(** The part of [_processFrame] after the classifier call, given what the
    call returned. *)
Definition classified (r : vad_result) (frameRaw : Float32Array)
    (s : RealtimeTenVad) : Result :=
  if negb (rc r =? 0)%Z then
    (* treat as non-voice frame on error *)
    advanceState false (Num 0) frameRaw s
  else
    let p := out_probability r in
    let flag := out_flag r in
    let alpha := probSmoothing (knobs s) in
    let s :=
      set_pSmoothed
        (JS.add (JS.mul alpha (_pSmoothed s)) (JS.mul (JS.sub (Num 1) alpha) p)) s in
    let gated := gate_open (energyGateDb (knobs s)) frameRaw in
    let hysteresisThresh :=
      if _inSpeech s then negativeSpeechThreshold (knobs s)
      else positiveSpeechThreshold (knobs s) in
    let isVoice :=
      (flag =? 1)%Z && JS.ge (_pSmoothed s) hysteresisThresh && gated in
    advanceState isVoice (_pSmoothed s) frameRaw s.

(** [_processFrame(frameRaw)]. *)
Definition processFrame (frameRaw : Float32Array) (s : RealtimeTenVad)
  : Result :=
  let '(prev, buf) :=
    to_int16_frame (preEmphasis (knobs s)) (_lastSampleForPreEmph s)
      frameRaw (_int16Frame s) in
  let s := set_int16Frame buf s in
  let s := set_lastSampleForPreEmph prev s in
  let '(h, r) := ten_vad_process (_handle s) (_int16Frame s) in
  let s := set_handle h s in
  classified r frameRaw s.

(** [processAudio(floatChunk)]. *)
Definition processAudio (floatChunk : Float32Array) (s : RealtimeTenVad)
  : Result :=
  let combined := _floatBuf s ++ floatChunk in
  let frames := (length combined / HOP_SIZE)%nat in
  andThen
    (fold_left
       (fun (acc : Result) (i : nat) =>
          let start := (i * HOP_SIZE)%nat in
          let stop := (start + HOP_SIZE)%nat in
          andThen acc (processFrame (subarray combined start stop)))
       (seq 0 frames) (ret s))
    (fun s => ret (set_floatBuf (subarray_from combined (frames * HOP_SIZE)) s)).

(** How many more turns the loop of [flush] can take at a countdown. *)
Definition turns_left (c : number) : nat :=
  match c with
  | Num q => Z.to_nat (Qceiling q)
  | NaN => 0
  end.

Lemma Qltb_lt (x y : Q) : JS.Qltb x y = true <-> (x < y)%Q.
Proof.
  unfold JS.Qltb. rewrite Qlt_alt. destruct (x ?= y); split; congruence.
Qed.

Lemma finalizeWithFrame_turns (f : Float32Array) (s s' : RealtimeTenVad)
    (calls : list callback) :
  JS.gt (_postPadCountdown s) (Num 0) = true ->
  finalizeWithFrame f true s = Some (s', calls) ->
  (turns_left (_postPadCountdown s') < turns_left (_postPadCountdown s))%nat.
Proof.
  unfold finalizeWithFrame. cbn -[JS.lt concatFrames duration_ms].
  destruct (_postPadCountdown s) as [|q] eqn:Hc; cbn -[JS.lt concatFrames duration_ms]; [discriminate|].
  intros Hgt. apply Qltb_lt in Hgt.
  assert (Hz : Qeq_bool q 0 = false).
  { destruct (Qeq_bool q 0) eqn:E; [|reflexivity].
    apply Qeq_bool_iff in E. lra. }
  rewrite Hz. cbn -[JS.lt concatFrames duration_ms]. rewrite Hc. cbn -[JS.lt concatFrames duration_ms].
  assert (Hceil : (0 < Qceiling q)%Z).
  { apply Z.lt_nge. intros Hle.
    pose proof (Qle_ceiling q) as Hq.
    assert (inject_Z (Qceiling q) <= 0)%Q
      by (change 0%Q with (inject_Z 0); rewrite <- Zle_Qle; exact Hle).
    lra. }
  destruct (Qle_bool (q - 1) 0) eqn:Hle.
  - destruct (concatFrames _); [|discriminate].
    destruct (JS.lt _ _) eqn:?; intros H; inversion H; subst; cbn; lia.
  - intros H; inversion H; subst; cbn.
    assert (Hdec : (Qceiling (q - 1) <= Qceiling q - 1)%Z).
    { rewrite <- (Qceiling_Z (Qceiling q - 1)).
      apply Qceiling_resp_le.
      pose proof (Qle_ceiling q) as Hq.
      unfold Zminus. rewrite inject_Z_plus.
      change (inject_Z (- (1))) with (- (1))%Q. lra. }
    lia.
Qed.

(** The loop of [flush]:
    [while (this._postPadCountdown > 0) this._finalizeWithFrame(silent, true)]. *)
#[local] Obligation Tactic := idtac.

Equations? flush_loop (s : RealtimeTenVad) : Result
  by wf (turns_left (_postPadCountdown s)) Nat.lt :=
flush_loop s with Logic.inspect (JS.gt (_postPadCountdown s) (Num 0)) := {
  | exist _ true Hgt
      with Logic.inspect (finalizeWithFrame (new_Float32Array HOP_SIZE) true s) := {
      | exist _ (Some (s', calls)) Hfin =>
          after calls (flush_loop s')
      | exist _ None _ => None };
  | exist _ false _ => ret s }.
Proof.
  eapply finalizeWithFrame_turns; eassumption.
Qed.

(** [flush()]. *)
Definition flush (s : RealtimeTenVad) : Result :=
  andThen
    (* leftover samples, zero-padded to one frame *)
    (if (0 <? length (_floatBuf s))%nat then
       match typed_set (new_Float32Array HOP_SIZE) (_floatBuf s) 0 with
       | Some pad =>
           andThen (processAudio pad s)
             (fun s => ret (set_floatBuf (new_Float32Array 0) s))
       | None => None
       end
     else ret s)
    (* still in a segment: force-close it with post padding *)
    (fun s =>
       if _inSpeech s then
         let s := set_postPadCountdown (_postPadFrames s) s in
         flush_loop s
       else ret s).

End Methods.

(* ===================================================================== *)
(** ** Streams of calls and test doubles *)
(* ===================================================================== *)

Section Streams.
Context {V : TenVad} {M : MathLib}.

(** A call of the public API on a live instance. *)
Inductive api_call : Type :=
| ProcessAudio : Float32Array -> api_call
| Flush : api_call.

Definition call (c : api_call) (s : RealtimeTenVad) : Result :=
  match c with
  | ProcessAudio floatChunk => processAudio floatChunk s
  | Flush => flush s
  end.

(** The calls of a list made one after the other. *)
Fixpoint run (calls : list api_call) (s : RealtimeTenVad) : Result :=
  match calls with
  | [] => ret s
  | c :: calls' => andThen (call c s) (run calls')
  end.

(** The frames of a list handed to [_processFrame] one after the other. *)
Fixpoint feed (frames : list Float32Array) (s : RealtimeTenVad) : Result :=
  match frames with
  | [] => ret s
  | f :: frames' => andThen (processFrame f s) (feed frames')
  end.

(** What [processAudio] keeps of [a]: the samples after the last whole
    frame. *)
Definition remainder (a : Float32Array) : Float32Array :=
  subarray_from a (length a / HOP_SIZE * HOP_SIZE).

(** The complete frames that [processAudio] cuts out of [combined]. *)
Definition frames_of (combined : Float32Array) : list Float32Array :=
  map (fun i => subarray combined (i * HOP_SIZE) (i * HOP_SIZE + HOP_SIZE))
      (seq 0 (length combined / HOP_SIZE)).

(** The frame that [flush] hands to [_processFrame] when the remainder
    [buf] is not empty: [flush] pads [buf] with zeros to [HOP_SIZE]
    samples and gives the padded copy to [processAudio], which appends it
    to the remainder still held. *)
Definition flush_frames (buf : Float32Array) : list Float32Array :=
  match buf with
  | [] => []
  | _ :: _ =>
      match typed_set (new_Float32Array HOP_SIZE) buf 0 with
      | Some pad => frames_of (buf ++ pad)
      | None => []
      end
  end.

(** The frames that a list of calls hands to [_processFrame], from the
    samples alone: [buf] is the remainder held when the calls begin. *)
Fixpoint raw_frames (buf : Float32Array) (calls : list api_call)
  : list Float32Array :=
  match calls with
  | [] => []
  | ProcessAudio floatChunk :: calls' =>
      let combined := buf ++ floatChunk in
      frames_of combined ++ raw_frames (remainder combined) calls'
  | Flush :: calls' => flush_frames buf ++ raw_frames [] calls'
  end.

End Streams.

(** A scripted classifier: its state is the list of the results still to
    be returned; once the script is over every frame is non-voice. *)
Definition scripted : TenVad := {|
  vad := list vad_result;
  ten_vad_process := fun (h : list vad_result) (_ : Int16Array) =>
    match h with
    | r :: h' => (h', r)
    | [] => ([], Build_vad_result 0 (Num 0) 0)
    end
|}.

(** A classifier that returns the same result on every frame. *)
Definition constant (r : vad_result) : TenVad := {|
  vad := unit;
  ten_vad_process := fun (h : unit) (_ : Int16Array) => (h, r)
|}.

(** Stand-ins for [Math.sqrt] and [Math.log10] in runs that leave the
    energy gate disabled. *)
Definition no_gate_math : MathLib := {|
  Math_sqrt := fun x => x;
  Math_log10 := fun x => x
|}.

(** A frame whose 256 samples all equal [k / 100]. *)
Definition tone (k : Z) : Float32Array := repeat (Num (k # 100)) HOP_SIZE.

(** Consecutive frames [tone from], [tone (from + 1)], ... *)
Definition tones (from : nat) (n : nat) : list Float32Array :=
  map (fun k => tone (Z.of_nat k)) (seq from n).

Definition voice_result : vad_result := Build_vad_result 0 (Num 1) 1.
Definition silence_result : vad_result := Build_vad_result 0 (Num 0) 0.
Definition error_result : vad_result := Build_vad_result (-1) (Num 0) 0.

(** The instance a method leaves ([s] when it threw) and the callbacks it
    called. *)
Definition left_by {V : TenVad} (r : Result) (s : RealtimeTenVad)
  : RealtimeTenVad :=
  match r with Some (s', _) => s' | None => s end.
Definition calls_of {V : TenVad} (r : Result) : list callback :=
  match r with Some (_, calls) => calls | None => [] end.
Definition smoothed_of {V : TenVad} (r : Result) : number :=
  match r with Some (s', _) => _pSmoothed s' | None => NaN end.

(** The reference scenario of the specification: the default options
    (minSpeechFrames 3, minSilenceFrames 8, preSpeechPadMs 80,
    postSpeechPadMs 160, minSpeechMs 150), a classifier that hears voice
    on 23 frames and silence afterwards. *)
Definition reference_instance : RealtimeTenVad (V := scripted) :=
  construct (V := scripted) opts.empty
    (repeat voice_result 23 ++ repeat silence_result 10).

(** Options given with the two thresholds in the wrong order. *)
Definition inverted_thresholds : opts.t := {|
  opts.positiveSpeechThreshold := Some (Num (3 # 10));
  opts.negativeSpeechThreshold := Some (Num (9 # 10));
  opts.minSpeechFrames := None; opts.minSilenceFrames := None;
  opts.probSmoothing := None; opts.energyGateDb := None;
  opts.preEmphasis := None; opts.preSpeechPadMs := None;
  opts.postSpeechPadMs := None; opts.minSpeechMs := None |}.

(** Options that differ from the defaults in the post-pad alone. *)
Definition no_post_pad : opts.t := {|
  opts.positiveSpeechThreshold := None;
  opts.negativeSpeechThreshold := None;
  opts.minSpeechFrames := None; opts.minSilenceFrames := None;
  opts.probSmoothing := None; opts.energyGateDb := None;
  opts.preEmphasis := None; opts.preSpeechPadMs := None;
  opts.postSpeechPadMs := Some (Num 0); opts.minSpeechMs := None |}.

(** An instance in speech, its segment open, after three voice frames. *)
Definition open_segment (o : opts.t) : RealtimeTenVad (V := scripted) :=
  left_by
    (processAudio (V := scripted) (M := no_gate_math) (concat (tones 1 3))
       (construct (V := scripted) o (repeat voice_result 3)))
    (construct (V := scripted) o []).

(** Options with smoothing switched off. *)
Definition no_smoothing : opts.t := {|
  opts.positiveSpeechThreshold := None;
  opts.negativeSpeechThreshold := None;
  opts.minSpeechFrames := None; opts.minSilenceFrames := None;
  opts.probSmoothing := Some (Num 0); opts.energyGateDb := None;
  opts.preEmphasis := None; opts.preSpeechPadMs := None;
  opts.postSpeechPadMs := None; opts.minSpeechMs := None |}.

(** Options under which a segment closes on its first silent frame and
    40 ms are enough for a segment. *)
Definition quick_close : opts.t := {|
  opts.positiveSpeechThreshold := None;
  opts.negativeSpeechThreshold := None;
  opts.minSpeechFrames := None; opts.minSilenceFrames := Some (Num 1);
  opts.probSmoothing := None; opts.energyGateDb := None;
  opts.preEmphasis := None; opts.preSpeechPadMs := None;
  opts.postSpeechPadMs := Some (Num 0); opts.minSpeechMs := Some (Num 40) |}.

(** The classifier result of the threshold test: flag 1 and a raw
    probability equal to the default [positiveSpeechThreshold]. *)
Definition at_threshold_result : vad_result :=
  Build_vad_result 0 (Num (6 # 10)) 1.

(* ===================================================================== *)
(** ** Invariants *)
(* ===================================================================== *)

(** A callback that closes a segment. *)
Definition terminal (c : callback) : Prop :=
  match c with
  | onSpeechStart => False
  | onSpeechEnd _ => True
  | onVADMisfire => True
  end.

(** A frame of [HOP_SIZE] samples. *)
Definition full_frame (f : Float32Array) : Prop := length f = HOP_SIZE.

(** [frames] is a stretch of the stream [history]: a run [t :: body] of
    consecutive frames of the stream, preceded by [pre], the newest of
    the frames up to and including [t] (the pre-pad, seeded from the
    ring), and followed by [k] frames of zeros (the tail [flush] adds). *)
Definition stretch (history frames : list Float32Array) : Prop :=
  exists before t body rest older pre k,
    history = before ++ t :: body ++ rest
    /\ before ++ [t] = older ++ pre
    /\ frames = pre ++ t :: body ++ repeat (new_Float32Array HOP_SIZE) k.

Section Invariants.
Context {V : TenVad}.

(** The fields that only the constructor writes. *)
Definition same_setup (s s' : RealtimeTenVad) : Prop :=
  knobs s' = knobs s
  /\ _prePadFrames s' = _prePadFrames s
  /\ _postPadFrames s' = _postPadFrames s
  /\ _ringMax s' = _ringMax s.

(** Every frame kept in the ring or in the open segment has [HOP_SIZE]
    samples. *)
Definition frames_ok (s : RealtimeTenVad) : Prop :=
  Forall full_frame (_ring s) /\ Forall full_frame (_currentSegment s).

(** Every segment handed to [onSpeechEnd] holds a positive number of
    frames of [HOP_SIZE] samples. *)
Definition whole_segments (calls : list callback) : Prop :=
  forall seg, In (onSpeechEnd seg) calls ->
    exists n, (0 < n)%nat /\ length seg = (n * HOP_SIZE)%nat.

(** The instance is ready for the next call: its frames are whole and the
    remainder is shorter than a frame. *)
Definition ready (s : RealtimeTenVad) : Prop :=
  frames_ok s /\ (length (_floatBuf s) < HOP_SIZE)%nat.

(** An option of the constructor that is absent or a number. *)
Definition numeric (x : option number) : Prop :=
  match x with
  | Some NaN => False
  | _ => True
  end.

(** What a finalization calls, in the words of the specification: the
    duration is [round(sampleCount / 16000 * 1000)]; below [minSpeechMs]
    the segment is a misfire, otherwise it is handed to [onSpeechEnd]. *)
Definition terminal_callback (minSpeechMs : number) (seg : Float32Array)
  : callback :=
  let durMs :=
    JS.Math_round
      (JS.mul (JS.div (JS.of_nat (length seg)) (Num 16000)) (Num 1000)) in
  if JS.lt durMs minSpeechMs then onVADMisfire else onSpeechEnd seg.

(** In silence, after [k] voice frames. *)
Definition waiting (s0 : RealtimeTenVad) (k : Z) (s : RealtimeTenVad)
  : Prop :=
  knobs s = knobs s0 /\ _inSpeech s = false /\ _voiceRun s = k
  /\ JS.is_number (_pSmoothed s).

(** The ring and the open segment of [s], after the frames of [history]
    and [k] frames of zeros: the ring holds the newest frames, the open
    segment is a stretch that reaches the end of the stream. *)
Definition tracks (history : list Float32Array) (k : nat)
    (s : RealtimeTenVad) : Prop :=
  (JS.gt (_ringMax s) (Num 0) = false -> _ring s = [])
  /\ (exists older, history = older ++ _ring s)
  /\ (if _inSpeech s
      then exists before t body older pre,
             history = before ++ t :: body
             /\ before ++ [t] = older ++ pre
             /\ _currentSegment s
                = pre ++ t :: body ++ repeat (new_Float32Array HOP_SIZE) k
      else _currentSegment s = []).

(** Every segment handed to [onSpeechEnd] is made by [_concatFrames] of a
    stretch of [history]. *)
Definition stretches (history : list Float32Array) (calls : list callback)
  : Prop :=
  forall seg, In (onSpeechEnd seg) calls ->
    exists frames, concatFrames frames = Some seg /\ stretch history frames.

End Invariants.

(* ===================================================================== *)
(** ** Further invariants, closed forms and stand-ins *)
(* ===================================================================== *)

Section MachineState.
Context {V : TenVad}.

(** [s1] and [s] agree on the fields of the state machine, that is on
    every field but the remainder, the classifier handle, the smoothed
    probability and the two work fields of the conversion to 16 bits. *)
Definition same_machine (s s1 : RealtimeTenVad) : Prop :=
  knobs s1 = knobs s
  /\ _frameIndex s1 = _frameIndex s
  /\ _inSpeech s1 = _inSpeech s
  /\ _voiceRun s1 = _voiceRun s
  /\ _silenceRun s1 = _silenceRun s
  /\ _prePadFrames s1 = _prePadFrames s
  /\ _postPadFrames s1 = _postPadFrames s
  /\ _ring s1 = _ring s
  /\ _ringMax s1 = _ringMax s
  /\ _currentSegment s1 = _currentSegment s
  /\ _postPadCountdown s1 = _postPadCountdown s.

(** The open segment, and the countdown outside speech. *)
Definition segment_state (s : RealtimeTenVad) : Prop :=
  if _inSpeech s then _currentSegment s <> []
  else _currentSegment s = [] /\ _postPadCountdown s = Num 0.

(** The countdown that a silent frame in speech leaves:
    [if (countdown === 0) countdown = postPadFrames; countdown--]. *)
Definition counted_down (s : RealtimeTenVad) : number :=
  JS.sub
    (if JS.strict_eq (_postPadCountdown s) (Num 0)
     then _postPadFrames s else _postPadCountdown s)
    (Num 1).

(** In speech with [P] post-pad frames: the countdown is a whole number
    [c] between 0 and [P], and once it runs the open segment holds one
    frame and the [P - c] frames counted so far. *)
Definition padded (P : Z) (s : RealtimeTenVad) : Prop :=
  _postPadFrames s = JS.of_Z P
  /\ (_inSpeech s = true ->
      exists q c,
        _postPadCountdown s = Num q /\ (q == inject_Z c)%Q
        /\ (0 <= c <= P)%Z
        /\ (1 <= length (_currentSegment s))%nat
        /\ (c = 0%Z
            \/ (P + 1 - c <= Z.of_nat (length (_currentSegment s)))%Z)).

End MachineState.

(** The callbacks of a list open and close segments in turn: from [open]
    (a segment is open), the state after the list, or [None] when a
    segment is opened twice or closed while none is open. *)
Fixpoint brackets (open : bool) (calls : list callback) : option bool :=
  match calls with
  | [] => Some open
  | onSpeechStart :: calls' => if open then None else brackets true calls'
  | _ :: calls' => if open then brackets false calls' else None
  end.

(** How many frames the ring can hold at [_ringMax = m]. *)
Definition ring_capacity (m : number) : nat :=
  match m with
  | Num q => Z.to_nat (Qfloor q)
  | NaN => 0
  end.

(** [_ringMax] is [NaN] or a whole number that is not negative. *)
Definition whole_capacity (m : number) : Prop :=
  m = NaN \/ exists z, (0 <= z)%Z /\ m = JS.of_Z z.

(** A callback that a segment of at least [P + 1] frames allows. *)
Definition spans (P : Z) (minSpeechMs : number) (c : callback) : Prop :=
  match c with
  | onSpeechStart => True
  | onSpeechEnd seg => ((Z.to_nat P + 1) * HOP_SIZE <= length seg)%nat
  | onVADMisfire => JS.lt (JS.of_Z (16 * (P + 1))) minSpeechMs = true
  end.

(** A callback that the misfire rule at [minSpeechMs] allows: no segment
    handed to [onSpeechEnd] lasts less than [minSpeechMs]. *)
Definition long_enough (minSpeechMs : number) (c : callback) : Prop :=
  match c with
  | onSpeechEnd seg => JS.lt (duration_ms seg) minSpeechMs = false
  | _ => True
  end.

(** The one-tap filter [y[n] = x[n] - a * x[n-1]] over a run of samples,
    [prev] being the sample before the run. *)
Fixpoint pre_emphasis (a prev : number) (xs : Float32Array) : Float32Array :=
  match xs with
  | [] => []
  | x :: xs' => JS.sub x (JS.mul a prev) :: pre_emphasis a x xs'
  end.

(** What the classifier is given for the samples [xs], before they are
    made 16-bit: filtered when [preEmphasis > 0], as they are otherwise. *)
Definition conditioned (a prev : number) (xs : Float32Array) : Float32Array :=
  if JS.gt a (Num 0) then pre_emphasis a prev xs else xs.

(** A classifier that records the frames it is given and returns [r]
    every time. *)
Definition recording (r : vad_result) : TenVad := {|
  vad := list Int16Array;
  ten_vad_process := fun (h : list Int16Array) (frame16 : Int16Array) =>
    (h ++ [frame16], r)
|}.

(** The classifier flags a frame as voice, without error. *)
Definition flagged (r : vad_result) : bool :=
  (rc r =? 0)%Z && (out_flag r =? 1)%Z.

(** Every run of flagged results in [script] is shorter than [n], the
    run in progress having [k] results already. *)
Fixpoint flag_runs_below (n k : nat) (script : list vad_result) : bool :=
  match script with
  | [] => true
  | r :: script' =>
      if flagged r
      then (S k <? n)%nat && flag_runs_below n (S k) script'
      else flag_runs_below n 0 script'
  end.

(** A number between 0 and 1. *)
Definition in_unit (x : number) : Prop :=
  match x with
  | Num q => (0 <= q <= 1)%Q
  | NaN => False
  end.

(** Options with pre-emphasis on and no pre-pad: the ring is not used,
    so a segment begins with the frame on which speech starts, once. *)
Definition filtered_no_pre_pad : opts.t := {|
  opts.positiveSpeechThreshold := None;
  opts.negativeSpeechThreshold := None;
  opts.minSpeechFrames := None; opts.minSilenceFrames := None;
  opts.probSmoothing := None; opts.energyGateDb := None;
  opts.preEmphasis := Some (Num (97 # 100));
  opts.preSpeechPadMs := Some (Num 0);
  opts.postSpeechPadMs := None; opts.minSpeechMs := None |}.

(** Options that give the two pads and leave the rest to the defaults. *)
Definition with_pads (pre post : Q) : opts.t := {|
  opts.positiveSpeechThreshold := None;
  opts.negativeSpeechThreshold := None;
  opts.minSpeechFrames := None; opts.minSilenceFrames := None;
  opts.probSmoothing := None; opts.energyGateDb := None;
  opts.preEmphasis := None; opts.preSpeechPadMs := Some (Num pre);
  opts.postSpeechPadMs := Some (Num post); opts.minSpeechMs := None |}.

(** An instance that holds a remainder of three samples. *)
Definition with_remainder : RealtimeTenVad (V := scripted) :=
  left_by
    (processAudio (V := scripted) (M := no_gate_math)
       [Num (1 # 2); Num (1 # 4); Num (1 # 8)]
       (construct (V := scripted) opts.empty []))
    (construct (V := scripted) opts.empty []).

(* ===================================================================== *)
(** ** Teardown *)
(* ===================================================================== *)

(** [destroy] touches the WASM module and the pointers into its heap
    only; it is modelled over these fields, apart from the state
    machine. *)
Module Teardown.

(** A call into the WASM module. *)
Inductive wasm_call : Type :=
| _free : Z -> wasm_call
| _ten_vad_destroy : Z -> wasm_call.

(** The fields that [destroy] reads and writes; [None] is [null].
    [_module] tells whether the module is loaded. *)
Record wasm_fields : Type := {
  _module : bool;
  _handle : option Z;
  _handlePtr : option Z;
  _audioPtr : option Z;
  _probPtr : option Z;
  _flagPtr : option Z
}.

(** [if (p) call(p)]: [null] and 0 are falsy. *)
Definition when (p : option Z) (call : Z -> wasm_call) : list wasm_call :=
  match p with
  | Some z => if (z =? 0)%Z then [] else [call z]
  | None => []
  end.

(** The body of the [try]: the releases in order. *)
Definition releases (r : wasm_fields) : list wasm_call :=
  when (_audioPtr r) _free ++ when (_probPtr r) _free
  ++ when (_flagPtr r) _free ++ when (_handle r) _ten_vad_destroy
  ++ when (_handlePtr r) _free.

Section Destroy.
(** Whether a call into the module throws. *)
Variable throws : wasm_call -> bool.

(** The calls made until one throws; the [catch] swallows the exception. *)
Fixpoint attempt (todo : list wasm_call) : list wasm_call :=
  match todo with
  | [] => []
  | c :: todo' => c :: (if throws c then [] else attempt todo')
  end.

(** [destroy()]: the fields it leaves and the calls it made. *)
Definition destroy (r : wasm_fields) : wasm_fields * list wasm_call :=
  let calls := if _module r then attempt (releases r) else [] in
  ({| _module := false; _handle := None; _handlePtr := None;
      _audioPtr := _audioPtr r; _probPtr := _probPtr r;
      _flagPtr := _flagPtr r |},
   calls).

End Destroy.

End Teardown.

(* ===================================================================== *)
(** ** Properties *)
(* ===================================================================== *)

Lemma HOP_SIZE_256 : HOP_SIZE = 256%nat.
Proof. reflexivity. Qed.

Lemma HOP_SIZE_pos : (0 < HOP_SIZE)%nat.
Proof. unfold HOP_SIZE. lia. Qed.

#[local] Opaque HOP_SIZE.

Arguments JS.add : simpl never.
Arguments JS.sub : simpl never.
Arguments JS.mul : simpl never.
Arguments JS.div : simpl never.
Arguments JS.lt : simpl never.
Arguments JS.le : simpl never.
Arguments JS.gt : simpl never.
Arguments JS.ge : simpl never.
Arguments JS.strict_eq : simpl never.
Arguments JS.Math_round : simpl never.
Arguments JS.of_Z : simpl never.
Arguments JS.of_nat : simpl never.
Arguments new_Float32Array : simpl never.
Arguments concatFrames : simpl never.
Arguments duration_ms : simpl never.
Arguments to_int16_frame : simpl never.
Arguments gate_open : simpl never.

Ltac case_if :=
  match goal with
  | |- context [if ?b then _ else _] => destruct b eqn:?
  | H : context [if ?b then _ else _] |- _ => destruct b eqn:?
  end.

Ltac inv H := inversion H; subst; clear H.

Ltac plain b :=
  lazymatch b with
  | context [if _ then _ else _] => fail
  | context [match _ with Some _ => _ | None => _ end] => fail
  | _ => idtac
  end.

Ltac split_cases H :=
  repeat (cbn in H;
          match type of H with
          | context [if ?b then _ else _] => plain b; destruct b eqn:?
          | context [match ?o with Some _ => _ | None => _ end] =>
              plain o; destruct o eqn:?
          end);
  cbn in H; try discriminate H.

Ltac split_result H := split_cases H; inv H.

Ltac list_eq :=
  repeat (cbn [app repeat] || rewrite <- app_assoc || rewrite app_nil_r);
  reflexivity.

Ltac same_branches :=
  repeat (cbn;
          match goal with
          | |- context [if ?b then _ else _] => plain b; destruct b eqn:?
          | |- context [match ?o with Some _ => _ | None => _ end] =>
              plain o; destruct o eqn:?
          end);
  cbn; try reflexivity.

Lemma Forall_tl {A} (P : A -> Prop) (l : list A) :
  Forall P l -> Forall P (tl l).
Proof. destruct 1; cbn; auto. Qed.

Ltac frames :=
  repeat match goal with
    | |- Forall _ (_ ++ _) => apply Forall_app; split
    | |- Forall _ (_ :: _) => constructor
    | |- Forall _ (tl _) => apply Forall_tl
    | |- Forall _ [] => constructor
    end; auto.

Section Basics.
Context {V : TenVad}.

Lemma after_nil (r : Result) : after [] r = r.
Proof. destruct r as [[s c]|]; reflexivity. Qed.

Lemma after_after (c1 c2 : list callback) (r : Result) :
  after c1 (after c2 r) = after (c1 ++ c2) r.
Proof. destruct r as [[s c]|]; cbn; [rewrite app_assoc|]; reflexivity. Qed.

Lemma andThen_ret_l (s : RealtimeTenVad) (f : RealtimeTenVad -> Result) :
  andThen (ret s) f = f s.
Proof. cbn. apply after_nil. Qed.

Lemma andThen_ret_r (m : Result) : andThen m ret = m.
Proof.
  destruct m as [[s c]|]; cbn; [rewrite app_nil_r|]; reflexivity.
Qed.

Lemma andThen_after (c : list callback) (m : Result)
    (f : RealtimeTenVad -> Result) :
  andThen (after c m) f = after c (andThen m f).
Proof.
  destruct m as [[s c']|]; cbn; [|reflexivity].
  symmetry. apply after_after.
Qed.

Lemma andThen_assoc (m : Result) (f g : RealtimeTenVad -> Result) :
  andThen (andThen m f) g = andThen m (fun s => andThen (f s) g).
Proof.
  destruct m as [[s c]|]; cbn; [|reflexivity].
  apply andThen_after.
Qed.

Lemma andThen_ext (m : Result) (f g : RealtimeTenVad -> Result) :
  (forall s, f s = g s) -> andThen m f = andThen m g.
Proof. intros E. destruct m as [[s c]|]; cbn; [rewrite E|]; reflexivity. Qed.

Lemma andThen_Some (m : Result) (f : RealtimeTenVad -> Result)
    (s' : RealtimeTenVad) (calls : list callback) :
  andThen m f = Some (s', calls) ->
  exists s1 c1 c2,
    m = Some (s1, c1) /\ f s1 = Some (s', c2) /\ calls = c1 ++ c2.
Proof.
  destruct m as [[s1 c1]|]; cbn; [|discriminate].
  destruct (f s1) as [[s2 c2]|] eqn:E; cbn; [|discriminate].
  intros H; inv H. exists s1, c1, c2. repeat split; assumption || reflexivity.
Qed.

(** *** Typed arrays *)

Lemma typed_set_length (out src out' : Float32Array) (off : nat) :
  typed_set out src off = Some out' -> length out' = length out.
Proof.
  unfold typed_set. destruct (Nat.leb_spec (off + length src) (length out));
    [|discriminate].
  intros E; inv E.
  rewrite !length_app, length_firstn, length_skipn. lia.
Qed.

Lemma typed_set_fits (out src : Float32Array) (off : nat) :
  (off + length src <= length out)%nat ->
  typed_set out src off
  = Some (firstn off out ++ src ++ skipn (off + length src) out).
Proof.
  intros Hle. unfold typed_set.
  destruct (Nat.leb_spec (off + length src) (length out)); [reflexivity|lia].
Qed.

Lemma length_new_Float32Array (n : nat) : length (new_Float32Array n) = n.
Proof. apply repeat_length. Qed.

Lemma new_Float32Array_add (n m : nat) :
  new_Float32Array (n + m) = new_Float32Array n ++ new_Float32Array m.
Proof. apply repeat_app. Qed.

(** *** [_concatFrames] *)

Lemma concat_step_None (frames : list Float32Array) :
  fold_left concat_step frames None = None.
Proof. induction frames; cbn; auto. Qed.

Lemma concat_loop_length (frames : list Float32Array) :
  forall out off out' off',
    fold_left concat_step frames (Some (out, off)) = Some (out', off') ->
    length out' = length out.
Proof.
  induction frames as [|f frames IH]; cbn; intros out off out' off' E.
  - inv E. reflexivity.
  - destruct (typed_set out f off) as [out1|] eqn:Hset.
    + apply IH in E. rewrite E. eapply typed_set_length; eauto.
    + rewrite concat_step_None in E. discriminate.
Qed.

(** Whatever the frames, a segment that [_concatFrames] returns has
    [frames.length * HOP_SIZE] samples. *)
Lemma concatFrames_length (frames : list Float32Array) (seg : Float32Array) :
  concatFrames frames = Some seg ->
  length seg = (length frames * HOP_SIZE)%nat.
Proof.
  unfold concatFrames.
  destruct (fold_left _ _ _) as [[out' off']|] eqn:E; cbn; [|discriminate].
  intros H; inv H. apply concat_loop_length in E.
  rewrite E. apply length_new_Float32Array.
Qed.

Lemma concat_loop_fill (frames : list Float32Array) :
  forall done : Float32Array,
    fold_left concat_step frames
      (Some (done ++ new_Float32Array (length (concat frames)), length done))
    = Some (done ++ concat frames,
            (length done + length (concat frames))%nat).
Proof.
  induction frames as [|f frames IH]; intros done.
  - cbn. rewrite Nat.add_0_r. reflexivity.
  - cbn [fold_left concat_step concat].
    rewrite length_app, new_Float32Array_add.
    rewrite typed_set_fits
      by (rewrite !length_app, length_new_Float32Array; lia).
    rewrite firstn_app, firstn_all, Nat.sub_diag, firstn_0, app_nil_r.
    rewrite skipn_app, skipn_all2 by lia.
    replace (length done + length f - length done)%nat with (length f) by lia.
    rewrite skipn_app, skipn_all2 by (rewrite length_new_Float32Array; lia).
    rewrite length_new_Float32Array, Nat.sub_diag, skipn_0. cbn [app].
    specialize (IH (done ++ f)).
    rewrite length_app, <- !app_assoc in IH.
    rewrite Nat.add_assoc. exact IH.
Qed.

Lemma length_concat_full (frames : list Float32Array) :
  Forall full_frame frames ->
  length (concat frames) = (length frames * HOP_SIZE)%nat.
Proof.
  induction 1 as [|f frames Hf _ IH]; cbn; [reflexivity|].
  rewrite length_app, IH, Hf. reflexivity.
Qed.

(** On frames of [HOP_SIZE] samples [_concatFrames] does not throw and
    returns their concatenation. *)
Lemma concatFrames_full (frames : list Float32Array) :
  Forall full_frame frames -> concatFrames frames = Some (concat frames).
Proof.
  intros Hfull. unfold concatFrames.
  rewrite <- (length_concat_full frames Hfull).
  pose proof (concat_loop_fill frames []) as E. cbn [app length] in E.
  rewrite E. reflexivity.
Qed.

End Basics.

(** *** What the frame-level methods leave untouched *)

Section Frame.
Context {V : TenVad} {M : MathLib}.

Lemma same_setup_refl (s : RealtimeTenVad) : same_setup s s.
Proof. repeat split. Qed.

Lemma same_setup_trans (s1 s2 s3 : RealtimeTenVad) :
  same_setup s1 s2 -> same_setup s2 s3 -> same_setup s1 s3.
Proof.
  unfold same_setup. intros (A1 & B1 & C1 & D1) (A2 & B2 & C2 & D2).
  repeat split; congruence.
Qed.

Lemma advanceState_setup isVoice prob frameRaw s s' calls :
  advanceState isVoice prob frameRaw s = Some (s', calls) ->
  same_setup s s'.
Proof.
  unfold advanceState, andThen, after, ret. cbn. intros H.
  split_result H; repeat split.
Qed.

Lemma finalizeWithFrame_setup frame silence s s' calls :
  finalizeWithFrame frame silence s = Some (s', calls) ->
  same_setup s s'.
Proof.
  unfold finalizeWithFrame. intros H. split_result H; repeat split.
Qed.

Lemma classified_setup r frameRaw s s' calls :
  classified r frameRaw s = Some (s', calls) -> same_setup s s'.
Proof.
  unfold classified. intros H.
  destruct (negb (rc r =? 0)%Z);
    apply advanceState_setup in H; exact H.
Qed.

Lemma processFrame_setup frameRaw s s' calls :
  processFrame frameRaw s = Some (s', calls) -> same_setup s s'.
Proof.
  unfold processFrame. intros H.
  destruct (to_int16_frame _ _ _ _) as [prev buf].
  destruct (ten_vad_process _ _) as [h r].
  apply classified_setup in H. exact H.
Qed.

(** *** Frames of [HOP_SIZE] samples *)

Lemma whole_segments_nil : whole_segments [].
Proof. intros seg []. Qed.

Lemma whole_segments_app c1 c2 :
  whole_segments c1 -> whole_segments c2 -> whole_segments (c1 ++ c2).
Proof.
  intros H1 H2 seg Hin. apply in_app_or in Hin. destruct Hin; auto.
Qed.

Lemma whole_segment_one frames frameRaw seg :
  concatFrames (frames ++ [frameRaw]) = Some seg ->
  whole_segments [onSpeechEnd seg].
Proof.
  intros E seg' [H|[]]. inv H.
  apply concatFrames_length in E. rewrite length_app in E. cbn in E.
  exists (length frames + 1)%nat. split; [lia|exact E].
Qed.

Lemma advanceState_segments isVoice prob frameRaw s s' calls :
  advanceState isVoice prob frameRaw s = Some (s', calls) ->
  whole_segments calls.
Proof.
  unfold advanceState, andThen, after, ret. intros H.
  split_result H;
    try (eapply whole_segment_one; eassumption);
    intros seg Hin; cbn in Hin; intuition discriminate.
Qed.

Lemma finalizeWithFrame_segments frame silence s s' calls :
  finalizeWithFrame frame silence s = Some (s', calls) ->
  whole_segments calls.
Proof.
  unfold finalizeWithFrame. intros H.
  split_result H;
    try (eapply whole_segment_one; eassumption);
    intros seg Hin; cbn in Hin; intuition discriminate.
Qed.

Lemma advanceState_frames_ok isVoice prob frameRaw s :
  full_frame frameRaw -> frames_ok s ->
  exists s' calls,
    advanceState isVoice prob frameRaw s = Some (s', calls) /\ frames_ok s'.
Proof.
  intros Hf [Hring Hseg].
  destruct (advanceState isVoice prob frameRaw s) as [[s' calls]|] eqn:H.
  - exists s', calls. split; [reflexivity|].
    unfold advanceState, andThen, after, ret in H.
    split_result H; split; cbn; frames.
  - exfalso. unfold advanceState, andThen, after, ret in H.
    split_cases H;
      match goal with
      | E : concatFrames _ = None |- _ =>
          rewrite concatFrames_full in E by frames; discriminate E
      end.
Qed.

Lemma finalizeWithFrame_frames_ok frame silence s :
  full_frame frame -> frames_ok s ->
  exists s' calls,
    finalizeWithFrame frame silence s = Some (s', calls) /\ frames_ok s'.
Proof.
  intros Hf [Hring Hseg].
  destruct (finalizeWithFrame frame silence s) as [[s' calls]|] eqn:H.
  - exists s', calls. split; [reflexivity|].
    unfold finalizeWithFrame in H.
    split_result H; split; cbn; frames.
  - exfalso. unfold finalizeWithFrame in H.
    split_cases H;
      match goal with
      | E : concatFrames _ = None |- _ =>
          rewrite concatFrames_full in E by frames; discriminate E
      end.
Qed.

Lemma classified_segments r frameRaw s s' calls :
  classified r frameRaw s = Some (s', calls) -> whole_segments calls.
Proof.
  unfold classified. intros H.
  destruct (negb (rc r =? 0)%Z); apply advanceState_segments in H; exact H.
Qed.

Lemma processFrame_segments frameRaw s s' calls :
  processFrame frameRaw s = Some (s', calls) -> whole_segments calls.
Proof.
  unfold processFrame. intros H.
  destruct (to_int16_frame _ _ _ _) as [prev buf].
  destruct (ten_vad_process _ _) as [h r].
  apply classified_segments in H. exact H.
Qed.

Lemma processFrame_frames_ok frameRaw s :
  full_frame frameRaw -> frames_ok s ->
  exists s' calls,
    processFrame frameRaw s = Some (s', calls) /\ frames_ok s'.
Proof.
  intros Hf Hs. unfold processFrame.
  destruct (to_int16_frame _ _ _ _) as [prev buf].
  destruct (ten_vad_process _ _) as [h r].
  unfold classified.
  destruct (negb (rc r =? 0)%Z); apply advanceState_frames_ok; auto.
Qed.

(** No frame-level method touches the remainder buffer. *)
Lemma advanceState_floatBuf isVoice prob frameRaw s s' calls :
  advanceState isVoice prob frameRaw s = Some (s', calls) ->
  _floatBuf s' = _floatBuf s.
Proof.
  unfold advanceState, andThen, after, ret. intros H.
  split_result H; reflexivity.
Qed.

Lemma finalizeWithFrame_floatBuf frame silence s s' calls :
  finalizeWithFrame frame silence s = Some (s', calls) ->
  _floatBuf s' = _floatBuf s.
Proof.
  unfold finalizeWithFrame. intros H. split_result H; reflexivity.
Qed.

Lemma processFrame_floatBuf frameRaw s s' calls :
  processFrame frameRaw s = Some (s', calls) ->
  _floatBuf s' = _floatBuf s.
Proof.
  unfold processFrame, classified. intros H.
  destruct (to_int16_frame _ _ _ _) as [prev buf].
  destruct (ten_vad_process _ _) as [h r].
  destruct (negb (rc r =? 0)%Z);
    apply advanceState_floatBuf in H; exact H.
Qed.

End Frame.

(** *** The loop of [flush] *)

Section Loop.
Context {V : TenVad} {M : MathLib}.

Lemma flush_loop_step (s : RealtimeTenVad) :
  flush_loop s
  = if JS.gt (_postPadCountdown s) (Num 0)
    then andThen (finalizeWithFrame (new_Float32Array HOP_SIZE) true s)
           flush_loop
    else ret s.
Proof.
  funelim (flush_loop s);
    match goal with E : JS.gt _ _ = _ |- _ => rewrite E end.
  - reflexivity.
  - rewrite Hfin. reflexivity.
  - match goal with E : finalizeWithFrame _ _ _ = None |- _ => rewrite E end.
    reflexivity.
Qed.

Lemma number_pos_or_not (x : number) :
  JS.le x (Num 0) = false -> JS.is_number x -> JS.gt x (Num 0) = true.
Proof.
  destruct x as [|q]; cbn; [contradiction|].
  unfold JS.le, JS.gt, JS.lt. intros Hle _.
  apply Qltb_lt. destruct (Qlt_le_dec 0 q) as [Hlt|Hge]; [exact Hlt|].
  apply Qle_bool_iff in Hge. congruence.
Qed.

Lemma gt_zero_number (x : number) :
  JS.gt x (Num 0) = true ->
  exists q, x = Num q /\ (0 < q)%Q /\ JS.strict_eq x (Num 0) = false.
Proof.
  destruct x as [|q]; unfold JS.gt, JS.lt, JS.strict_eq; [discriminate|].
  intros H. apply Qltb_lt in H. exists q. repeat split; auto.
  destruct (Qeq_bool q 0) eqn:E; [|reflexivity].
  apply Qeq_bool_iff in E. lra.
Qed.

(** One turn of the loop, taken with a positive countdown: either the
    segment is closed by exactly one terminal callback, or the countdown
    stays positive and nothing is called. *)
Lemma finalizeWithFrame_turn frame s s' calls :
  JS.gt (_postPadCountdown s) (Num 0) = true ->
  finalizeWithFrame frame true s = Some (s', calls) ->
  (exists c, calls = [c] /\ terminal c
             /\ _inSpeech s' = false /\ _postPadCountdown s' = Num 0)
  \/ (calls = [] /\ JS.gt (_postPadCountdown s') (Num 0) = true
      /\ _inSpeech s' = _inSpeech s).
Proof.
  intros Hgt H. destruct (gt_zero_number _ Hgt) as (q & Eq & Hq & Hne).
  unfold finalizeWithFrame in H. cbn in H. rewrite Hne in H. cbn in H.
  destruct (JS.le _ _) eqn:Hle.
  - left. split_result H; eexists; repeat split; cbn; trivial.
  - right. inv H. cbn. repeat split.
    apply number_pos_or_not; [exact Hle|]. rewrite Eq. exact I.
Qed.

Lemma flush_loop_exit (s s' : RealtimeTenVad) (calls : list callback) :
  flush_loop s = Some (s', calls) ->
  (JS.gt (_postPadCountdown s) (Num 0) = false /\ s' = s /\ calls = [])
  \/ (JS.gt (_postPadCountdown s) (Num 0) = true
      /\ _inSpeech s' = false
      /\ exists c, calls = [c] /\ terminal c).
Proof.
  revert s' calls. funelim (flush_loop s); intros s2 calls2 E.
  - left. inv E. auto.
  - right. split; [assumption|].
    destruct (finalizeWithFrame_turn _ _ _ _ Hgt Hfin)
      as [(c & -> & Hc & Hin & Hcd)|(-> & Hgt' & _)].
    + rewrite flush_loop_step in E.
      replace (JS.gt (_postPadCountdown s') (Num 0)) with false in E
        by (rewrite Hcd; reflexivity).
      inv E. split; [assumption|]. exists c. auto.
    + destruct (flush_loop s') as [[s3 c3]|] eqn:E3; [|discriminate].
      inv E. destruct (H _ _ eq_refl) as [(Hf & _)|(_ & Hin & Hc)];
        [congruence|auto].
  - discriminate.
Qed.

Lemma flush_loop_setup (s s' : RealtimeTenVad) (calls : list callback) :
  flush_loop s = Some (s', calls) ->
  same_setup s s' /\ _floatBuf s' = _floatBuf s.
Proof.
  revert s' calls. funelim (flush_loop s); intros s2 calls2 E.
  - inv E. split; [apply same_setup_refl|reflexivity].
  - destruct (flush_loop s') as [[s3 c3]|] eqn:E3; [|discriminate].
    inv E. destruct (H _ _ eq_refl) as [Hs Hb]. split.
    + eapply same_setup_trans; [|exact Hs].
      eapply finalizeWithFrame_setup; eauto.
    + rewrite Hb. eapply finalizeWithFrame_floatBuf; eauto.
  - discriminate.
Qed.

Lemma flush_loop_segments (s s' : RealtimeTenVad) (calls : list callback) :
  flush_loop s = Some (s', calls) -> whole_segments calls.
Proof.
  revert s' calls. funelim (flush_loop s); intros s2 calls2 E.
  - inv E. apply whole_segments_nil.
  - destruct (flush_loop s') as [[s3 c3]|] eqn:E3; [|discriminate].
    inv E. apply whole_segments_app; [|eapply H; eauto].
    eapply finalizeWithFrame_segments; eauto.
  - discriminate.
Qed.

Lemma full_frame_silent : full_frame (new_Float32Array HOP_SIZE).
Proof. apply length_new_Float32Array. Qed.

(** On an instance whose frames are whole the loop ends without throwing. *)
Lemma flush_loop_frames_ok (s : RealtimeTenVad) :
  frames_ok s ->
  exists s' calls, flush_loop s = Some (s', calls) /\ frames_ok s'.
Proof.
  funelim (flush_loop s); intros Hok.
  - exists s, []. auto.
  - destruct (finalizeWithFrame_frames_ok (new_Float32Array HOP_SIZE) true
                s full_frame_silent Hok) as (s1 & c1 & E1 & Hok1).
    rewrite Hfin in E1. inv E1.
    destruct (H Hok1) as (s2 & c2 & E2 & Hok2).
    rewrite E2. cbn. eauto.
  - destruct (finalizeWithFrame_frames_ok (new_Float32Array HOP_SIZE) true
                s full_frame_silent Hok) as (s1 & c1 & E1 & Hok1).
    congruence.
Qed.

End Loop.

(** *** Framing *)

Section Framing.
Context {V : TenVad} {M : MathLib}.

Lemma feed_app (fs1 fs2 : list Float32Array) (s : RealtimeTenVad) :
  feed (fs1 ++ fs2) s = andThen (feed fs1 s) (feed fs2).
Proof.
  revert s. induction fs1 as [|f fs1 IH]; intros s; cbn [feed app].
  - rewrite andThen_ret_l. reflexivity.
  - rewrite andThen_assoc. apply andThen_ext. exact IH.
Qed.

Lemma fold_feed (F : nat -> Float32Array) (l : list nat) (acc : Result) :
  fold_left (fun (acc : Result) (i : nat) => andThen acc (processFrame (F i)))
    l acc
  = andThen acc (feed (map F l)).
Proof.
  revert acc. induction l as [|i l IH]; intros acc; cbn [fold_left map feed].
  - rewrite andThen_ret_r. reflexivity.
  - rewrite IH, andThen_assoc. reflexivity.
Qed.

(** [processAudio] hands the complete frames of [_floatBuf ++ floatChunk]
    to [_processFrame] in order and keeps the rest. *)
Lemma processAudio_feed (floatChunk : Float32Array) (s : RealtimeTenVad) :
  processAudio floatChunk s
  = let combined := _floatBuf s ++ floatChunk in
    andThen (feed (frames_of combined) s)
      (fun s' =>
         ret (set_floatBuf
                (subarray_from combined
                   (length combined / HOP_SIZE * HOP_SIZE)) s')).
Proof.
  unfold processAudio, frames_of. cbn zeta.
  rewrite (fold_feed
             (fun i => subarray (_floatBuf s ++ floatChunk) (i * HOP_SIZE)
                         (i * HOP_SIZE + HOP_SIZE))).
  rewrite andThen_ret_l. reflexivity.
Qed.

Lemma subarray_full (a : Float32Array) (i : nat) :
  (i < length a / HOP_SIZE)%nat ->
  full_frame (subarray a (i * HOP_SIZE) (i * HOP_SIZE + HOP_SIZE)).
Proof.
  intros Hi. unfold full_frame, subarray.
  rewrite length_firstn, length_skipn.
  pose proof HOP_SIZE_pos as Hpos.
  pose proof (Nat.Div0.mul_div_le (length a) HOP_SIZE) as Hle.
  assert ((i + 1) * HOP_SIZE <= HOP_SIZE * (length a / HOP_SIZE))%nat by nia.
  lia.
Qed.

Lemma frames_of_full (a : Float32Array) : Forall full_frame (frames_of a).
Proof.
  unfold frames_of. apply Forall_forall. intros f Hin.
  apply in_map_iff in Hin. destruct Hin as (i & <- & Hi).
  apply in_seq in Hi. apply subarray_full. lia.
Qed.

Lemma remainder_short (a : Float32Array) :
  (length (subarray_from a (length a / HOP_SIZE * HOP_SIZE)) < HOP_SIZE)%nat.
Proof.
  unfold subarray_from. rewrite length_skipn.
  pose proof HOP_SIZE_pos as Hpos.
  pose proof (Nat.mod_upper_bound (length a) HOP_SIZE ltac:(lia)).
  pose proof (Nat.div_mod_eq (length a) HOP_SIZE). lia.
Qed.

Lemma feed_setup frames s s' calls :
  feed frames s = Some (s', calls) ->
  same_setup s s' /\ _floatBuf s' = _floatBuf s.
Proof.
  revert s calls. induction frames as [|f frames IH]; intros s calls H.
  - inv H. split; [apply same_setup_refl|reflexivity].
  - cbn [feed] in H. apply andThen_Some in H.
    destruct H as (s1 & c1 & c2 & H1 & H2 & ->).
    apply IH in H2. destruct H2 as [Hs Hb]. split.
    + eapply same_setup_trans; [|exact Hs]. eapply processFrame_setup; eauto.
    + rewrite Hb. eapply processFrame_floatBuf; eauto.
Qed.

Lemma feed_segments frames s s' calls :
  feed frames s = Some (s', calls) -> whole_segments calls.
Proof.
  revert s calls. induction frames as [|f frames IH]; intros s calls H.
  - inv H. apply whole_segments_nil.
  - cbn [feed] in H. apply andThen_Some in H.
    destruct H as (s1 & c1 & c2 & H1 & H2 & ->).
    apply whole_segments_app; [|eapply IH; eauto].
    eapply processFrame_segments; eauto.
Qed.

Lemma feed_frames_ok frames s :
  Forall full_frame frames -> frames_ok s ->
  exists s' calls, feed frames s = Some (s', calls) /\ frames_ok s'.
Proof.
  intros Hfs. revert s. induction Hfs as [|f frames Hf _ IH]; intros s Hok.
  - exists s, []. auto.
  - destruct (processFrame_frames_ok f s Hf Hok) as (s1 & c1 & E1 & Hok1).
    destruct (IH s1 Hok1) as (s2 & c2 & E2 & Hok2).
    cbn [feed]. rewrite E1. cbn. rewrite E2. cbn. eauto.
Qed.

Lemma frames_ok_set_floatBuf buf s :
  frames_ok s -> frames_ok (set_floatBuf buf s).
Proof. intros H. exact H. Qed.

Lemma processAudio_ready floatChunk s :
  frames_ok s ->
  exists s' calls,
    processAudio floatChunk s = Some (s', calls) /\ ready s'.
Proof.
  intros Hok. rewrite processAudio_feed. cbn zeta.
  destruct (feed_frames_ok (frames_of (_floatBuf s ++ floatChunk)) s
              (frames_of_full _) Hok) as (s1 & c1 & E1 & Hok1).
  rewrite E1. cbn. eexists _, _. split; [reflexivity|].
  split; [exact Hok1|]. cbn. apply remainder_short.
Qed.

Lemma processAudio_setup floatChunk s s' calls :
  processAudio floatChunk s = Some (s', calls) -> same_setup s s'.
Proof.
  rewrite processAudio_feed. cbn zeta. intros H.
  apply andThen_Some in H. destruct H as (s1 & c1 & c2 & H1 & H2 & ->).
  inv H2. apply feed_setup in H1. destruct H1 as [Hs _]. exact Hs.
Qed.

Lemma processAudio_segments floatChunk s s' calls :
  processAudio floatChunk s = Some (s', calls) -> whole_segments calls.
Proof.
  rewrite processAudio_feed. cbn zeta. intros H.
  apply andThen_Some in H. destruct H as (s1 & c1 & c2 & H1 & H2 & ->).
  inv H2. rewrite app_nil_r. eapply feed_segments; eauto.
Qed.

Lemma flush_setup s s' calls :
  flush s = Some (s', calls) -> same_setup s s'.
Proof.
  unfold flush. intros H.
  apply andThen_Some in H. destruct H as (s1 & c1 & c2 & H1 & H2 & ->).
  assert (Hs1 : same_setup s s1).
  { destruct (0 <? length (_floatBuf s))%nat.
    - destruct (typed_set _ _ _) as [pad|]; [|discriminate].
      apply andThen_Some in H1.
      destruct H1 as (s0 & c0 & c0' & Ha & Hb & _). inv Hb.
      apply processAudio_setup in Ha. exact Ha.
    - inv H1. apply same_setup_refl. }
  eapply same_setup_trans; [exact Hs1|].
  destruct (_inSpeech s1).
  - apply flush_loop_setup in H2. apply H2.
  - inv H2. apply same_setup_refl.
Qed.

Lemma flush_segments s s' calls :
  flush s = Some (s', calls) -> whole_segments calls.
Proof.
  unfold flush. intros H.
  apply andThen_Some in H. destruct H as (s1 & c1 & c2 & H1 & H2 & ->).
  apply whole_segments_app.
  - destruct (0 <? length (_floatBuf s))%nat.
    + destruct (typed_set _ _ _) as [pad|]; [|discriminate].
      apply andThen_Some in H1.
      destruct H1 as (s0 & c0 & c0' & Ha & Hb & ->). inv Hb.
      rewrite app_nil_r. eapply processAudio_segments; eauto.
    + inv H1. apply whole_segments_nil.
  - destruct (_inSpeech s1).
    + eapply flush_loop_segments; eauto.
    + inv H2. apply whole_segments_nil.
Qed.

Lemma flush_ready s :
  ready s -> exists s' calls, flush s = Some (s', calls) /\ ready s'.
Proof.
  intros [Hok Hlen]. unfold flush.
  assert (H1 : exists s1 c1,
             (if (0 <? length (_floatBuf s))%nat
              then
                match
                  typed_set (new_Float32Array HOP_SIZE) (_floatBuf s) 0
                with
                | Some pad =>
                    andThen (processAudio pad s)
                      (fun s => ret (set_floatBuf (new_Float32Array 0) s))
                | None => None
                end
              else ret s) = Some (s1, c1)
             /\ frames_ok s1 /\ (length (_floatBuf s1) < HOP_SIZE)%nat).
  { destruct (0 <? length (_floatBuf s))%nat.
    - rewrite typed_set_fits by (rewrite length_new_Float32Array; lia).
      destruct (processAudio_ready
                  (firstn 0 (new_Float32Array HOP_SIZE) ++ _floatBuf s
                   ++ skipn (0 + length (_floatBuf s))
                        (new_Float32Array HOP_SIZE)) s Hok)
        as (s1 & c1 & E1 & Hok1 & _).
      rewrite E1. cbn. eexists _, _. split; [reflexivity|].
      split; [exact Hok1|]. cbn. apply HOP_SIZE_pos.
    - exists s, []. auto. }
  destruct H1 as (s1 & c1 & E1 & Hok1 & Hlen1). rewrite E1. cbn.
  destruct (_inSpeech s1).
  - destruct (flush_loop_frames_ok
                (set_postPadCountdown (_postPadFrames s1) s1) Hok1)
      as (s2 & c2 & E2 & Hok2).
    rewrite E2. cbn. eexists _, _. split; [reflexivity|].
    split; [exact Hok2|].
    apply flush_loop_setup in E2. destruct E2 as [_ ->]. exact Hlen1.
  - cbn. eexists _, _. split; [reflexivity|]. split; assumption.
Qed.

Lemma construct_ready (o : opts.t) (h : vad) : ready (construct o h).
Proof.
  unfold construct. destruct (JS.gt _ _);
    (split; [split; constructor|]; cbn; apply HOP_SIZE_pos).
Qed.

(** From a ready instance every stream of calls runs to its end, leaves
    the tunables as they were and hands only whole segments to
    [onSpeechEnd]. *)
Lemma run_ready (calls : list api_call) (s : RealtimeTenVad) :
  ready s ->
  exists s' cbs,
    run calls s = Some (s', cbs) /\ ready s' /\ same_setup s s'
    /\ whole_segments cbs.
Proof.
  revert s. induction calls as [|c calls IH]; intros s Hs.
  - exists s, []. split; [reflexivity|]. split; [exact Hs|].
    split; [apply same_setup_refl|apply whole_segments_nil].
  - assert (H1 : exists s1 c1, call c s = Some (s1, c1) /\ ready s1
                               /\ same_setup s s1 /\ whole_segments c1).
    { destruct c as [chunk|]; cbn [call].
      - destruct (processAudio_ready chunk s (proj1 Hs))
          as (s1 & c1 & E1 & Hr1).
        exists s1, c1. split; [exact E1|]. split; [exact Hr1|].
        split; [eapply processAudio_setup|eapply processAudio_segments];
          eauto.
      - destruct (flush_ready s Hs) as (s1 & c1 & E1 & Hr1).
        exists s1, c1. split; [exact E1|]. split; [exact Hr1|].
        split; [eapply flush_setup|eapply flush_segments]; eauto. }
    destruct H1 as (s1 & c1 & E1 & Hr1 & Hs1 & Hw1).
    destruct (IH s1 Hr1) as (s2 & c2 & E2 & Hr2 & Hs2 & Hw2).
    exists s2, (c1 ++ c2). cbn [run]. rewrite E1. cbn. rewrite E2. cbn.
    split; [reflexivity|]. split; [exact Hr2|]. split.
    + eapply same_setup_trans; eauto.
    + apply whole_segments_app; auto.
Qed.

End Framing.

(* ===================================================================== *)
(** ** The properties of the specification *)
(* ===================================================================== *)

Section Construction.
Context {V : TenVad} {M : MathLib}.

Lemma clamp_is_number (x : number) :
  JS.is_number x ->
  JS.is_number (JS.Math_min (Num 1) (JS.Math_max (Num 0) x)).
Proof.
  destruct x as [|q]; cbn; [contradiction|]. intros _.
  unfold JS.Math_max. destruct (Qle_bool 0 q); unfold JS.Math_min;
    case_if; exact I.
Qed.

Lemma or_default_is_number (x : option number) (d : Q) :
  numeric x -> JS.is_number (JS.or_default x (Num d)).
Proof. destruct x as [[|q]|]; cbn; auto. Qed.

(** The swap of the constructor orders two numbers. *)
Lemma swap_orders (pos neg : number) :
  JS.is_number pos -> JS.is_number neg ->
  let '(pos', neg') := if JS.gt neg pos then (neg, pos) else (pos, neg) in
  JS.le neg' pos' = true.
Proof.
  destruct pos as [|p]; [contradiction|].
  destruct neg as [|n]; [contradiction|]. intros _ _.
  unfold JS.gt, JS.lt, JS.le.
  destruct (JS.Qltb p n) eqn:E; apply Qle_bool_iff.
  - apply Qltb_lt in E. lra.
  - destruct (Qlt_le_dec p n) as [Hlt|Hle]; [|exact Hle].
    apply Qltb_lt in Hlt. congruence.
Qed.

Lemma construct_thresholds (o : opts.t) (h : vad) :
  numeric (opts.positiveSpeechThreshold o) ->
  numeric (opts.negativeSpeechThreshold o) ->
  JS.le (negativeSpeechThreshold (knobs (construct o h)))
        (positiveSpeechThreshold (knobs (construct o h))) = true.
Proof.
  intros Hp Hn.
  pose proof (swap_orders _ _
                (clamp_is_number _ (or_default_is_number _ (6 # 10) Hp))
                (clamp_is_number _ (or_default_is_number _ (4 # 10) Hn)))
    as H.
  unfold construct. destruct (JS.gt _ _); exact H.
Qed.

(** A NaN threshold goes through the clamp and the swap unchanged: the
    order of the two thresholds is then lost. *)
Lemma nan_threshold_unordered (h : vad) :
  let o := {|
    opts.positiveSpeechThreshold := Some NaN;
    opts.negativeSpeechThreshold := Some (Num (1 # 2));
    opts.minSpeechFrames := None; opts.minSilenceFrames := None;
    opts.probSmoothing := None; opts.energyGateDb := None;
    opts.preEmphasis := None; opts.preSpeechPadMs := None;
    opts.postSpeechPadMs := None; opts.minSpeechMs := None |} in
  positiveSpeechThreshold (knobs (construct o h)) = NaN
  /\ JS.le (negativeSpeechThreshold (knobs (construct o h)))
           (positiveSpeechThreshold (knobs (construct o h))) = false.
Proof. split; reflexivity. Qed.

(** C5. For every pair of numeric threshold options (each a number or
    absent), in whichever order they are given, the instance the
    constructor returns has [negativeSpeechThreshold <=
    positiveSpeechThreshold], and so has the instance after any stream of
    [processAudio] and [flush] calls, every one of which returns. *)
Theorem thresholds_ordered_for_life (o : opts.t) (h : vad)
    (calls : list api_call) :
  numeric (opts.positiveSpeechThreshold o) ->
  numeric (opts.negativeSpeechThreshold o) ->
  exists s cbs,
    run calls (construct o h) = Some (s, cbs)
    /\ knobs s = knobs (construct o h)
    /\ JS.le (negativeSpeechThreshold (knobs s))
             (positiveSpeechThreshold (knobs s)) = true.
Proof.
  intros Hp Hn.
  destruct (run_ready calls (construct o h) (construct_ready o h))
    as (s & cbs & E & _ & (Hk & _) & _).
  exists s, cbs. split; [exact E|]. split; [exact Hk|].
  rewrite Hk. apply construct_thresholds; assumption.
Qed.

(** C10. From construction, every stream of [processAudio] and [flush]
    calls returns, and every segment it hands to [onSpeechEnd] has a
    length that is a positive multiple of 256. *)
Theorem onSpeechEnd_length_multiple_of_256 (o : opts.t) (h : vad)
    (calls : list api_call) :
  exists s cbs,
    run calls (construct o h) = Some (s, cbs)
    /\ forall seg, In (onSpeechEnd seg) cbs ->
         exists n, (0 < n)%nat /\ length seg = (n * 256)%nat.
Proof.
  destruct (run_ready calls (construct o h) (construct_ready o h))
    as (s & cbs & E & _ & _ & Hw).
  exists s, cbs. split; [exact E|].
  rewrite <- HOP_SIZE_256. exact Hw.
Qed.

End Construction.

Section Flush.
Context {V : TenVad} {M : MathLib}.

Lemma set_postPadCountdown_same (s : RealtimeTenVad) (v : number) :
  _postPadCountdown s = v -> set_postPadCountdown v s = s.
Proof. destruct s. cbn. intros <-. reflexivity. Qed.

(** After [flush] the remainder is empty, and the instance is either in
    silence or left in speech with a countdown that cannot run. *)
Lemma flush_rest (s s1 : RealtimeTenVad) (c1 : list callback) :
  flush s = Some (s1, c1) ->
  _floatBuf s1 = []
  /\ (_inSpeech s1 = false
      \/ (_postPadCountdown s1 = _postPadFrames s1
          /\ JS.gt (_postPadFrames s1) (Num 0) = false)).
Proof.
  unfold flush. intros H.
  apply andThen_Some in H. destruct H as (sa & ca & cb & Ha & Hb & ->).
  assert (Hbuf : _floatBuf sa = []).
  { destruct (0 <? length (_floatBuf s))%nat eqn:Hlen.
    - destruct (typed_set _ _ _) as [pad|]; [|discriminate].
      apply andThen_Some in Ha.
      destruct Ha as (s0 & c0 & c0' & _ & Hset & _). inv Hset. reflexivity.
    - inv Ha. apply Nat.ltb_ge in Hlen.
      destruct (_floatBuf sa); [reflexivity|cbn in Hlen; lia]. }
  destruct (_inSpeech sa) eqn:Hin.
  - pose proof (flush_loop_setup _ _ _ Hb) as [(_ & _ & Hpp & _) Hfb].
    cbn in Hpp, Hfb. split; [congruence|].
    apply flush_loop_exit in Hb. cbn in Hb.
    destruct Hb as [(Hgt & -> & _)|(_ & Hout & _)]; [right|left; exact Hout].
    cbn. auto.
  - inv Hb. auto.
Qed.

(** Whenever [flush] returns, a second [flush] made right after it calls
    no callback and leaves the instance as the first one left it. *)
Lemma second_flush_is_idle (s s1 : RealtimeTenVad) (c1 : list callback) :
  flush s = Some (s1, c1) -> flush s1 = Some (s1, []).
Proof.
  intros H. apply flush_rest in H. destruct H as [Hbuf Hrest].
  unfold flush. rewrite Hbuf. cbn [length Nat.ltb Nat.leb].
  rewrite andThen_ret_l.
  destruct (_inSpeech s1) eqn:Hin; [|reflexivity].
  destruct Hrest as [Hout|[Hcd Hgt]]; [congruence|].
  rewrite set_postPadCountdown_same by exact Hcd.
  rewrite flush_loop_step, Hcd, Hgt. reflexivity.
Qed.

(** C7. In every state that a stream of [processAudio] and [flush]
    calls reaches from construction, [flush] returns, and a second
    [flush] made right after it calls no callback and leaves the
    instance exactly as the first one left it. *)
Theorem flush_idempotent (o : opts.t) (h : vad) (calls : list api_call) :
  exists s cbs,
    run calls (construct o h) = Some (s, cbs)
    /\ exists s1 c1,
         flush s = Some (s1, c1) /\ flush s1 = Some (s1, []).
Proof.
  destruct (run_ready calls (construct o h) (construct_ready o h))
    as (s & cbs & E & Hready & _ & _).
  exists s, cbs. split; [exact E|].
  destruct (flush_ready s Hready) as (s1 & c1 & E1 & _).
  exists s1, c1. split; [exact E1|].
  eapply second_flush_is_idle. exact E1.
Qed.

(** A step taken in speech calls nothing and stays in speech, or closes
    the segment with exactly one terminal callback. *)
Lemma advanceState_in_speech isVoice prob frameRaw s s' calls :
  _inSpeech s = true ->
  advanceState isVoice prob frameRaw s = Some (s', calls) ->
  (_inSpeech s' = true /\ calls = [])
  \/ (_inSpeech s' = false /\ exists c, calls = [c] /\ terminal c).
Proof.
  intros Hin H. unfold advanceState, andThen, after, ret in H.
  split_result H; cbn in *;
    repeat match goal with
      | E : context [_inSpeech s] |- _ => rewrite Hin in E; cbn in E
      end;
    try discriminate;
    try (left; split; [assumption || reflexivity|reflexivity]);
    right; (split; [reflexivity|]); eexists; (split; [reflexivity|exact I]).
Qed.

Lemma processFrame_in_speech frameRaw s s' calls :
  _inSpeech s = true ->
  processFrame frameRaw s = Some (s', calls) ->
  (_inSpeech s' = true /\ calls = [])
  \/ (_inSpeech s' = false /\ exists c, calls = [c] /\ terminal c).
Proof.
  intros Hin H. unfold processFrame, classified in H.
  destruct (to_int16_frame _ _ _ _) as [prev buf].
  destruct (ten_vad_process _ _) as [h r].
  destruct (negb (rc r =? 0)%Z);
    eapply advanceState_in_speech in H; eauto.
Qed.

Lemma one_padded_frame (buf pad : Float32Array) :
  (0 < length buf < HOP_SIZE)%nat -> length pad = HOP_SIZE ->
  exists f, frames_of (buf ++ pad) = [f] /\ full_frame f.
Proof.
  intros Hbuf Hpad.
  pose proof (frames_of_full (buf ++ pad)) as Hfull.
  assert (Hlen : length (frames_of (buf ++ pad)) = 1%nat).
  { unfold frames_of. rewrite length_map, length_seq, length_app, Hpad.
    replace (length buf + HOP_SIZE)%nat
      with (length buf + 1 * HOP_SIZE)%nat by lia.
    rewrite Nat.div_add by lia. rewrite Nat.div_small by lia. reflexivity. }
  destruct (frames_of (buf ++ pad)) as [|f [|g l]]; try discriminate.
  exists f. inv Hfull. auto.
Qed.

(** What C2 asks of [flush], where the code does it: with a positive
    number of post-pad frames, [flush] on a ready instance in speech
    calls exactly one terminal callback and leaves the instance in
    silence. *)
Lemma flush_closes_open_segment (s : RealtimeTenVad) :
  ready s -> _inSpeech s = true ->
  JS.gt (_postPadFrames s) (Num 0) = true ->
  exists s' c,
    flush s = Some (s', [c]) /\ terminal c /\ _inSpeech s' = false.
Proof.
  intros [Hok Hshort] Hin Hpad.
  destruct (flush_ready s (conj Hok Hshort)) as (s' & calls & E & _).
  exists s'. pose proof E as E0. unfold flush in E.
  apply andThen_Some in E. destruct E as (sa & ca & cb & Ha & Hb & ->).
  assert (Hpart : same_setup s sa /\ frames_ok sa
                  /\ ((_inSpeech sa = true /\ ca = [])
                      \/ (_inSpeech sa = false
                          /\ exists c, ca = [c] /\ terminal c))).
  { destruct (_floatBuf s) as [|x buf] eqn:Hbuf.
    - cbn in Ha. inv Ha. split; [apply same_setup_refl|]. auto.
    - cbn [length Nat.ltb Nat.leb] in Ha.
      rewrite typed_set_fits in Ha
        by (rewrite length_new_Float32Array; cbn [length] in *; lia).
      apply andThen_Some in Ha.
      destruct Ha as (s0 & c0 & c0' & Hp & Hset & ->). inv Hset.
      rewrite app_nil_r.
      pose proof (processAudio_setup _ _ _ _ Hp) as Hsetup.
      split; [exact Hsetup|].
      match type of Hp with
      | processAudio ?pad s = _ =>
          destruct (processAudio_ready pad s Hok)
            as (s0' & c0'' & E' & Hok0 & _)
      end.
      rewrite Hp in E'. inv E'. split; [exact Hok0|].
      rewrite processAudio_feed in Hp. cbn zeta in Hp. rewrite Hbuf in Hp.
      match type of Hp with
      | context [frames_of ((x :: buf) ++ ?pad)] =>
          destruct (one_padded_frame (x :: buf) pad) as (f & Ef & _);
            [cbn [length] in *; lia
            |rewrite !length_app, length_firstn, length_skipn,
               length_new_Float32Array; cbn [length] in *; lia
            |rewrite Ef in Hp]
      end.
      cbn [feed] in Hp. rewrite andThen_ret_r in Hp.
      apply andThen_Some in Hp.
      destruct Hp as (s2 & c2 & c2' & Hf & Hset & ->). inv Hset.
      rewrite app_nil_r.
      eapply processFrame_in_speech in Hf; [|exact Hin]. exact Hf. }
  destruct Hpart as ((_ & _ & Hpp & _) & Hoka & [[Hina ->]|[Hina Hc]]).
  - rewrite Hina in Hb. apply flush_loop_exit in Hb. cbn in Hb.
    rewrite Hpp, Hpad in Hb.
    destruct Hb as [(Hf & _)|(_ & Hout & c & -> & Hc)]; [discriminate|].
    exists c. cbn [app] in *. auto.
  - rewrite Hina in Hb. inv Hb. destruct Hc as (c & -> & Hc).
    exists c. cbn [app] in *. auto.
Qed.

End Flush.

Section Chunking.
Context {V : TenVad} {M : MathLib}.

Lemma advanceState_set_floatBuf isVoice prob frameRaw buf s :
  advanceState isVoice prob frameRaw (set_floatBuf buf s)
  = on_instance (set_floatBuf buf) (advanceState isVoice prob frameRaw s).
Proof.
  unfold advanceState, andThen, after, ret, on_instance. same_branches.
Qed.

Lemma processFrame_set_floatBuf frameRaw buf s :
  processFrame frameRaw (set_floatBuf buf s)
  = on_instance (set_floatBuf buf) (processFrame frameRaw s).
Proof.
  unfold processFrame. cbn.
  destruct (to_int16_frame _ _ _ _) as [prev b16]. cbn.
  destruct (ten_vad_process _ _) as [h r].
  unfold classified. cbn.
  destruct (negb (rc r =? 0)%Z);
    rewrite <- advanceState_set_floatBuf; reflexivity.
Qed.

Lemma on_instance_andThen g m f :
  (forall s, f (g s) = on_instance g (f s)) ->
  andThen (on_instance g m) f = on_instance g (andThen m f).
Proof.
  intros Hf. destruct m as [[s c]|]; cbn; [|reflexivity].
  rewrite Hf. destruct (f s) as [[s' c']|]; reflexivity.
Qed.

Lemma feed_set_floatBuf frames buf s :
  feed frames (set_floatBuf buf s)
  = on_instance (set_floatBuf buf) (feed frames s).
Proof.
  revert s. induction frames as [|f frames IH]; intros s; cbn [feed].
  - reflexivity.
  - rewrite processFrame_set_floatBuf.
    apply on_instance_andThen. exact IH.
Qed.

(** *** Cutting frames out of a buffer *)

Lemma frames_of_short (r : Float32Array) :
  (length r < HOP_SIZE)%nat -> frames_of r = [].
Proof.
  intros H. unfold frames_of. rewrite Nat.div_small by exact H. reflexivity.
Qed.

Lemma subarray_app_l (x y : Float32Array) (i : nat) :
  (i * HOP_SIZE + HOP_SIZE <= length x)%nat ->
  subarray (x ++ y) (i * HOP_SIZE) (i * HOP_SIZE + HOP_SIZE)
  = subarray x (i * HOP_SIZE) (i * HOP_SIZE + HOP_SIZE).
Proof.
  intros H. unfold subarray.
  rewrite skipn_app, firstn_app, length_skipn.
  replace (i * HOP_SIZE - length x)%nat with 0%nat by lia.
  replace (i * HOP_SIZE + HOP_SIZE - i * HOP_SIZE
           - (length x - i * HOP_SIZE))%nat with 0%nat by lia.
  cbn. apply app_nil_r.
Qed.

Lemma subarray_app_r (x y : Float32Array) (k j : nat) :
  length x = (k * HOP_SIZE)%nat ->
  subarray (x ++ y) ((k + j) * HOP_SIZE) ((k + j) * HOP_SIZE + HOP_SIZE)
  = subarray y (j * HOP_SIZE) (j * HOP_SIZE + HOP_SIZE).
Proof.
  intros H. unfold subarray.
  rewrite skipn_app, skipn_all2 by lia. cbn [app].
  replace ((k + j) * HOP_SIZE - length x)%nat with (j * HOP_SIZE)%nat by lia.
  f_equal. lia.
Qed.

Lemma seq_from (k m : nat) : seq k m = map (Nat.add k) (seq 0 m).
Proof.
  revert k. induction m as [|m IH]; intros k; cbn [seq map].
  - reflexivity.
  - rewrite Nat.add_0_r. f_equal.
    rewrite <- (seq_shift m 0), map_map, (IH (S k)).
    apply map_ext. intros j. lia.
Qed.

(** A buffer that begins with [k] whole frames: its frames are these [k]
    and then the frames of what follows. *)
Lemma frames_of_app (x y : Float32Array) (k : nat) :
  length x = (k * HOP_SIZE)%nat ->
  frames_of (x ++ y) = frames_of x ++ frames_of y.
Proof.
  intros Hx. pose proof HOP_SIZE_pos as Hpos. unfold frames_of.
  rewrite length_app, Hx.
  rewrite Nat.div_add_l, Nat.div_mul by lia.
  rewrite seq_app, map_app. cbn [Nat.add]. f_equal.
  - apply map_ext_in. intros i Hi. apply in_seq in Hi.
    apply subarray_app_l. nia.
  - rewrite seq_from, map_map. apply map_ext. intros j.
    apply subarray_app_r. exact Hx.
Qed.

Lemma split_whole (x : Float32Array) :
  x = firstn (length x / HOP_SIZE * HOP_SIZE) x ++ remainder x
  /\ length (firstn (length x / HOP_SIZE * HOP_SIZE) x)
     = (length x / HOP_SIZE * HOP_SIZE)%nat.
Proof.
  unfold remainder, subarray_from. split.
  - symmetry. apply firstn_skipn.
  - rewrite length_firstn.
    pose proof (Nat.Div0.mul_div_le (length x) HOP_SIZE). lia.
Qed.

Lemma remainder_app (x y : Float32Array) (k : nat) :
  length x = (k * HOP_SIZE)%nat -> remainder (x ++ y) = remainder y.
Proof.
  intros Hx. pose proof HOP_SIZE_pos as Hpos.
  unfold remainder, subarray_from.
  rewrite length_app, Hx, Nat.div_add_l by lia.
  rewrite skipn_app, skipn_all2 by nia. cbn [app]. f_equal. nia.
Qed.

Lemma frames_of_extend (x b : Float32Array) :
  frames_of (x ++ b) = frames_of x ++ frames_of (remainder x ++ b).
Proof.
  destruct (split_whole x) as [Hx Hlen].
  set (x1 := firstn (length x / HOP_SIZE * HOP_SIZE) x) in *.
  rewrite Hx at 1 2. rewrite <- app_assoc.
  rewrite (frames_of_app x1 (remainder x ++ b) _ Hlen).
  rewrite (frames_of_app x1 (remainder x) _ Hlen).
  rewrite (frames_of_short (remainder x)) by apply remainder_short.
  rewrite app_nil_r. reflexivity.
Qed.

Lemma remainder_extend (x b : Float32Array) :
  remainder (x ++ b) = remainder (remainder x ++ b).
Proof.
  destruct (split_whole x) as [Hx Hlen].
  set (x1 := firstn (length x / HOP_SIZE * HOP_SIZE) x) in *.
  rewrite Hx at 1. rewrite <- app_assoc.
  apply (remainder_app x1 _ _ Hlen).
Qed.

(** [processAudio(a ++ b)] is [processAudio(a)] followed by
    [processAudio(b)]: same callbacks with the same segments, same
    instance left. *)
Lemma processAudio_app (a b : Float32Array) (s : RealtimeTenVad) :
  processAudio (a ++ b) s = andThen (processAudio a s) (processAudio b).
Proof.
  rewrite !processAudio_feed. cbn zeta.
  rewrite (app_assoc (_floatBuf s) a b).
  set (x := _floatBuf s ++ a).
  fold (remainder x). fold (remainder (x ++ b)).
  rewrite (frames_of_extend x b), (remainder_extend x b), feed_app.
  rewrite !andThen_assoc. apply andThen_ext. intros s1.
  rewrite andThen_ret_l, processAudio_feed. cbn.
  rewrite feed_set_floatBuf.
  destruct (feed _ s1) as [[s2 c2]|]; reflexivity.
Qed.

(** C6. However a sample sequence is split into chunks for successive
    [processAudio] calls, the calls return what a single [processAudio]
    call on the whole sequence returns: the same callbacks in the same
    order with the same segments, and the same instance. *)
Theorem chunking_invariance (chunk : Float32Array)
    (chunks : list Float32Array) (s : RealtimeTenVad) :
  run (map ProcessAudio (chunk :: chunks)) s
  = processAudio (concat (chunk :: chunks)) s.
Proof.
  revert chunk s. induction chunks as [|c chunks IH]; intros chunk s.
  - cbn. rewrite app_nil_r. apply andThen_ret_r.
  - change (run (map ProcessAudio (chunk :: c :: chunks)) s)
      with (andThen (processAudio chunk s)
              (run (map ProcessAudio (c :: chunks)))).
    change (concat (chunk :: c :: chunks))
      with (chunk ++ concat (c :: chunks)).
    rewrite processAudio_app. apply andThen_ext. intros s1. apply IH.
Qed.

End Chunking.

Section Finalization.
Context {V : TenVad} {M : MathLib}.

Lemma advanceState_finalization isVoice prob frameRaw s s' calls :
  Forall full_frame (_currentSegment s) -> full_frame frameRaw ->
  advanceState isVoice prob frameRaw s = Some (s', calls) ->
  _inSpeech s = true -> _inSpeech s' = false ->
  calls = [terminal_callback (minSpeechMs (knobs s))
             (concat (_currentSegment s ++ [frameRaw]))].
Proof.
  intros Hseg Hf H Hin Hout.
  unfold advanceState, andThen, after, ret in H.
  split_result H; cbn in *; try congruence;
    match goal with
    | E : concatFrames _ = Some _ |- _ =>
        rewrite concatFrames_full in E by frames; inv E
    end;
    unfold terminal_callback;
    match goal with
    | E : JS.lt (duration_ms _) _ = _ |- _ =>
        unfold duration_ms in E; change (JS.of_Z SAMPLE_RATE) with (Num 16000) in E;
        rewrite E
    end; reflexivity.
Qed.

Lemma finalizeWithFrame_finalization frame silence s s' calls :
  Forall full_frame (_currentSegment s) -> full_frame frame ->
  finalizeWithFrame frame silence s = Some (s', calls) ->
  _inSpeech s = true -> _inSpeech s' = false ->
  calls = [terminal_callback (minSpeechMs (knobs s))
             (concat (_currentSegment s ++ [frame]))].
Proof.
  intros Hseg Hf H Hin Hout.
  unfold finalizeWithFrame in H.
  split_result H; cbn in *; try congruence;
    match goal with
    | E : concatFrames _ = Some _ |- _ =>
        rewrite concatFrames_full in E by frames; inv E
    end;
    unfold terminal_callback;
    match goal with
    | E : JS.lt (duration_ms _) _ = _ |- _ =>
        unfold duration_ms in E; change (JS.of_Z SAMPLE_RATE) with (Num 16000) in E;
        rewrite E
    end; reflexivity.
Qed.

Lemma advanceState_terminal isVoice prob frameRaw s s' calls c :
  advanceState isVoice prob frameRaw s = Some (s', calls) ->
  In c calls -> terminal c ->
  _inSpeech s = true /\ _inSpeech s' = false.
Proof.
  intros H Hc Ht. unfold advanceState, andThen, after, ret in H.
  split_result H; cbn in *;
    repeat match goal with
      | H : _ \/ _ |- _ => destruct H
      | H : False |- _ => contradiction
      end; subst; cbn in *; try contradiction; auto.
Qed.

Lemma finalizeWithFrame_terminal frame silence s s' calls c :
  finalizeWithFrame frame silence s = Some (s', calls) ->
  In c calls -> terminal c -> _inSpeech s' = false.
Proof.
  intros H Hc Ht. unfold finalizeWithFrame in H.
  split_result H; cbn in *;
    repeat match goal with
      | H : _ \/ _ |- _ => destruct H
      | H : False |- _ => contradiction
      end; subst; cbn in *; try contradiction; auto.
Qed.

Lemma advanceState_clears isVoice prob frameRaw s s' calls :
  advanceState isVoice prob frameRaw s = Some (s', calls) ->
  _inSpeech s = true -> _inSpeech s' = false -> _currentSegment s' = [].
Proof.
  intros H Hin Hout. unfold advanceState, andThen, after, ret in H.
  split_result H; cbn in *; congruence.
Qed.

Lemma finalizeWithFrame_clears frame silence s s' calls :
  finalizeWithFrame frame silence s = Some (s', calls) ->
  _inSpeech s = true -> _inSpeech s' = false -> _currentSegment s' = [].
Proof.
  intros H Hin Hout. unfold finalizeWithFrame in H.
  split_result H; cbn in *; congruence.
Qed.

(** C8. A step on whole frames in which a segment is finalized (the
    instance goes from speech to silence), be it a step of
    [_advanceState] or of [_finalizeWithFrame], leaves no open segment
    and calls exactly one callback: [onVADMisfire], with no audio, when
    [round(sampleCount / 16000 * 1000) < minSpeechMs], and otherwise
    [onSpeechEnd] with the concatenation of all the accumulated frames. *)
Theorem finalization_calls_exactly_one
    (isVoice silence : bool) (prob : number) (frameRaw : Float32Array)
    (s s' : RealtimeTenVad) (calls : list callback) :
  Forall full_frame (_currentSegment s) -> full_frame frameRaw ->
  advanceState isVoice prob frameRaw s = Some (s', calls)
  \/ finalizeWithFrame frameRaw silence s = Some (s', calls) ->
  _inSpeech s = true -> _inSpeech s' = false ->
  let seg := concat (_currentSegment s ++ [frameRaw]) in
  let durMs :=
    JS.Math_round
      (JS.mul (JS.div (JS.of_nat (length seg)) (Num 16000)) (Num 1000)) in
  _currentSegment s' = []
  /\ ((JS.lt durMs (minSpeechMs (knobs s)) = true
       /\ calls = [onVADMisfire])
      \/ (JS.lt durMs (minSpeechMs (knobs s)) = false
          /\ calls = [onSpeechEnd seg])).
Proof.
  intros Hseg Hf H Hin Hout seg durMs. split.
  { destruct H as [H|H].
    - eapply advanceState_clears; eauto.
    - eapply finalizeWithFrame_clears; eauto. }
  assert (E : calls = [terminal_callback (minSpeechMs (knobs s)) seg]).
  { destruct H as [H|H].
    - eapply advanceState_finalization; eauto.
    - eapply finalizeWithFrame_finalization; eauto. }
  unfold terminal_callback in E. fold durMs in E.
  destruct (JS.lt durMs (minSpeechMs (knobs s))); [left|right]; auto.
Qed.

End Finalization.

Section ClassifierError.
Context {V : TenVad} {M : MathLib}.

(** [_advanceState] neither reads nor writes the smoothed probability,
    and ignores its [prob] argument. *)
Lemma advanceState_set_pSmoothed isVoice prob prob' frameRaw p s :
  advanceState isVoice prob frameRaw (set_pSmoothed p s)
  = on_instance (set_pSmoothed p) (advanceState isVoice prob' frameRaw s).
Proof.
  unfold advanceState, andThen, after, ret, on_instance. same_branches.
Qed.

Lemma set_pSmoothed_same (s : RealtimeTenVad) :
  set_pSmoothed (_pSmoothed s) s = s.
Proof. destruct s. reflexivity. Qed.

Lemma on_instance_twice g1 g2 (r : Result) :
  on_instance g1 (on_instance g2 r) = on_instance (fun s => g1 (g2 s)) r.
Proof. destruct r as [[s c]|]; reflexivity. Qed.

Lemma advanceState_frameIndex isVoice prob frameRaw s s' calls :
  advanceState isVoice prob frameRaw s = Some (s', calls) ->
  _frameIndex s' = (_frameIndex s + 1)%Z /\ _pSmoothed s' = _pSmoothed s.
Proof.
  unfold advanceState, andThen, after, ret. intros H.
  split_result H; split; reflexivity.
Qed.

(** C3, as the code has it. On a frame for which the classifier returns
    an error the frame is not dropped: the instance and the callbacks
    are those of a successful classification with probability 0 and flag
    0, except for the smoothed probability, which keeps the value it had
    before the frame; the frame index advances by one. *)
Theorem classifier_error_is_non_voice_frame
    (r : vad_result) (frameRaw : Float32Array) (s : RealtimeTenVad) :
  rc r <> 0%Z ->
  classified r frameRaw s
  = on_instance (set_pSmoothed (_pSmoothed s))
      (classified (Build_vad_result 0 (Num 0) 0) frameRaw s)
  /\ (forall s' calls,
        classified r frameRaw s = Some (s', calls) ->
        _frameIndex s' = (_frameIndex s + 1)%Z
        /\ _pSmoothed s' = _pSmoothed s).
Proof.
  intros Hrc. unfold classified.
  apply Z.eqb_neq in Hrc. rewrite Hrc. cbn [negb rc Z.eqb].
  cbn -[advanceState]. split.
  - rewrite (advanceState_set_pSmoothed false _ (Num 0)).
    rewrite on_instance_twice.
    destruct (advanceState false (Num 0) frameRaw s) as [[s' calls]|] eqn:E;
      [|reflexivity].
    apply advanceState_frameIndex in E. destruct E as [_ <-].
    destruct s'. reflexivity.
  - intros s' calls H. eapply advanceState_frameIndex; eauto.
Qed.

End ClassifierError.

Section SpeechStart.
Context {V : TenVad} {M : MathLib}.

Lemma construct_initial (o : opts.t) (h : vad) :
  _inSpeech (construct o h) = false
  /\ _voiceRun (construct o h) = 0%Z
  /\ _pSmoothed (construct o h) = Num 0
  /\ _floatBuf (construct o h) = [].
Proof. unfold construct. destruct (JS.gt _ _); repeat split. Qed.

Lemma ge_count (m : number) (n v : Z) :
  JS.strict_eq m (JS.of_Z n) = true ->
  JS.ge (JS.of_Z v) m = (n <=? v)%Z.
Proof.
  destruct m as [|mq]; unfold JS.strict_eq, JS.ge, JS.le, JS.of_Z;
    [discriminate|].
  intros E. apply Qeq_bool_iff in E.
  destruct (Z.leb_spec n v) as [Hle|Hgt].
  - apply Qle_bool_iff. rewrite E. rewrite <- Zle_Qle. exact Hle.
  - destruct (Qle_bool mq (inject_Z v)) eqn:Hq; [|reflexivity].
    apply Qle_bool_iff in Hq. rewrite E in Hq. rewrite <- Zle_Qle in Hq. lia.
Qed.

(** A voice frame in silence: the run grows by one, and speech starts,
    with one [onSpeechStart], exactly when the run reaches
    [minSpeechFrames]. *)
Lemma advanceState_voice_in_silence prob frameRaw s :
  _inSpeech s = false ->
  let start :=
    JS.ge (JS.of_Z (_voiceRun s + 1)) (minSpeechFrames (knobs s)) in
  exists s',
    advanceState true prob frameRaw s
    = Some (s', if start then [onSpeechStart] else [])
    /\ _inSpeech s' = start
    /\ _voiceRun s' = (_voiceRun s + 1)%Z
    /\ knobs s' = knobs s
    /\ _pSmoothed s' = _pSmoothed s.
Proof.
  intros Hin start.
  destruct (advanceState true prob frameRaw s) as [[s' calls]|] eqn:H;
    unfold advanceState, andThen, after, ret in H;
    split_result H; cbn in *;
    repeat match goal with
      | E : context [_inSpeech s] |- _ => rewrite Hin in E; cbn in E
      end;
    try discriminate;
    match goal with
    | E : JS.ge _ _ = _ |- _ => fold start in E; rewrite E
    end;
    eexists; repeat split; cbn; auto.
Qed.

(** The frame on which speech starts enters the segment twice when the
    ring is in use: once as the newest frame of the ring that seeds the
    segment, once more as the frame accumulated while in speech. *)
Lemma speech_start_repeats_frame prob frameRaw s s' calls :
  _inSpeech s = false ->
  JS.gt (_ringMax s) (Num 0) = true ->
  JS.ge (JS.of_Z (_voiceRun s + 1)) (minSpeechFrames (knobs s)) = true ->
  advanceState true prob frameRaw s = Some (s', calls) ->
  calls = [onSpeechStart]
  /\ exists older,
       _ring s' = older ++ [frameRaw]
       /\ _currentSegment s'
          = _currentSegment s ++ older ++ [frameRaw; frameRaw].
Proof.
  intros Hin Hring Hstart H.
  unfold advanceState, andThen, after, ret in H.
  split_result H; cbn in *;
    repeat match goal with
      | E : context [_inSpeech s] |- _ => rewrite Hin in E; cbn in E
      end;
    try congruence;
    (split; [reflexivity|]); eexists; (split; [reflexivity|]);
    rewrite <- !app_assoc; reflexivity.
Qed.

Lemma smoothing_off (alpha pS t : number) :
  JS.strict_eq alpha (Num 0) = true ->
  JS.is_number pS -> JS.is_number t ->
  let p := JS.add (JS.mul alpha pS) (JS.mul (JS.sub (Num 1) alpha) t) in
  JS.is_number p /\ JS.ge p t = true.
Proof.
  destruct alpha as [|a]; [discriminate|].
  destruct pS as [|x]; [contradiction|].
  destruct t as [|tq]; [contradiction|].
  unfold JS.strict_eq. intros Ha _ _. apply Qeq_bool_iff in Ha.
  cbn. split; [exact I|].
  unfold JS.ge, JS.le. apply Qle_bool_iff. rewrite Ha. lra.
Qed.

Section Run.
Variable s0 : RealtimeTenVad.
Variable n : nat.
Hypothesis smoothing_is_off :
  JS.strict_eq (probSmoothing (knobs s0)) (Num 0) = true.
Hypothesis min_frames :
  JS.strict_eq (minSpeechFrames (knobs s0)) (JS.of_nat n) = true.
Hypothesis threshold_is_number :
  JS.is_number (positiveSpeechThreshold (knobs s0)).
Hypothesis at_threshold :
  forall h frame16,
    snd (ten_vad_process h frame16)
    = Build_vad_result 0 (positiveSpeechThreshold (knobs s0)) 1.

Lemma processFrame_at_threshold frameRaw s k :
  waiting s0 k s ->
  gate_open (energyGateDb (knobs s0)) frameRaw = true ->
  exists s',
    processFrame frameRaw s
    = Some (s', if (Z.of_nat n <=? k + 1)%Z then [onSpeechStart] else [])
    /\ _inSpeech s' = (Z.of_nat n <=? k + 1)%Z
    /\ ((Z.of_nat n <=? k + 1)%Z = false -> waiting s0 (k + 1) s').
Proof.
  intros (Hk & Hin & Hrun & Hnum) Hgate. unfold processFrame.
  destruct (to_int16_frame _ _ _ _) as [prev buf].
  destruct (ten_vad_process _ _) as [h r] eqn:Hcall.
  pose proof (at_threshold
                (_handle (set_lastSampleForPreEmph prev
                            (set_int16Frame buf s)))
                (_int16Frame (set_lastSampleForPreEmph prev
                                (set_int16Frame buf s)))) as Hr.
  rewrite Hcall in Hr. cbn in Hr. subst r.
  unfold classified. cbn -[advanceState]. rewrite Hk, Hin, Hgate.
  destruct (smoothing_off _ _ _ smoothing_is_off Hnum threshold_is_number)
    as [Hp Hge].
  cbn zeta in Hp, Hge. rewrite Hge. cbn -[advanceState].
  match goal with
  | |- context [advanceState true ?p frameRaw ?st] =>
      destruct (advanceState_voice_in_silence p frameRaw st Hin)
        as (s' & E & Hin' & Hrun' & Hk' & Hp')
  end.
  cbn in E, Hin', Hrun', Hk', Hp'.
  rewrite Hk, Hrun, (ge_count _ _ _ min_frames) in E, Hin'.
  exists s'. split; [exact E|]. split; [exact Hin'|].
  intros Hlt. repeat split; try congruence; try (rewrite Hp'; exact Hp).
Qed.

Lemma feed_at_threshold frames :
  forall s k,
    waiting s0 k s -> (0 <= k)%Z ->
    (k + Z.of_nat (length frames) = Z.of_nat n)%Z ->
    frames <> [] ->
    Forall (fun f => gate_open (energyGateDb (knobs s0)) f = true) frames ->
    exists s',
      feed frames s = Some (s', [onSpeechStart]) /\ _inSpeech s' = true.
Proof.
  induction frames as [|f frames IH]; intros s k Hw Hk Hlen Hne Hgate;
    [congruence|].
  inv Hgate. cbn [length] in Hlen.
  destruct (processFrame_at_threshold f s k Hw) as (s1 & E1 & Hin1 & Hw1);
    [assumption|].
  cbn [feed]. rewrite E1. cbn.
  destruct frames as [|f' frames'].
  - cbn in Hlen.
    replace (Z.of_nat n <=? k + 1)%Z with true in *
      by (symmetry; apply Z.leb_le; lia).
    exists s1. auto.
  - cbn [length] in Hlen.
    replace (Z.of_nat n <=? k + 1)%Z with false in *
      by (symmetry; apply Z.leb_gt; lia).
    destruct (IH s1 (k + 1)%Z) as (s2 & E2 & Hin2);
      [auto|lia|cbn [length]; lia|discriminate|assumption|].
    rewrite E2. cbn. exists s2. auto.
Qed.

End Run.

(** C4, as the code has it. With [probSmoothing] 0 (the smoothed
    probability is then the raw one), [minSpeechFrames] a positive whole
    number [n] and a threshold that is a number: from the
    instance the constructor returns, [n] frames on each of which the
    gate is open and the classifier returns flag 1 and a probability
    equal to [positiveSpeechThreshold] call [onSpeechStart] exactly once
    and nothing else. *)
Theorem onSpeechStart_once_without_smoothing
    (o : opts.t) (h : vad) (n : nat) (floatChunk : Float32Array) :
  let s0 := construct o h in
  JS.strict_eq (probSmoothing (knobs s0)) (Num 0) = true ->
  (1 <= n)%nat ->
  JS.strict_eq (minSpeechFrames (knobs s0)) (JS.of_nat n) = true ->
  JS.is_number (positiveSpeechThreshold (knobs s0)) ->
  (forall h' frame16,
      snd (ten_vad_process h' frame16)
      = Build_vad_result 0 (positiveSpeechThreshold (knobs s0)) 1) ->
  length floatChunk = (n * HOP_SIZE)%nat ->
  Forall (fun f => gate_open (energyGateDb (knobs s0)) f = true)
    (frames_of floatChunk) ->
  exists s',
    processAudio floatChunk s0 = Some (s', [onSpeechStart])
    /\ _inSpeech s' = true.
Proof.
  intros s0 Halpha Hn Hmin Hnum Hcls Hlen Hgate.
  destruct (construct_initial o h) as (Hin & Hrun & Hp & Hbuf).
  fold s0 in Hin, Hrun, Hp, Hbuf.
  rewrite processAudio_feed. cbn zeta. rewrite Hbuf. cbn [app].
  assert (Hcount : length (frames_of floatChunk) = n).
  { unfold frames_of. rewrite length_map, length_seq, Hlen.
    apply Nat.div_mul. pose proof HOP_SIZE_pos. lia. }
  destruct (feed_at_threshold s0 n Halpha Hmin Hnum Hcls
              (frames_of floatChunk) s0 0%Z) as (s1 & E1 & Hin1).
  - repeat split; auto. rewrite Hp. exact I.
  - lia.
  - rewrite Hcount. lia.
  - intros E. rewrite E in Hcount. cbn in Hcount. lia.
  - exact Hgate.
  - rewrite E1. cbn. eexists. split; [reflexivity|exact Hin1].
Qed.

End SpeechStart.

(** *** The emitted audio *)

Section Tracking.
Context {V : TenVad}.

Lemma stretch_later history more frames :
  stretch history frames -> stretch (history ++ more) frames.
Proof.
  intros (before & t & body & rest & older & pre & k & -> & E & ->).
  exists before, t, body, (rest ++ more), older, pre, k.
  repeat split; auto. rewrite <- !app_assoc. cbn. rewrite <- app_assoc.
  reflexivity.
Qed.

Lemma stretches_later history more calls :
  stretches history calls -> stretches (history ++ more) calls.
Proof.
  intros H seg Hin. destruct (H seg Hin) as (frames & E & Hs).
  exists frames. split; [exact E|]. apply stretch_later. exact Hs.
Qed.

Lemma stretches_nil history : stretches history [].
Proof. intros seg []. Qed.

Lemma stretches_app history c1 c2 :
  stretches history c1 -> stretches history c2 ->
  stretches history (c1 ++ c2).
Proof.
  intros H1 H2 seg Hin. apply in_app_or in Hin. destruct Hin; auto.
Qed.

(** What a step of [_advanceState] does to the ring, to the open segment
    and to the callbacks. *)
Lemma advanceState_effect isVoice prob frameRaw s s' calls :
  advanceState isVoice prob frameRaw s = Some (s', calls) ->
  let ring' :=
    if JS.gt (_ringMax s) (Num 0)
    then (if JS.ge (JS.of_nat (length (_ring s))) (_ringMax s)
          then tl (_ring s) else _ring s) ++ [frameRaw]
    else _ring s in
  _ring s' = ring' /\ _ringMax s' = _ringMax s
  /\ ((_inSpeech s = false /\ _inSpeech s' = true
       /\ _currentSegment s'
          = _currentSegment s
            ++ (if JS.gt (_ringMax s) (Num 0) then ring' else [])
            ++ [frameRaw]
       /\ calls = [onSpeechStart])
      \/ (_inSpeech s = false /\ _inSpeech s' = false
          /\ _currentSegment s' = _currentSegment s /\ calls = [])
      \/ (_inSpeech s = true /\ _inSpeech s' = true
          /\ _currentSegment s' = _currentSegment s ++ [frameRaw]
          /\ calls = [])
      \/ (_inSpeech s = true /\ _inSpeech s' = false
          /\ _currentSegment s' = []
          /\ exists seg,
               concatFrames (_currentSegment s ++ [frameRaw]) = Some seg
               /\ (calls = [onVADMisfire] \/ calls = [onSpeechEnd seg]))).
Proof.
  intros H. unfold advanceState, andThen, after, ret in H.
  split_result H; cbn; try discriminate;
    repeat match goal with
      | E : negb _ && _ = true |- _ =>
          apply andb_prop in E; destruct E as [E _];
          apply negb_true_iff in E
      end;
    (split; [reflexivity|]); (split; [reflexivity|]);
    rewrite <- ?app_assoc;
    first
      [ left; repeat split; (assumption || reflexivity)
      | right; left; repeat split; (assumption || reflexivity)
      | right; right; left; repeat split; (assumption || reflexivity)
      | right; right; right;
        (split; [assumption || reflexivity|]);
        (split; [reflexivity|]); (split; [reflexivity|]);
        eexists; (split; [reflexivity|]); auto ].
Qed.

(** What a turn of [_finalizeWithFrame] does. *)
Lemma finalizeWithFrame_effect frame s s' calls :
  finalizeWithFrame frame true s = Some (s', calls) ->
  _ring s' = _ring s /\ _ringMax s' = _ringMax s
  /\ ((_inSpeech s' = _inSpeech s
       /\ _currentSegment s' = _currentSegment s ++ [frame]
       /\ calls = [])
      \/ (_inSpeech s' = false /\ _currentSegment s' = []
          /\ exists seg,
               concatFrames (_currentSegment s ++ [frame]) = Some seg
               /\ (calls = [onVADMisfire] \/ calls = [onSpeechEnd seg]))).
Proof.
  intros H. unfold finalizeWithFrame in H.
  split_result H; cbn;
    (split; [reflexivity|]); (split; [reflexivity|]);
    first
      [ left; repeat split; reflexivity
      | right; (split; [reflexivity|]); (split; [reflexivity|]);
        eexists; (split; [reflexivity|]); auto ].
Qed.

Lemma ring_tracks history s frameRaw :
  (JS.gt (_ringMax s) (Num 0) = false -> _ring s = []) ->
  (exists older, history = older ++ _ring s) ->
  let ring' :=
    if JS.gt (_ringMax s) (Num 0)
    then (if JS.ge (JS.of_nat (length (_ring s))) (_ringMax s)
          then tl (_ring s) else _ring s) ++ [frameRaw]
    else _ring s in
  (JS.gt (_ringMax s) (Num 0) = false -> ring' = [])
  /\ (exists older, history ++ [frameRaw] = older ++ ring')
  /\ (JS.gt (_ringMax s) (Num 0) = true ->
      exists older, ring' = older ++ [frameRaw]).
Proof.
  intros Hoff (older & ->) ring'. subst ring'.
  destruct (JS.gt (_ringMax s) (Num 0)).
  - split; [discriminate|]. split.
    + destruct (JS.ge _ _).
      * destruct (_ring s) as [|x r]; cbn [tl].
        -- exists older. rewrite app_nil_r. reflexivity.
        -- exists (older ++ [x]). rewrite <- !app_assoc. reflexivity.
      * exists older. rewrite <- app_assoc. reflexivity.
    + intros _. eexists. reflexivity.
  - rewrite (Hoff eq_refl). split; [reflexivity|]. split.
    + exists ((older ++ []) ++ [frameRaw]). symmetry. apply app_nil_r.
    + discriminate.
Qed.

(** A step of [_advanceState] on frame [frameRaw] keeps the ring and the
    open segment on the stream, now one frame longer, and hands to
    [onSpeechEnd] only stretches of it. *)
Lemma advanceState_tracks history isVoice prob frameRaw s s' calls :
  tracks history 0 s ->
  advanceState isVoice prob frameRaw s = Some (s', calls) ->
  tracks (history ++ [frameRaw]) 0 s'
  /\ stretches (history ++ [frameRaw]) calls.
Proof.
  intros (Hoff & Hring & Hseg) H.
  apply advanceState_effect in H. cbv zeta in H.
  destruct H as (Er & Em & Hcase).
  destruct (ring_tracks history s frameRaw Hoff Hring)
    as (Hoff' & Hring' & Hnew).
  cbv zeta in Hoff', Hring', Hnew.
  assert (Hr : (JS.gt (_ringMax s') (Num 0) = false -> _ring s' = [])
               /\ (exists older, history ++ [frameRaw] = older ++ _ring s')).
  { rewrite Er, Em. auto. }
  destruct Hr as [Hr1 Hr2]. unfold tracks.
  destruct Hcase as [(Hin & Hin' & Es & ->)|[(Hin & Hin' & Es & ->)
                    |[(Hin & Hin' & Es & ->)|(Hin & Hin' & Es & Hfin)]]];
    rewrite Hin in Hseg; rewrite Hin'.
  - (* speech starts *)
    split; [|intros seg [E|[]]; discriminate E].
    split; [exact Hr1|]. split; [exact Hr2|].
    rewrite Es, Hseg.
    destruct (JS.gt (_ringMax s) (Num 0)) eqn:Hmax.
    + destruct Hring' as (older & Eo).
      exists history, frameRaw, [], older.
      eexists. split; [reflexivity|]. split; [exact Eo|]. list_eq.
    + exists history, frameRaw, [], (history ++ [frameRaw]), [].
      split; [reflexivity|]. split; list_eq.
  - (* still silent *)
    split; [|apply stretches_nil]. split; [exact Hr1|]. split; [exact Hr2|].
    rewrite Es. exact Hseg.
  - (* still in speech *)
    split; [|apply stretches_nil]. split; [exact Hr1|]. split; [exact Hr2|].
    destruct Hseg as (before & t & body & older & pre & -> & Eo & Ec).
    exists before, t, (body ++ [frameRaw]), older, pre.
    split; [list_eq|]. split; [exact Eo|].
    rewrite Es, Ec. list_eq.
  - (* the segment is closed *)
    split; [split; [exact Hr1|]; split; [exact Hr2|exact Es]|].
    destruct Hfin as (seg & Ecat & [->| ->]);
      intros seg' [E|[]]; [discriminate E|inv E].
    destruct Hseg as (before & t & body & older & pre & -> & Eo & Ec).
    eexists. split; [exact Ecat|].
    exists before, t, (body ++ [frameRaw]), [], older, pre, 0%nat.
    split; [list_eq|]. split; [exact Eo|].
    rewrite Ec. list_eq.
Qed.

Lemma tracks_handle_fields history k s s2 :
  _ring s2 = _ring s -> _ringMax s2 = _ringMax s ->
  _inSpeech s2 = _inSpeech s -> _currentSegment s2 = _currentSegment s ->
  tracks history k s -> tracks history k s2.
Proof.
  unfold tracks. intros -> -> -> ->. auto.
Qed.

End Tracking.

Section TrackingCalls.
Context {V : TenVad} {M : MathLib}.

Lemma processFrame_tracks history frameRaw s s' calls :
  tracks history 0 s ->
  processFrame frameRaw s = Some (s', calls) ->
  tracks (history ++ [frameRaw]) 0 s'
  /\ stretches (history ++ [frameRaw]) calls.
Proof.
  intros Ht H. unfold processFrame, classified in H.
  destruct (to_int16_frame _ _ _ _) as [prev buf].
  destruct (ten_vad_process _ _) as [h r].
  destruct (negb (rc r =? 0)%Z);
    (eapply advanceState_tracks; [|exact H]);
    (eapply tracks_handle_fields; [| | | |exact Ht]); reflexivity.
Qed.

Lemma feed_tracks frames :
  forall history s s' calls,
    tracks history 0 s ->
    feed frames s = Some (s', calls) ->
    tracks (history ++ frames) 0 s' /\ stretches (history ++ frames) calls.
Proof.
  induction frames as [|f frames IH]; intros history s s' calls Ht H.
  - inv H. rewrite app_nil_r. split; [exact Ht|apply stretches_nil].
  - cbn [feed] in H. apply andThen_Some in H.
    destruct H as (s1 & c1 & c2 & H1 & H2 & ->).
    destruct (processFrame_tracks history f s s1 c1 Ht H1) as [Ht1 Hs1].
    destruct (IH (history ++ [f]) s1 s' c2 Ht1 H2) as [Ht2 Hs2].
    rewrite <- app_assoc in Ht2, Hs2. cbn [app] in Ht2, Hs2.
    split; [exact Ht2|]. apply stretches_app; [|exact Hs2].
    replace (history ++ f :: frames) with ((history ++ [f]) ++ frames)
      by list_eq.
    apply stretches_later. exact Hs1.
Qed.

Lemma processAudio_tracks history floatChunk s s' calls :
  tracks history 0 s ->
  processAudio floatChunk s = Some (s', calls) ->
  tracks (history ++ frames_of (_floatBuf s ++ floatChunk)) 0 s'
  /\ stretches (history ++ frames_of (_floatBuf s ++ floatChunk)) calls
  /\ _floatBuf s' = remainder (_floatBuf s ++ floatChunk).
Proof.
  intros Ht H. rewrite processAudio_feed in H. cbn zeta in H.
  apply andThen_Some in H. destruct H as (s1 & c1 & c2 & H1 & H2 & ->).
  inv H2. rewrite app_nil_r.
  destruct (feed_tracks _ _ _ _ _ Ht H1) as [Ht1 Hs1].
  split; [exact Ht1|]. split; [exact Hs1|reflexivity].
Qed.

(** The loop of [flush], entered in speech: it either does nothing or
    closes the segment, handing to [onSpeechEnd] a stretch with a tail of
    zeros. *)
Lemma flush_loop_tracks (s : RealtimeTenVad) :
  forall history k s' calls,
    tracks history k s -> _inSpeech s = true ->
    flush_loop s = Some (s', calls) ->
    stretches history calls
    /\ ((JS.gt (_postPadCountdown s) (Num 0) = false /\ s' = s
         /\ calls = [])
        \/ (_inSpeech s' = false /\ _currentSegment s' = []
            /\ _ring s' = _ring s /\ _ringMax s' = _ringMax s)).
Proof.
  funelim (flush_loop s); intros history k s2 calls2 Ht Hin E.
  - inv E. split; [apply stretches_nil|left; auto].
  - destruct (flush_loop s') as [[s3 c3]|] eqn:E3; [|discriminate].
    inv E.
    destruct (finalizeWithFrame_effect _ _ _ _ Hfin)
      as (Er & Em & [(Hin' & Es & ->)|(Hin' & Es & seg & Ecat & Hc)]).
    + (* one more frame of zeros *)
      rewrite Hin in Hin'.
      destruct (H history (S k) s2 c3) as [Hs Hend]; auto.
      { destruct Ht as (Hoff & Hring & Hseg). unfold tracks.
        rewrite Er, Em, Hin'. split; [exact Hoff|]. split; [exact Hring|].
        rewrite Hin in Hseg.
        destruct Hseg as (before & t & body & older & pre & -> & Eo & Ec).
        exists before, t, body, older, pre.
        split; [reflexivity|]. split; [exact Eo|].
        rewrite Es, Ec.
        replace (S k) with (k + 1)%nat by lia. rewrite repeat_app.
        list_eq. }
      split; [exact Hs|]. right.
      destruct Hend as [(Hstop & _)|(Ha & Hb & Hc & Hd)].
      * exfalso.
        destruct (finalizeWithFrame_turn _ _ _ _ Hgt Hfin)
          as [(c & Hcs & _)|(_ & Hgt' & _)]; [discriminate Hcs|].
        congruence.
      * repeat split; congruence.
    + (* the segment is closed *)
      assert (Hstop : flush_loop s' = Some (s', [])).
      { rewrite flush_loop_step.
        destruct (finalizeWithFrame_turn _ _ _ _ Hgt Hfin)
          as [(c & _ & _ & _ & Hcd)|(Hcs & _)].
        - rewrite Hcd. reflexivity.
        - destruct Hc as [->| ->]; discriminate Hcs. }
      rewrite Hstop in E3. inv E3. rewrite app_nil_r. split.
      * destruct Ht as (_ & _ & Hseg). rewrite Hin in Hseg.
        destruct Hseg as (before & t & body & older & pre & -> & Eo & Ec).
        destruct Hc as [->| ->]; intros seg' [E|[]];
          [discriminate E|inv E].
        eexists. split; [exact Ecat|].
        exists before, t, body, [], older, pre, (k + 1)%nat.
        split; [list_eq|]. split; [exact Eo|].
        rewrite Ec, repeat_app. list_eq.
      * right. auto.
  - discriminate.
Qed.

Lemma flush_tracks history s s' calls :
  tracks history 0 s ->
  flush s = Some (s', calls) ->
  tracks (history ++ flush_frames (_floatBuf s)) 0 s'
  /\ stretches (history ++ flush_frames (_floatBuf s)) calls
  /\ _floatBuf s' = [].
Proof.
  intros Ht H. destruct (flush_rest _ _ _ H) as [Hbuf _].
  unfold flush in H. apply andThen_Some in H.
  destruct H as (sa & ca & cb & Ha & Hb & ->).
  set (history' := history ++ flush_frames (_floatBuf s)).
  assert (Hpart : tracks history' 0 sa /\ stretches history' ca).
  { subst history'. destruct (_floatBuf s) as [|x buf] eqn:Hb0.
    - cbn in Ha. inv Ha. cbn [flush_frames]. rewrite app_nil_r.
      split; [exact Ht|apply stretches_nil].
    - cbn [length Nat.ltb Nat.leb] in Ha. cbn [flush_frames].
      destruct (typed_set _ _ _) as [pad|]; [|discriminate].
      apply andThen_Some in Ha.
      destruct Ha as (s0 & c0 & c0' & Hp & Hset & ->). inv Hset.
      rewrite app_nil_r.
      destruct (processAudio_tracks history pad s s0 c0 Ht Hp)
        as (Ht0 & Hs0 & _).
      rewrite Hb0 in Ht0, Hs0. split; [exact Ht0|exact Hs0]. }
  destruct Hpart as [Hta Hsa]. destruct (_inSpeech sa) eqn:Hina.
  - destruct (flush_loop_tracks
                (set_postPadCountdown (_postPadFrames sa) sa)
                history' 0 s' cb Hta Hina Hb)
      as [Hsb [(_ & -> & ->)|(Hout & Eseg & Er & Em)]].
    + split; [exact Hta|]. split; [|exact Hbuf].
      rewrite app_nil_r. exact Hsa.
    + split; [|split; [apply stretches_app; assumption|exact Hbuf]].
      destruct Hta as (Hoff & Hring & _). unfold tracks.
      rewrite Er, Em, Hout. auto.
  - inv Hb. rewrite app_nil_r. auto.
Qed.

Lemma run_tracks (calls : list api_call) :
  forall history s s' cbs,
    tracks history 0 s ->
    run calls s = Some (s', cbs) ->
    stretches (history ++ raw_frames (_floatBuf s) calls) cbs.
Proof.
  induction calls as [|c calls IH]; intros history s s' cbs Ht H.
  - inv H. apply stretches_nil.
  - cbn [run] in H. apply andThen_Some in H.
    destruct H as (s1 & c1 & c2 & H1 & H2 & ->).
    destruct c as [chunk|]; cbn [call raw_frames] in *; rewrite app_assoc.
    + destruct (processAudio_tracks history chunk s s1 c1 Ht H1)
        as (Ht1 & Hs1 & Hb1).
      apply stretches_app; [apply stretches_later; exact Hs1|].
      rewrite <- Hb1. eapply IH; eauto.
    + destruct (flush_tracks history s s1 c1 Ht H1) as (Ht1 & Hs1 & Hb1).
      apply stretches_app; [apply stretches_later; exact Hs1|].
      rewrite <- Hb1. eapply IH; eauto.
Qed.

Lemma flush_frames_full (buf : Float32Array) :
  Forall full_frame (flush_frames buf).
Proof.
  destruct buf as [|x buf]; cbn [flush_frames]; [constructor|].
  destruct (typed_set _ _ _); [apply frames_of_full|constructor].
Qed.

Lemma raw_frames_full (calls : list api_call) :
  forall buf, Forall full_frame (raw_frames buf calls).
Proof.
  induction calls as [|[chunk|] calls IH]; intros buf; cbn [raw_frames].
  - constructor.
  - apply Forall_app. split; [apply frames_of_full|apply IH].
  - apply Forall_app. split; [apply flush_frames_full|apply IH].
Qed.

Lemma construct_tracks (o : opts.t) (h : vad) : tracks [] 0 (construct o h).
Proof.
  unfold construct. destruct (JS.gt _ _);
    (split; [reflexivity|]); (split; [exists []; reflexivity|reflexivity]).
Qed.

Lemma stretch_full history frames :
  Forall full_frame history -> stretch history frames ->
  Forall full_frame frames.
Proof.
  intros Hh (before & t & body & rest & older & pre & k & -> & Eo & ->).
  apply Forall_app in Hh. destruct Hh as [Hb Hh].
  inversion Hh as [|? ? Ht Hh']; subst.
  apply Forall_app in Hh'. destruct Hh' as [Hbody _].
  assert (Hpre : Forall full_frame pre).
  { assert (Hbt : Forall full_frame (before ++ [t]))
      by (apply Forall_app; auto).
    rewrite Eo in Hbt. apply Forall_app in Hbt. apply Hbt. }
  apply Forall_app. split; [exact Hpre|]. constructor; [exact Ht|].
  apply Forall_app. split; [exact Hbody|].
  apply Forall_forall. intros f Hf. apply repeat_spec in Hf. subst f.
  apply full_frame_silent.
Qed.

(** What does hold of the emitted audio.  Whatever the options,
    [preEmphasis] among them, every segment handed to [onSpeechEnd] in a
    stream of calls is the concatenation of a stretch of the frames
    handed to [_processFrame] (what [raw_frames] computes from the
    samples alone), each frame as it was handed over and in the order of
    the stream: frames of the ring first, then the run of frames
    accumulated since speech started, then frames of zeros that [flush]
    appends.  The filtered 16-bit copy made for the classifier is never
    part of it.  The frames handed to [_processFrame] are the input
    samples in order except for the frame that [flush] makes of a
    remainder, which holds the remainder twice (see
    [flush_repeats_remainder_in_emitted_audio] below). *)
Theorem emitted_audio_is_raw (o : opts.t) (h : vad)
    (calls : list api_call) :
  exists s cbs,
    run calls (construct o h) = Some (s, cbs)
    /\ forall seg, In (onSpeechEnd seg) cbs ->
         exists frames,
           seg = concat frames
           /\ stretch (raw_frames [] calls) frames.
Proof.
  destruct (run_ready calls (construct o h) (construct_ready o h))
    as (s & cbs & E & _ & _ & _).
  exists s, cbs. split; [exact E|]. intros seg Hin.
  pose proof (run_tracks calls [] _ _ _ (construct_tracks o h) E) as Hs.
  destruct (construct_initial o h) as (_ & _ & _ & Hbuf).
  rewrite Hbuf in Hs. cbn [app] in Hs.
  destruct (Hs seg Hin) as (frames & Ecat & Hstretch).
  exists frames. split; [|exact Hstretch].
  rewrite concatFrames_full in Ecat; [congruence|].
  eapply stretch_full; [|exact Hstretch]. apply raw_frames_full.
Qed.

End TrackingCalls.

(** *** Concrete runs *)

(** C1, on the code. In the reference scenario (3 voice frames, 20 more,
    then silence) the instance calls [onSpeechStart] once and then
    [onSpeechEnd] once, but the segment holds 34 frames: the 3 frames of
    the ring, the third of them (the frame on which speech starts) a
    second time, the 20 voice frames and 10 silent ones.  With 3 pre-pad
    frames available the specification expects (3 + 20 + 10) * 256
    samples. *)
Theorem reference_scenario_repeats_start_frame :
  _prePadFrames reference_instance = Num 5
  /\ _postPadFrames reference_instance = Num 10
  /\ calls_of
       (processAudio (V := scripted) (M := no_gate_math)
          (concat (tones 1 33)) reference_instance)
     = [onSpeechStart;
        onSpeechEnd (concat (tones 1 3 ++ tone 3 :: tones 4 30))]
  /\ length (concat (tones 1 3 ++ tone 3 :: tones 4 30))
     = ((3 + 1 + 20 + 10) * 256)%nat.
Proof. vm_compute. repeat split. Qed.

(** C2, on the code. With [postSpeechPadMs] 0 an instance in speech,
    its segment open and holding 4 frames, is left as it is by [flush]:
    no callback is called and the segment stays open. *)
Theorem flush_without_post_pad_keeps_segment_open :
  _postPadFrames (open_segment no_post_pad) = Num 0
  /\ _inSpeech (open_segment no_post_pad) = true
  /\ length (_currentSegment (open_segment no_post_pad)) = 4%nat
  /\ flush (V := scripted) (M := no_gate_math) (open_segment no_post_pad)
     = Some (open_segment no_post_pad, []).
Proof. vm_compute. repeat split. Qed.

(** C9, on the code. With pre-emphasis 0.97 and no pre-pad (the ring is
    not used), four voice frames followed by the two samples 1/2, 1/4
    and then [flush]: the instance calls [onSpeechStart] on the third
    frame and [flush] hands to [onSpeechEnd] the third and the fourth
    frame as they were received (not filtered), then 1/2, 1/4, 1/2, 1/4
    and 252 zeros, then the 10 frames of zeros of the post-pad.  The two
    samples of the remainder, once in the input, are twice in the
    emitted audio: the specification expects them once, followed by
    zeros. *)
Theorem flush_repeats_remainder_in_emitted_audio :
  _ringMax (construct (V := scripted) filtered_no_pre_pad
              (repeat voice_result 4)) = Num 0
  /\ calls_of
       (run (V := scripted) (M := no_gate_math)
          [ProcessAudio (concat (tones 1 4) ++ [Num (1 # 2); Num (1 # 4)]);
           Flush]
          (construct (V := scripted) filtered_no_pre_pad
             (repeat voice_result 4)))
     = [onSpeechStart;
        onSpeechEnd
          (tone 3 ++ tone 4
             ++ [Num (1 # 2); Num (1 # 4); Num (1 # 2); Num (1 # 4)]
             ++ new_Float32Array 252
             ++ new_Float32Array (10 * 256))].
Proof. vm_compute. split; reflexivity. Qed.

(** C3 fails as stated: after one voice frame (smoothed probability
    0.8), a frame on which the classifier fails leaves the smoothed
    probability at 0.8, while a frame classified with probability 0 and
    flag 0 brings it down to 0.16. *)
Lemma classifier_error_keeps_smoothed_probability :
  let s := left_by
             (processAudio (V := scripted) (M := no_gate_math) (tone 1)
                (construct (V := scripted) opts.empty [voice_result]))
             (construct (V := scripted) opts.empty []) in
  let after_error :=
    classified (V := scripted) (M := no_gate_math) error_result (tone 2) s in
  let after_silence :=
    classified (V := scripted) (M := no_gate_math) silence_result (tone 2) s
  in
  JS.strict_eq (smoothed_of after_error) (Num (8 # 10)) = true
  /\ JS.strict_eq (smoothed_of after_silence) (Num (16 # 100)) = true
  /\ after_error <> after_silence.
Proof.
  cbv zeta. split; [vm_compute; reflexivity|].
  split; [vm_compute; reflexivity|].
  intros E. apply (f_equal smoothed_of) in E. vm_compute in E.
  discriminate E.
Qed.

(** C4 fails as stated: with the default options (smoothing 0.2,
    threshold 0.6, 3 frames) three frames with flag 1 and raw
    probability 0.6 call nothing; the smoothed probability, which starts
    at 0, has only reached 0.5952. *)
Lemma smoothing_delays_speech_start :
  let r :=
    processAudio (V := constant at_threshold_result) (M := no_gate_math)
      (concat (tones 1 3))
      (construct (V := constant at_threshold_result) opts.empty tt) in
  option_map snd r = Some []
  /\ _inSpeech (left_by r (construct (V := constant at_threshold_result)
                             opts.empty tt)) = false
  /\ JS.strict_eq (smoothed_of r) (Num (5952 # 10000)) = true.
Proof. vm_compute. repeat split. Qed.

Lemma onSpeechStart_once_without_smoothing_witness :
  exists s',
    processAudio (V := constant at_threshold_result) (M := no_gate_math)
      (concat (tones 1 3))
      (construct (V := constant at_threshold_result) no_smoothing tt)
    = Some (s', [onSpeechStart])
    /\ _inSpeech s' = true.
Proof.
  apply (onSpeechStart_once_without_smoothing
           (V := constant at_threshold_result) (M := no_gate_math)
           no_smoothing tt 3 (concat (tones 1 3))).
  - vm_compute. reflexivity.
  - lia.
  - vm_compute. reflexivity.
  - vm_compute. exact I.
  - intros h' frame16. reflexivity.
  - vm_compute. reflexivity.
  - vm_compute. repeat constructor.
Defined.

Lemma classifier_error_is_non_voice_frame_witness :
  let s := open_segment opts.empty in
  classified (V := scripted) (M := no_gate_math) error_result (tone 4) s
  = on_instance (set_pSmoothed (_pSmoothed s))
      (classified (V := scripted) (M := no_gate_math)
         (Build_vad_result 0 (Num 0) 0) (tone 4) s)
  /\ (forall s' calls,
        classified (V := scripted) (M := no_gate_math) error_result
          (tone 4) s = Some (s', calls) ->
        _frameIndex s' = (_frameIndex s + 1)%Z
        /\ _pSmoothed s' = _pSmoothed s).
Proof.
  apply (classifier_error_is_non_voice_frame (V := scripted)
           (M := no_gate_math) error_result (tone 4)
           (open_segment opts.empty)).
  cbn. lia.
Defined.

Lemma finalization_calls_exactly_one_witness :
  let s := open_segment quick_close in
  let r :=
    advanceState (V := scripted) false (Num 0) (tone 4) s in
  let seg := concat (_currentSegment s ++ [tone 4]) in
  let durMs :=
    JS.Math_round
      (JS.mul (JS.div (JS.of_nat (length seg)) (Num 16000)) (Num 1000)) in
  _currentSegment (left_by r s) = []
  /\ ((JS.lt durMs (minSpeechMs (knobs s)) = true
       /\ calls_of r = [onVADMisfire])
      \/ (JS.lt durMs (minSpeechMs (knobs s)) = false
          /\ calls_of r = [onSpeechEnd seg])).
Proof.
  apply (finalization_calls_exactly_one (V := scripted) false true (Num 0)
           (tone 4) (open_segment quick_close)
           (left_by
              (advanceState (V := scripted) false (Num 0) (tone 4)
                 (open_segment quick_close))
              (open_segment quick_close))
           (calls_of
              (advanceState (V := scripted) false (Num 0) (tone 4)
                 (open_segment quick_close)))).
  - vm_compute. repeat constructor.
  - vm_compute. reflexivity.
  - left. vm_compute. reflexivity.
  - vm_compute. reflexivity.
  - vm_compute. reflexivity.
Defined.

Lemma thresholds_ordered_for_life_witness :
  exists s cbs,
    run (V := scripted) (M := no_gate_math)
      [ProcessAudio (concat (tones 1 4)); Flush]
      (construct (V := scripted) inverted_thresholds
         (repeat voice_result 4))
    = Some (s, cbs)
    /\ knobs s
       = knobs (construct (V := scripted) inverted_thresholds
         (repeat voice_result 4))
    /\ JS.le (negativeSpeechThreshold (knobs s))
             (positiveSpeechThreshold (knobs s)) = true.
Proof.
  apply (thresholds_ordered_for_life (V := scripted) (M := no_gate_math)
           inverted_thresholds (repeat voice_result 4)
           [ProcessAudio (concat (tones 1 4)); Flush]);
    exact I.
Defined.

(* ===================================================================== *)
(** ** Further properties of the code *)
(* ===================================================================== *)

(** *** Invariants of a stream of calls *)

Section Machine.
Context {V : TenVad} {M : MathLib}.

Lemma same_machine_refl (s : RealtimeTenVad) : same_machine s s.
Proof. repeat split. Qed.

Lemma processFrame_advance frameRaw s s' calls :
  processFrame frameRaw s = Some (s', calls) ->
  exists isVoice prob s1,
    same_machine s s1
    /\ advanceState isVoice prob frameRaw s1 = Some (s', calls).
Proof.
  intros H. unfold processFrame, classified in H.
  destruct (to_int16_frame _ _ _ _) as [prev buf].
  destruct (ten_vad_process _ _) as [h r].
  destruct (negb (rc r =? 0)%Z);
    (eexists; eexists; eexists; split; [|exact H]);
    repeat split.
Qed.

End Machine.

Section RunInvariant.
Context {V : TenVad} {M : MathLib}.
Variable I : list Float32Array -> list callback -> RealtimeTenVad -> Prop.
Hypothesis I_floatBuf :
  forall h c buf s, I h c s -> I h c (set_floatBuf buf s).
Hypothesis I_frame :
  forall h c f s s' c',
    full_frame f -> I h c s -> processFrame f s = Some (s', c') ->
    I (h ++ [f]) (c ++ c') s'.
Hypothesis I_close :
  forall h c s s' c',
    I h c s -> _inSpeech s = true ->
    flush_loop (set_postPadCountdown (_postPadFrames s) s) = Some (s', c') ->
    I h (c ++ c') s'.

Lemma feed_invariant frames :
  forall h c s s' c',
    Forall full_frame frames -> I h c s ->
    feed frames s = Some (s', c') ->
    I (h ++ frames) (c ++ c') s'.
Proof.
  induction frames as [|f frames IH]; intros h c s s' c' Hfull Hi H.
  - inv H. rewrite !app_nil_r. exact Hi.
  - cbn [feed] in H. apply andThen_Some in H.
    destruct H as (s1 & c1 & c2 & H1 & H2 & ->).
    inversion Hfull as [|? ? Hf Hfs]; subst.
    pose proof (I_frame _ _ _ _ _ _ Hf Hi H1) as Hi1.
    pose proof (IH _ _ _ _ _ Hfs Hi1 H2) as Hi2.
    rewrite <- !app_assoc in Hi2. exact Hi2.
Qed.

Lemma processAudio_invariant h c floatChunk s s' c' :
  I h c s ->
  processAudio floatChunk s = Some (s', c') ->
  I (h ++ frames_of (_floatBuf s ++ floatChunk)) (c ++ c') s'
  /\ _floatBuf s' = remainder (_floatBuf s ++ floatChunk).
Proof.
  intros Hi H. rewrite processAudio_feed in H. cbn zeta in H.
  apply andThen_Some in H. destruct H as (s1 & c1 & c2 & H1 & H2 & ->).
  inv H2. rewrite app_nil_r. split; [|reflexivity].
  apply I_floatBuf.
  eapply feed_invariant; [apply frames_of_full|exact Hi|exact H1].
Qed.

Lemma flush_invariant h c s s' c' :
  I h c s ->
  flush s = Some (s', c') ->
  I (h ++ flush_frames (_floatBuf s)) (c ++ c') s' /\ _floatBuf s' = [].
Proof.
  intros Hi H. destruct (flush_rest _ _ _ H) as [Hbuf _].
  split; [|exact Hbuf].
  unfold flush in H. apply andThen_Some in H.
  destruct H as (sa & ca & cb & Ha & Hb & ->).
  assert (Hpart : I (h ++ flush_frames (_floatBuf s)) (c ++ ca) sa).
  { destruct (_floatBuf s) as [|x buf] eqn:Hb0.
    - cbn in Ha. inv Ha. cbn [flush_frames]. rewrite !app_nil_r. exact Hi.
    - cbn [length Nat.ltb Nat.leb] in Ha. cbn [flush_frames].
      destruct (typed_set _ _ _) as [pad|]; [|discriminate].
      apply andThen_Some in Ha.
      destruct Ha as (s0 & c0 & c0' & Hp & Hset & ->). inv Hset.
      rewrite app_nil_r. apply I_floatBuf.
      destruct (processAudio_invariant h c pad s s0 c0 Hi Hp) as [Hi0 _].
      rewrite Hb0 in Hi0. exact Hi0. }
  destruct (_inSpeech sa) eqn:Hina.
  - rewrite app_assoc. eapply I_close; eauto.
  - inv Hb. rewrite app_nil_r. exact Hpart.
Qed.

Lemma run_invariant (calls : list api_call) :
  forall h c s s' cbs,
    I h c s ->
    run calls s = Some (s', cbs) ->
    I (h ++ raw_frames (_floatBuf s) calls) (c ++ cbs) s'.
Proof.
  induction calls as [|a calls IH]; intros h c s s' cbs Hi H.
  - inv H. rewrite !app_nil_r. exact Hi.
  - cbn [run] in H. apply andThen_Some in H.
    destruct H as (s1 & c1 & c2 & H1 & H2 & ->).
    destruct a as [chunk|]; cbn [call raw_frames] in *; rewrite !app_assoc.
    + destruct (processAudio_invariant h c chunk s s1 c1 Hi H1) as [Hi1 Hb1].
      rewrite <- Hb1. eapply IH; eauto.
    + destruct (flush_invariant h c s s1 c1 Hi H1) as [Hi1 Hb1].
      rewrite <- Hb1. eapply IH; eauto.
Qed.

(** From a fresh instance. *)
Lemma reachable_invariant (o : opts.t) (h0 : vad) (calls : list api_call) :
  I [] [] (construct o h0) ->
  exists s cbs,
    run calls (construct o h0) = Some (s, cbs)
    /\ I (raw_frames [] calls) cbs s.
Proof.
  intros Hi.
  destruct (run_ready calls (construct o h0) (construct_ready o h0))
    as (s & cbs & E & _).
  exists s, cbs. split; [exact E|].
  pose proof (run_invariant calls [] [] _ _ _ Hi E) as Hr.
  destruct (construct_initial o h0) as (_ & _ & _ & Hbuf).
  rewrite Hbuf in Hr. exact Hr.
Qed.

End RunInvariant.

(** The loop of [flush] keeps what every turn of it keeps. *)
Section LoopInvariant.
Context {V : TenVad} {M : MathLib}.
Variable J : list callback -> RealtimeTenVad -> Prop.
Hypothesis J_turn :
  forall c s s' c',
    J c s -> JS.gt (_postPadCountdown s) (Num 0) = true ->
    finalizeWithFrame (new_Float32Array HOP_SIZE) true s = Some (s', c') ->
    J (c ++ c') s'.

Lemma flush_loop_invariant (s : RealtimeTenVad) :
  forall c s' c',
    J c s -> flush_loop s = Some (s', c') -> J (c ++ c') s'.
Proof.
  funelim (flush_loop s); intros c s2 c2 Hj E.
  - inv E. rewrite app_nil_r. exact Hj.
  - destruct (flush_loop s') as [[s3 c3]|] eqn:E3; [|discriminate].
    inv E. rewrite app_assoc.
    eapply H; [eapply J_turn; eauto|reflexivity].
  - discriminate.
Qed.

End LoopInvariant.

Section Steps.
Context {V : TenVad} {M : MathLib}.

Lemma advanceState_runs isVoice prob frameRaw s s' calls :
  advanceState isVoice prob frameRaw s = Some (s', calls) ->
  _voiceRun s' = (if isVoice then _voiceRun s + 1 else 0)%Z
  /\ _silenceRun s' = (if isVoice then 0 else _silenceRun s + 1)%Z.
Proof.
  intros H. unfold advanceState, andThen, after, ret in H.
  split_result H; cbn; split; reflexivity.
Qed.

Lemma advanceState_countdown isVoice prob frameRaw s s' calls :
  advanceState isVoice prob frameRaw s = Some (s', calls) ->
  _inSpeech s' = false ->
  _postPadCountdown s'
  = if _inSpeech s then Num 0 else _postPadCountdown s.
Proof.
  intros H. unfold advanceState, andThen, after, ret in H.
  split_result H; cbn; intros Hin; try discriminate Hin; try congruence;
    repeat match goal with
      | E : _inSpeech _ = _ |- _ => rewrite E
      end; try reflexivity; congruence.
Qed.

Lemma finalizeWithFrame_counters frame silence s s' calls :
  finalizeWithFrame frame silence s = Some (s', calls) ->
  _frameIndex s' = _frameIndex s
  /\ _voiceRun s' = _voiceRun s /\ _silenceRun s' = _silenceRun s
  /\ _ring s' = _ring s.
Proof.
  intros H. unfold finalizeWithFrame in H.
  split_result H; cbn; repeat split; reflexivity.
Qed.

Lemma brackets_app (c c' : list callback) :
  forall b b', brackets b c = Some b' -> brackets b (c ++ c') = brackets b' c'.
Proof.
  induction c as [|x c IH]; intros b b' H; cbn in *.
  - inv H. reflexivity.
  - destruct x, b; try discriminate; eauto.
Qed.

End Steps.

Section Cutting.
Context {V : TenVad} {M : MathLib}.

Lemma frames_of_one (x : Float32Array) :
  full_frame x -> frames_of x = [x].
Proof.
  intros Hx. unfold frames_of. rewrite Hx.
  rewrite Nat.div_same by (pose proof HOP_SIZE_pos; lia).
  cbn [seq map]. unfold subarray. cbn [Nat.mul Nat.add skipn].
  rewrite Nat.sub_0_r, <- Hx. rewrite firstn_all. reflexivity.
Qed.

Lemma remainder_whole (x : Float32Array) :
  (length x < HOP_SIZE)%nat -> remainder x = x.
Proof.
  intros Hx. unfold remainder, subarray_from.
  rewrite Nat.div_small by exact Hx. reflexivity.
Qed.

(** Cutting a concatenation of frames gives the frames back. *)
Lemma frames_of_concat (frames : list Float32Array) (rest : Float32Array) :
  Forall full_frame frames ->
  frames_of (concat frames ++ rest) = frames ++ frames_of rest
  /\ remainder (concat frames ++ rest) = remainder rest.
Proof.
  induction 1 as [|f frames Hf _ [IH1 IH2]]; cbn [concat app].
  - split; reflexivity.
  - rewrite <- app_assoc. split.
    + rewrite (frames_of_app f _ 1) by (rewrite Hf; lia).
      rewrite (frames_of_one f Hf), IH1. reflexivity.
    + rewrite (remainder_app f _ 1) by (rewrite Hf; lia). exact IH2.
Qed.

Lemma concat_frames_of (a : Float32Array) :
  concat (frames_of a) ++ remainder a = a.
Proof.
  remember (length a) as n eqn:Hn. revert a Hn.
  induction n as [n IH] using lt_wf_ind. intros a Hn.
  destruct (Nat.lt_ge_cases (length a) HOP_SIZE) as [Hshort|Hlong].
  - rewrite (frames_of_short a Hshort), (remainder_whole a Hshort).
    reflexivity.
  - rewrite <- (firstn_skipn HOP_SIZE a) at 1 2.
    assert (Hx : full_frame (firstn HOP_SIZE a)).
    { unfold full_frame. rewrite length_firstn. lia. }
    rewrite (frames_of_app _ _ 1) by (rewrite Hx; lia).
    rewrite (remainder_app _ _ 1) by (rewrite Hx; lia).
    rewrite (frames_of_one _ Hx). cbn [app concat].
    rewrite <- app_assoc.
    rewrite (IH (length (skipn HOP_SIZE a))).
    + apply firstn_skipn.
    + rewrite length_skipn. pose proof HOP_SIZE_pos. lia.
    + reflexivity.
Qed.

(** X1. [processAudio] loses, repeats and reorders no sample: it hands
    to [_processFrame], in order, the complete frames of 256 samples cut
    out of the remainder it held followed by the chunk, and keeps the
    samples after the last complete frame, fewer than 256, as the new
    remainder; the frames and the new remainder put end to end are the
    old remainder followed by the chunk. *)
Theorem processAudio_keeps_every_sample (floatChunk : Float32Array)
    (s : RealtimeTenVad) :
  processAudio floatChunk s
  = andThen (feed (frames_of (_floatBuf s ++ floatChunk)) s)
      (fun s' =>
         ret (set_floatBuf (remainder (_floatBuf s ++ floatChunk)) s'))
  /\ concat (frames_of (_floatBuf s ++ floatChunk))
       ++ remainder (_floatBuf s ++ floatChunk)
     = _floatBuf s ++ floatChunk
  /\ Forall full_frame (frames_of (_floatBuf s ++ floatChunk))
  /\ (length (remainder (_floatBuf s ++ floatChunk)) < 256)%nat.
Proof.
  split; [apply processAudio_feed|]. split; [apply concat_frames_of|].
  split; [apply frames_of_full|].
  rewrite <- HOP_SIZE_256. apply remainder_short.
Qed.

(** X3. Round trip of [_concatFrames] and the framing of
    [processAudio]: a segment made by [_concatFrames] of frames of 256
    samples is cut by [processAudio] into these frames again, none left
    over. *)
Theorem frames_round_trip (frames : list Float32Array) (seg : Float32Array) :
  Forall full_frame frames ->
  concatFrames frames = Some seg ->
  frames_of seg = frames /\ remainder seg = [].
Proof.
  intros Hfull Hcat. rewrite (concatFrames_full frames Hfull) in Hcat.
  inv Hcat. destruct (frames_of_concat frames [] Hfull) as [E1 E2].
  rewrite app_nil_r in E1, E2. rewrite E1, E2.
  rewrite frames_of_short by (cbn; apply HOP_SIZE_pos).
  rewrite app_nil_r. split; [reflexivity|].
  apply remainder_whole. cbn. apply HOP_SIZE_pos.
Qed.

(** X2. A chunk that, with the remainder held, makes less than one
    frame is only buffered: [processAudio] calls no callback, hands
    nothing to the classifier and changes the remainder alone, appending
    the chunk to it; on an empty chunk it changes nothing at all. *)
Theorem short_input_is_buffered (floatChunk : Float32Array)
    (s : RealtimeTenVad) :
  (length (_floatBuf s) + length floatChunk < 256)%nat ->
  processAudio floatChunk s
  = Some (set_floatBuf (_floatBuf s ++ floatChunk) s, [])
  /\ (floatChunk = [] -> processAudio floatChunk s = Some (s, [])).
Proof.
  intros Hlen.
  assert (Hshort : (length (_floatBuf s ++ floatChunk) < HOP_SIZE)%nat)
    by (rewrite length_app, HOP_SIZE_256; exact Hlen).
  assert (E : processAudio floatChunk s
              = Some (set_floatBuf (_floatBuf s ++ floatChunk) s, [])).
  { rewrite processAudio_feed. cbv zeta.
    rewrite (frames_of_short _ Hshort). cbn [feed].
    fold (remainder (_floatBuf s ++ floatChunk)).
    rewrite (remainder_whole _ Hshort). reflexivity. }
  split; [exact E|]. intros ->. rewrite E, app_nil_r.
  destruct s; reflexivity.
Qed.

End Cutting.

Section ConcatFrames.

Lemma concat_loop_spec (frames : list Float32Array) :
  forall (done : Float32Array) (m : nat),
    option_map fst
      (fold_left concat_step frames
         (Some (done ++ new_Float32Array m, length done)))
    = if (length (concat frames) <=? m)%nat
      then Some (done ++ concat frames
                   ++ new_Float32Array (m - length (concat frames)))
      else None.
Proof.
  induction frames as [|f frames IH]; intros done m.
  - cbn. rewrite Nat.sub_0_r. reflexivity.
  - cbn [fold_left concat_step concat]. rewrite length_app.
    unfold typed_set. rewrite length_app, length_new_Float32Array.
    destruct (Nat.leb_spec (length done + length f) (length done + m))
      as [Hfit|Hover].
    + rewrite firstn_app, firstn_all, Nat.sub_diag, firstn_0, app_nil_r.
      rewrite skipn_app, skipn_all2 by lia.
      replace (length done + length f - length done)%nat with (length f)
        by lia.
      cbn [app].
      assert (Hm : m = (length f + (m - length f))%nat) by lia.
      rewrite Hm at 1. rewrite new_Float32Array_add.
      rewrite skipn_app, skipn_all2 by (rewrite length_new_Float32Array; lia).
      rewrite length_new_Float32Array, Nat.sub_diag, skipn_0. cbn [app].
      specialize (IH (done ++ f) (m - length f)%nat).
      rewrite length_app, <- !app_assoc in IH. rewrite IH.
      destruct (Nat.leb_spec (length (concat frames)) (m - length f));
        destruct (Nat.leb_spec (length f + length (concat frames)) m);
        try lia; [|reflexivity].
      replace (m - (length f + length (concat frames)))%nat
        with (m - length f - length (concat frames))%nat by lia.
      rewrite <- !app_assoc. reflexivity.
    + rewrite concat_step_None. cbn.
      destruct (Nat.leb_spec (length f + length (concat frames)) m);
        [lia|reflexivity].
Qed.

(** X4. [_concatFrames] on any frames: when the frames together hold no
    more than [frames.length * 256] samples it returns their
    concatenation followed by the zeros that fill the buffer; when they
    hold more, [set] throws a [RangeError] and so does [_concatFrames]. *)
Theorem concatFrames_fills_or_throws (frames : list Float32Array) :
  concatFrames frames
  = if (length (concat frames) <=? length frames * 256)%nat
    then Some (concat frames
                 ++ new_Float32Array
                      (length frames * 256 - length (concat frames)))
    else None.
Proof.
  unfold concatFrames. rewrite HOP_SIZE_256.
  exact (concat_loop_spec frames [] (length frames * 256)).
Qed.

End ConcatFrames.

Section Quantize.

Lemma wrap_small (bits z : Z) :
  (0 < bits)%Z -> (- 2 ^ (bits - 1) <= z < 2 ^ (bits - 1))%Z ->
  JS.wrap bits z = z.
Proof.
  intros Hb Hz. unfold JS.wrap.
  assert (E : (2 ^ bits = 2 * 2 ^ (bits - 1))%Z).
  { replace bits with (Z.succ (bits - 1)) at 1 by lia.
    apply Z.pow_succ_r. lia. }
  rewrite Z.mod_small by lia. lia.
Qed.

Lemma truncate_scaled (q : Q) :
  (- (1) <= q)%Q -> (q < 1)%Q ->
  (-32768 <= JS.truncate (q * 32768) <= 32767)%Z.
Proof.
  destruct q as [n d]. unfold Qle, Qlt, JS.truncate. cbn.
  rewrite Pos.mul_1_r. intros Hlo Hhi.
  destruct (Z.le_gt_cases 0 n) as [Hn|Hn].
  - rewrite Z.quot_div_nonneg by lia. split.
    + pose proof (Z.div_pos (n * 32768) (Z.pos d)). lia.
    + apply Z.lt_succ_r. change (Z.succ 32767) with 32768%Z.
      apply Z.div_lt_upper_bound; lia.
  - replace (n * 32768)%Z with (- (- n * 32768))%Z by lia.
    rewrite Z.quot_opp_l by lia.
    rewrite Z.quot_div_nonneg by lia.
    pose proof (Z.div_pos (- n * 32768) (Z.pos d)).
    assert (- n * 32768 / Z.pos d <= 32768)%Z
      by (apply Z.div_le_upper_bound; lia).
    lia.
Qed.

(** X5. The 16-bit sample made of [y],
    [(Math.max(-1, Math.min(1, y)) * 32768) | 0] stored in an
    [Int16Array]: it always lies in [-32768, 32767]; for [-1 <= y < 1]
    it is [y * 32768] truncated towards zero; a sample of -1 or below
    gives -32768, and so does a sample of +1 or above, since 32768 does
    not fit in 16 bits and wraps to -32768; [NaN] gives 0. *)
Theorem quantize_wraps_full_scale (y : number) :
  quantize y
  = match y with
    | NaN => 0%Z
    | Num q =>
        if Qle_bool 1 q then (-32768)%Z
        else if Qle_bool (-1) q then JS.truncate (q * 32768)
        else (-32768)%Z
    end
  /\ (-32768 <= quantize y <= 32767)%Z.
Proof.
  destruct y as [|q]; [split; [reflexivity|cbv; split; discriminate]|].
  unfold quantize. cbn [JS.Math_min].
  destruct (Qle_bool 1 q) eqn:Hhi.
  - split; [reflexivity|cbv; split; discriminate].
  - cbn [JS.Math_max]. destruct (Qle_bool (-1) q) eqn:Hlo.
    + apply Qle_bool_iff in Hlo. change (-1)%Q with (- (1))%Q in Hlo.
      assert (Hlt : (q < 1)%Q).
      { apply Qnot_le_lt. intros H. apply Qle_bool_iff in H. congruence. }
      pose proof (truncate_scaled q Hlo Hlt) as Hr.
      unfold JS.mul, JS.to_int32, JS.to_int16.
      rewrite (wrap_small 32) by (cbn; lia).
      rewrite (wrap_small 16) by (cbn; lia).
      split; [reflexivity|exact Hr].
    + split; [reflexivity|cbv; split; discriminate].
Qed.

End Quantize.

Section Conversion.

Lemma store_app (done todo : Int16Array) (t v : Z) :
  store (done ++ t :: todo) (length done) v = done ++ v :: todo.
Proof.
  induction done as [|x done IH]; cbn; [reflexivity|].
  rewrite IH. reflexivity.
Qed.

Lemma get_app (fdone ftodo : Float32Array) (x : number) :
  get (fdone ++ x :: ftodo) (length fdone) = x.
Proof.
  unfold get. rewrite app_nth2 by lia. rewrite Nat.sub_diag. reflexivity.
Qed.

Lemma last_cons (l : Float32Array) :
  forall x d : number, last (x :: l) d = last l x.
Proof.
  induction l as [|y l IH]; intros x d; [reflexivity|].
  change (last (x :: y :: l) d) with (last (y :: l) d).
  rewrite !IH. reflexivity.
Qed.

Lemma filter_loop (a : number) (ftodo : Float32Array) :
  forall (fdone : Float32Array) (done todo : Int16Array) (prev : number),
    length done = length fdone -> length todo = length ftodo ->
    fold_left
      (fun (acc : number * Int16Array) (i : nat) =>
         let '(prev, buf) := acc in
         let x := get (fdone ++ ftodo) i in
         let y := JS.sub x (JS.mul a prev) in
         (x, store buf i (quantize y)))
      (seq (length fdone) (length ftodo)) (prev, done ++ todo)
    = (last ftodo prev,
       done ++ map quantize (pre_emphasis a prev ftodo)).
Proof.
  induction ftodo as [|x ftodo IH]; intros fdone done todo prev Hd Ht.
  - destruct todo; [|discriminate Ht]. reflexivity.
  - destruct todo as [|t todo]; [discriminate Ht|].
    cbn [length seq fold_left]. rewrite get_app.
    rewrite <- Hd, store_app.
    specialize (IH (fdone ++ [x]) (done ++ [quantize (JS.sub x (JS.mul a prev))])
                  todo x).
    rewrite !length_app in IH. cbn [length] in IH.
    rewrite <- !app_assoc in IH. cbn [app] in IH.
    rewrite Hd. replace (S (length fdone)) with (length fdone + 1)%nat by lia.
    rewrite IH by (cbn in Ht; lia).
    cbn [pre_emphasis map]. f_equal.
    symmetry. apply last_cons.
Qed.

Lemma plain_loop (ftodo : Float32Array) :
  forall (fdone : Float32Array) (done todo : Int16Array),
    length done = length fdone -> length todo = length ftodo ->
    fold_left
      (fun (buf : Int16Array) (i : nat) =>
         store buf i (quantize (get (fdone ++ ftodo) i)))
      (seq (length fdone) (length ftodo)) (done ++ todo)
    = done ++ map quantize ftodo.
Proof.
  induction ftodo as [|x ftodo IH]; intros fdone done todo Hd Ht.
  - destruct todo; [|discriminate Ht]. reflexivity.
  - destruct todo as [|t todo]; [discriminate Ht|].
    cbn [length seq fold_left]. rewrite get_app.
    rewrite <- Hd, store_app.
    specialize (IH (fdone ++ [x]) (done ++ [quantize x]) todo).
    rewrite !length_app in IH. cbn [length] in IH.
    rewrite <- !app_assoc in IH. cbn [app] in IH.
    rewrite Hd. replace (S (length fdone)) with (length fdone + 1)%nat by lia.
    rewrite IH by (cbn in Ht; lia).
    reflexivity.
Qed.

Lemma last_get (f : Float32Array) (d : number) :
  f <> [] -> last f d = get f (length f - 1).
Proof.
  intros Hf. destruct (exists_last Hf) as (l & x & ->).
  rewrite last_last, length_app. cbn [length].
  replace (length l + 1 - 1)%nat with (length l) by lia.
  symmetry. apply get_app.
Qed.

Lemma to_int16_frame_closed (a prev : number) (frameRaw : Float32Array)
    (buf : Int16Array) :
  full_frame frameRaw -> length buf = HOP_SIZE ->
  to_int16_frame a prev frameRaw buf
  = (get frameRaw (HOP_SIZE - 1),
     map quantize (conditioned a prev frameRaw)).
Proof.
  unfold full_frame. intros Hf Hb.
  assert (Hne : frameRaw <> []).
  { intros ->. pose proof HOP_SIZE_pos. cbn in Hf. lia. }
  unfold to_int16_frame, conditioned.
  assert (Hbf : length buf = length frameRaw) by congruence.
  destruct (JS.gt a (Num 0)).
  - pose proof (filter_loop a frameRaw [] [] buf prev eq_refl Hbf) as E.
    cbn [app length] in E. rewrite Hf in E. rewrite E.
    rewrite (last_get frameRaw prev Hne), Hf. reflexivity.
  - pose proof (plain_loop frameRaw [] [] buf eq_refl Hbf) as E.
    cbn [app length] in E. rewrite Hf in E. rewrite E.
    reflexivity.
Qed.

(** X6. The conversion loops of [_processFrame] on a frame of 256
    samples: the work buffer is overwritten in full with the 16-bit
    samples of the frame, filtered by
    [y[n] = x[n] - preEmphasis * x[n-1]] when [preEmphasis > 0] (the
    sample before the frame being the one carried from the previous
    frame) and unfiltered otherwise; in both cases the sample carried to
    the next frame is the last raw sample of the frame. *)
Theorem to_int16_frame_filters (a prev : number) (frameRaw : Float32Array)
    (buf : Int16Array) :
  length frameRaw = 256%nat -> length buf = 256%nat ->
  to_int16_frame a prev frameRaw buf
  = (get frameRaw 255, map quantize (conditioned a prev frameRaw)).
Proof.
  intros Hf Hb.
  pose proof (to_int16_frame_closed a prev frameRaw buf) as E.
  unfold full_frame in E. rewrite HOP_SIZE_256 in E.
  exact (E Hf Hb).
Qed.

Lemma pre_emphasis_app (a : number) (xs ys : Float32Array) :
  forall prev,
    pre_emphasis a prev (xs ++ ys)
    = pre_emphasis a prev xs ++ pre_emphasis a (last xs prev) ys.
Proof.
  induction xs as [|x xs IH]; intros prev; cbn [app pre_emphasis].
  - reflexivity.
  - rewrite IH, last_cons. reflexivity.
Qed.

Lemma conditioned_app (a prev : number) (xs ys : Float32Array) :
  conditioned a prev (xs ++ ys)
  = conditioned a prev xs ++ conditioned a (last xs prev) ys.
Proof.
  unfold conditioned. destruct (JS.gt a (Num 0)); [|reflexivity].
  apply pre_emphasis_app.
Qed.

End Conversion.

Section WorkFields.
Context {V : TenVad} {M : MathLib}.

Lemma advanceState_work_fields isVoice prob frameRaw s s' calls :
  advanceState isVoice prob frameRaw s = Some (s', calls) ->
  knobs s' = knobs s /\ _handle s' = _handle s
  /\ _lastSampleForPreEmph s' = _lastSampleForPreEmph s
  /\ _int16Frame s' = _int16Frame s.
Proof.
  intros H. unfold advanceState, andThen, after, ret in H.
  split_result H; cbn; repeat split; reflexivity.
Qed.

Lemma finalizeWithFrame_work_fields frame silence s s' calls :
  finalizeWithFrame frame silence s = Some (s', calls) ->
  knobs s' = knobs s /\ _handle s' = _handle s
  /\ _lastSampleForPreEmph s' = _lastSampleForPreEmph s
  /\ _int16Frame s' = _int16Frame s.
Proof.
  intros H. unfold finalizeWithFrame in H.
  split_result H; cbn; repeat split; reflexivity.
Qed.

Lemma flush_loop_work_fields (s s' : RealtimeTenVad) (calls : list callback) :
  flush_loop s = Some (s', calls) ->
  knobs s' = knobs s /\ _handle s' = _handle s
  /\ _lastSampleForPreEmph s' = _lastSampleForPreEmph s
  /\ _int16Frame s' = _int16Frame s.
Proof.
  intros H.
  apply (flush_loop_invariant
           (fun _ s1 =>
              knobs s1 = knobs s /\ _handle s1 = _handle s
              /\ _lastSampleForPreEmph s1 = _lastSampleForPreEmph s
              /\ _int16Frame s1 = _int16Frame s))
    with (s := s) (c := []) (c' := calls); [|repeat split|exact H].
  intros c s1 s2 c' (E1 & E2 & E3 & E4) _ Hfin.
  apply finalizeWithFrame_work_fields in Hfin.
  destruct Hfin as (F1 & F2 & F3 & F4). repeat split; congruence.
Qed.

(** What [_processFrame] leaves in the work fields and hands to the
    classifier. *)
Lemma processFrame_conversion frameRaw s s' calls :
  processFrame frameRaw s = Some (s', calls) ->
  let conv :=
    to_int16_frame (preEmphasis (knobs s)) (_lastSampleForPreEmph s)
      frameRaw (_int16Frame s) in
  knobs s' = knobs s
  /\ _lastSampleForPreEmph s' = fst conv
  /\ _int16Frame s' = snd conv
  /\ _handle s' = fst (ten_vad_process (_handle s) (snd conv)).
Proof.
  intros H conv. subst conv. unfold processFrame, classified in H.
  destruct (to_int16_frame _ _ _ _) as [prev buf].
  cbn [_handle _int16Frame set_lastSampleForPreEmph set_int16Frame] in H.
  destruct (ten_vad_process _ _) as [h r].
  destruct (negb (rc r =? 0)%Z);
    apply advanceState_work_fields in H;
    destruct H as (E1 & E2 & E3 & E4);
    (split; [exact E1|]); (split; [exact E3|]); (split; [exact E4|exact E2]).
Qed.

End WorkFields.

Section Heard.
Context {M : MathLib}.

Lemma length_pre_emphasis (a : number) (xs : Float32Array) :
  forall prev, length (pre_emphasis a prev xs) = length xs.
Proof. induction xs; intros prev; cbn; auto. Qed.

Lemma length_conditioned (a prev : number) (xs : Float32Array) :
  length (conditioned a prev xs) = length xs.
Proof.
  unfold conditioned. destruct (JS.gt _ _); [|reflexivity].
  apply length_pre_emphasis.
Qed.

Lemma last_app_frame (xs f : Float32Array) (d : number) :
  full_frame f -> last (xs ++ f) d = get f (HOP_SIZE - 1).
Proof.
  unfold full_frame. intros Hf. pose proof HOP_SIZE_pos as Hpos.
  assert (Hne : xs ++ f <> []).
  { intros E. apply app_eq_nil in E. destruct E as [_ ->].
    cbn in Hf. lia. }
  rewrite (last_get _ d Hne), length_app, Hf. unfold get.
  rewrite app_nth2 by lia. f_equal. lia.
Qed.

(** X7. In any stream of calls the classifier is called once for every
    frame handed to [_processFrame], in order, and never for the frames
    of zeros that [flush] appends; each frame it is given holds 256
    samples and, put end to end, they are the 16-bit samples of the
    whole raw stream conditioned as one signal: the pre-emphasis filter
    runs across frame boundaries, starting from a previous sample of 0.
    Stated with a classifier that records what it is given. *)
Theorem classifier_hears_conditioned_stream (r : vad_result) (o : opts.t)
    (calls : list api_call) :
  exists s cbs,
    run (V := recording r) calls (construct (V := recording r) o [])
    = Some (s, cbs)
    /\ length (_handle s) = length (raw_frames [] calls)
    /\ Forall (fun frame16 => length frame16 = 256%nat) (_handle s)
    /\ concat (_handle s)
       = map quantize
           (conditioned (preEmphasis (knobs s)) (Num 0)
              (concat (raw_frames [] calls))).
Proof.
  set (s0 := construct (V := recording r) o []).
  destruct (reachable_invariant (V := recording r)
           (fun h _ s =>
              knobs s = knobs s0
              /\ length (_int16Frame s) = HOP_SIZE
              /\ _lastSampleForPreEmph s = last (concat h) (Num 0)
              /\ length (_handle s) = length h
              /\ Forall (fun frame16 => length frame16 = HOP_SIZE)
                   (_handle s)
              /\ concat (_handle s)
                 = map quantize
                     (conditioned (preEmphasis (knobs s0)) (Num 0)
                        (concat h))))
    with (o := o) (h0 := @nil Int16Array) (calls := calls)
    as (s & cbs & E & Ek & _ & _ & El & Ew & Ec).
  - intros ? ? ? ? E. exact E.
  - intros h c f s s' c' Hf (Ek & Hb & Ep & El & Ew & Ec) H.
    apply processFrame_conversion in H. cbv zeta in H.
    rewrite (to_int16_frame_closed _ _ _ _ Hf Hb) in H.
    cbn [fst snd ten_vad_process recording] in H.
    destruct H as (Ek' & Ep' & Eb' & Eh').
    split; [congruence|]. split.
    { rewrite Eb', length_map, length_conditioned. exact Hf. }
    rewrite concat_app. cbn [concat]. rewrite app_nil_r. split.
    { rewrite Ep'. symmetry. apply last_app_frame. exact Hf. }
    rewrite Eh'. split.
    { rewrite !length_app, El. reflexivity. }
    split.
    { apply Forall_app. split; [exact Ew|].
      constructor; [|constructor].
      rewrite length_map, length_conditioned. exact Hf. }
    rewrite concat_app. cbn [concat]. rewrite app_nil_r.
    rewrite Ec, conditioned_app, map_app, Ek, Ep. reflexivity.
  - intros h c s s' c' (Ek & Hb & Ep & El & Ew & Ec) _ H.
    apply flush_loop_work_fields in H. cbn in H.
    destruct H as (F1 & F2 & F3 & F4).
    rewrite F1, F2, F3, F4. auto 6.
  - subst s0. unfold construct. destruct (JS.gt _ _); cbn;
      (split; [reflexivity|]);
      (split; [apply repeat_length|]);
      (split; [reflexivity|]); (split; [reflexivity|]);
      (split; [constructor|]);
      unfold conditioned; destruct (JS.gt _ _); reflexivity.
  - exists s, cbs. split; [exact E|]. split; [exact El|].
    split; [rewrite <- HOP_SIZE_256; exact Ew|].
    rewrite Ek. exact Ec.
Qed.

End Heard.

Section Smoothing.
Context {V : TenVad} {M : MathLib}.

Lemma clamp_in_unit (x : number) :
  JS.is_number x -> in_unit (JS.Math_min (Num 1) (JS.Math_max (Num 0) x)).
Proof.
  destruct x as [|q]; [contradiction|]. intros _. cbn.
  destruct (Qle_bool 0 q) eqn:H0; cbn.
  - apply Qle_bool_iff in H0. destruct (Qle_bool 1 q) eqn:H1; cbn.
    + lra.
    + assert (q < 1)%Q; [|lra].
      apply Qnot_le_lt. intros H. apply Qle_bool_iff in H. congruence.
  - lra.
Qed.

Lemma ema_in_unit (alpha x p : number) :
  in_unit alpha -> in_unit x -> in_unit p ->
  in_unit (JS.add (JS.mul alpha x) (JS.mul (JS.sub (Num 1) alpha) p)).
Proof.
  destruct alpha as [|a]; [contradiction|].
  destruct x as [|x]; [contradiction|].
  destruct p as [|p]; [contradiction|].
  cbn. intros Ha Hx Hp. split; nra.
Qed.

Lemma classified_smoothed r frameRaw s s' calls :
  classified r frameRaw s = Some (s', calls) ->
  knobs s' = knobs s
  /\ _pSmoothed s'
     = if negb (rc r =? 0)%Z then _pSmoothed s
       else JS.add (JS.mul (probSmoothing (knobs s)) (_pSmoothed s))
              (JS.mul (JS.sub (Num 1) (probSmoothing (knobs s)))
                 (out_probability r)).
Proof.
  intros H. unfold classified in H.
  destruct (negb (rc r =? 0)%Z);
    pose proof (advanceState_work_fields _ _ _ _ _ _ H) as (Ek & _);
    apply advanceState_frameIndex in H; destruct H as [_ Ep];
    (split; [exact Ek|exact Ep]).
Qed.

Lemma processFrame_smoothed frameRaw s s' calls :
  processFrame frameRaw s = Some (s', calls) ->
  exists frame16,
    knobs s' = knobs s
    /\ _pSmoothed s'
       = let r := snd (ten_vad_process (_handle s) frame16) in
         if negb (rc r =? 0)%Z then _pSmoothed s
         else JS.add (JS.mul (probSmoothing (knobs s)) (_pSmoothed s))
                (JS.mul (JS.sub (Num 1) (probSmoothing (knobs s)))
                   (out_probability r)).
Proof.
  intros H. unfold processFrame in H.
  destruct (to_int16_frame _ _ _ _) as [prev buf].
  exists buf.
  change (_handle (set_lastSampleForPreEmph prev (set_int16Frame buf s)))
    with (_handle s) in H.
  change (_int16Frame (set_lastSampleForPreEmph prev (set_int16Frame buf s)))
    with buf in H.
  destruct (ten_vad_process (_handle s) buf) as [h r].
  apply classified_smoothed in H. exact H.
Qed.

Lemma flush_loop_smoothed (s s' : RealtimeTenVad) (calls : list callback) :
  flush_loop s = Some (s', calls) -> _pSmoothed s' = _pSmoothed s.
Proof.
  intros H.
  apply (flush_loop_invariant (fun _ s1 => _pSmoothed s1 = _pSmoothed s))
    with (s := s) (c := []) (c' := calls); [|reflexivity|exact H].
  intros c s1 s2 c' E _ Hfin. rewrite <- E.
  unfold finalizeWithFrame in Hfin. split_result Hfin; reflexivity.
Qed.

(** X8. If [probSmoothing] is absent or a number and the classifier
    returns probabilities between 0 and 1, the smoothed probability is
    between 0 and 1 after any stream of calls (classifier errors
    included: they leave it unchanged). *)
Theorem smoothed_probability_in_unit (o : opts.t) (h : vad)
    (calls : list api_call) :
  numeric (opts.probSmoothing o) ->
  (forall h' frame16,
      in_unit (out_probability (snd (ten_vad_process h' frame16)))) ->
  exists s cbs,
    run calls (construct o h) = Some (s, cbs)
    /\ in_unit (_pSmoothed s).
Proof.
  intros Hnum Hp.
  assert (Ha : in_unit (probSmoothing (knobs (construct o h)))).
  { unfold construct. destruct (JS.gt _ _); cbn [knobs probSmoothing];
      apply clamp_in_unit, or_default_is_number; exact Hnum. }
  destruct (reachable_invariant
              (fun _ _ s =>
                 knobs s = knobs (construct o h) /\ in_unit (_pSmoothed s)))
    with (o := o) (h0 := h) (calls := calls) as (s & cbs & E & _ & Hs).
  - intros ? ? ? ? E. exact E.
  - intros h0 c f s s' c' _ (Ek & Hi) H.
    apply processFrame_smoothed in H. destruct H as (f16 & Ek' & Ep).
    cbv zeta in Ep. split; [congruence|]. rewrite Ep.
    destruct (negb _); [exact Hi|].
    apply ema_in_unit; [rewrite Ek; exact Ha|exact Hi|apply Hp].
  - intros h0 c s s' c' (Ek & Hi) _ H.
    destruct (flush_loop_setup _ _ _ H) as [(Ek' & _) _].
    apply flush_loop_smoothed in H. cbn in H, Ek'.
    split; [congruence|]. rewrite H. exact Hi.
  - split; [reflexivity|].
    destruct (construct_initial o h) as (_ & _ & E & _). rewrite E.
    cbn. lra.
  - exists s, cbs. auto.
Qed.

(** X9. For options that are absent or numbers, the constructor stores
    both thresholds and [probSmoothing] between 0 and 1. *)
Theorem constructor_clamps (o : opts.t) (h : vad) :
  numeric (opts.positiveSpeechThreshold o) ->
  numeric (opts.negativeSpeechThreshold o) ->
  numeric (opts.probSmoothing o) ->
  in_unit (positiveSpeechThreshold (knobs (construct o h)))
  /\ in_unit (negativeSpeechThreshold (knobs (construct o h)))
  /\ in_unit (probSmoothing (knobs (construct o h))).
Proof.
  intros Hp Hn Ha. unfold construct.
  destruct (JS.gt _ _);
    cbn [knobs positiveSpeechThreshold negativeSpeechThreshold probSmoothing];
    repeat split; apply clamp_in_unit, or_default_is_number; assumption.
Qed.

End Smoothing.

Section Voice.
Context {V : TenVad} {M : MathLib}.

Lemma classified_voice r frameRaw s s' calls :
  classified r frameRaw s = Some (s', calls) ->
  exists isVoice prob s1,
    same_machine s s1
    /\ advanceState isVoice prob frameRaw s1 = Some (s', calls)
    /\ _handle s' = _handle s
    /\ (isVoice = true ->
        flagged r = true
        /\ gate_open (energyGateDb (knobs s)) frameRaw = true).
Proof.
  intros H. unfold classified in H. unfold flagged.
  destruct (rc r =? 0)%Z; cbn [negb] in H.
  - pose proof (advanceState_work_fields _ _ _ _ _ _ H) as (_ & Eh & _).
    eexists; eexists; eexists. split; [|split; [exact H|]].
    + repeat split.
    + split; [exact Eh|]. intros Hv.
      apply andb_prop in Hv. destruct Hv as [Hv Hg].
      apply andb_prop in Hv. destruct Hv as [Hf _].
      split; [exact Hf|exact Hg].
  - pose proof (advanceState_work_fields _ _ _ _ _ _ H) as (_ & Eh & _).
    exists false. eexists; eexists. split; [|split; [exact H|]].
    + repeat split.
    + split; [exact Eh|]. discriminate.
Qed.

(** [_processFrame] is a step of [_advanceState] whose frame counts as
    voice only if the classifier flagged it and the gate is open. *)
Lemma processFrame_classified frameRaw s s' calls :
  processFrame frameRaw s = Some (s', calls) ->
  exists frame16 isVoice prob s1,
    same_machine s s1
    /\ advanceState isVoice prob frameRaw s1 = Some (s', calls)
    /\ _handle s' = fst (ten_vad_process (_handle s) frame16)
    /\ (isVoice = true ->
        flagged (snd (ten_vad_process (_handle s) frame16)) = true
        /\ gate_open (energyGateDb (knobs s)) frameRaw = true).
Proof.
  intros H. unfold processFrame in H.
  destruct (to_int16_frame _ _ _ _) as [prev buf].
  exists buf.
  change (_handle (set_lastSampleForPreEmph prev (set_int16Frame buf s)))
    with (_handle s) in H.
  change (_int16Frame (set_lastSampleForPreEmph prev (set_int16Frame buf s)))
    with buf in H.
  destruct (ten_vad_process (_handle s) buf) as [h r].
  apply classified_voice in H.
  destruct H as (v & p & s1 & Hm & H & Eh & Hv).
  exists v, p, s1. split; [exact Hm|]. split; [exact H|].
  split; [exact Eh|exact Hv].
Qed.

Lemma advanceState_stays_silent isVoice prob frameRaw s s' calls :
  advanceState isVoice prob frameRaw s = Some (s', calls) ->
  _inSpeech s = false ->
  (isVoice = true ->
   JS.ge (JS.of_Z (_voiceRun s + 1)) (minSpeechFrames (knobs s)) = false) ->
  _inSpeech s' = false /\ calls = [] /\ knobs s' = knobs s.
Proof.
  intros H Hin Hv. destruct (advanceState_work_fields _ _ _ _ _ _ H) as (Ek & _).
  destruct isVoice.
  - destruct (advanceState_voice_in_silence prob frameRaw s Hin)
      as (s2 & E & Ein & _).
    cbv zeta in E, Ein. rewrite (Hv eq_refl) in E, Ein.
    rewrite E in H. inv H. auto.
  - unfold advanceState, andThen, after, ret in H.
    split_result H; cbn; try congruence; auto.
Qed.

Lemma construct_knobs (o : opts.t) (h : vad) :
  energyGateDb (knobs (construct o h)) = opts.energyGateDb o
  /\ minSpeechFrames (knobs (construct o h))
     = JS.or_default (opts.minSpeechFrames o) (Num 3)
  /\ _silenceRun (construct o h) = 0%Z
  /\ _frameIndex (construct o h) = 0%Z.
Proof. unfold construct. destruct (JS.gt _ _); repeat split. Qed.

(** X11. A frame counts as voice only if the classifier flags it
    without error and the energy gate is open.  So if the classifier
    never does, or if the gate is closed on every frame of the stream,
    no callback is called in any stream of calls and the instance stays
    in silence. *)
Theorem no_voice_no_callback (o : opts.t) (h : vad) (calls : list api_call) :
  (forall h' frame16,
      flagged (snd (ten_vad_process h' frame16)) = false)
  \/ Forall (fun f => gate_open (opts.energyGateDb o) f = false)
       (raw_frames [] calls) ->
  exists s,
    run calls (construct o h) = Some (s, []) /\ _inSpeech s = false.
Proof.
  intros Hquiet.
  destruct (reachable_invariant
           (fun h0 c s =>
              knobs s = knobs (construct o h)
              /\ (((forall h' frame16,
                      flagged (snd (ten_vad_process h' frame16)) = false)
                   \/ Forall
                        (fun f => gate_open (opts.energyGateDb o) f = false)
                        h0) ->
                  c = [] /\ _inSpeech s = false)))
    with (o := o) (h0 := h) (calls := calls) as (s & cbs & E & _ & Hs).
  - intros ? ? ? ? E. exact E.
  - intros h0 c f s s' c' _ (Ek & Hi) H.
    apply processFrame_classified in H.
    destruct H as (f16 & v & p & s1 & Hm & H & _ & Hv).
    destruct (advanceState_work_fields _ _ _ _ _ _ H) as (Ek' & _).
    destruct Hm as (Ek1 & _ & Ei & _).
    split; [congruence|]. intros Hq.
    assert (Hq0 : (forall h' frame16,
                      flagged (snd (ten_vad_process h' frame16)) = false)
                  \/ Forall
                       (fun f => gate_open (opts.energyGateDb o) f = false)
                       h0).
    { destruct Hq as [Hq|Hq]; [left; exact Hq|right].
      apply Forall_app in Hq. apply Hq. }
    destruct (Hi Hq0) as [-> Hin].
    assert (Hnv : v = false).
    { destruct v; [|reflexivity]. destruct (Hv eq_refl) as [Hf Hg].
      destruct Hq as [Hq|Hq].
      - rewrite Hq in Hf. discriminate Hf.
      - apply Forall_app in Hq. destruct Hq as [_ Hq].
        inversion Hq as [|? ? Hc _]; subst.
        rewrite Ek in Hg. destruct (construct_knobs o h) as (Eg & _).
        rewrite Eg in Hg. congruence. }
    subst v.
    destruct (advanceState_stays_silent _ _ _ _ _ _ H) as (Hin' & -> & _);
      [congruence|discriminate|].
    split; [reflexivity|exact Hin'].
  - intros h0 c s s' c' (Ek & Hi) Hin H.
    destruct (flush_loop_setup _ _ _ H) as [(Ek' & _) _].
    split; [cbn in Ek'; congruence|]. intros Hq.
    destruct (Hi Hq) as [_ Hout]. congruence.
  - split; [reflexivity|]. intros _.
    destruct (construct_initial o h) as (Hin & _). auto.
  - destruct (Hs Hquiet) as [-> Hin]. exists s. auto.
Qed.

End Voice.

Section Debounce.
Context {M : MathLib}.

(** X12. Debouncing of speech starts: if in the results of the
    classifier every run of consecutive flagged frames is shorter than
    [minSpeechFrames], speech never starts: no callback is called,
    whatever the probabilities, the samples and the calls.  Stated with
    the scripted classifier. *)
Theorem short_voice_runs_are_ignored (o : opts.t) (script : list vad_result)
    (calls : list api_call) (n : nat) :
  JS.strict_eq
    (minSpeechFrames (knobs (construct (V := scripted) o script)))
    (JS.of_nat n) = true ->
  flag_runs_below n 0 script = true ->
  exists s,
    run (V := scripted) calls (construct (V := scripted) o script)
    = Some (s, [])
    /\ _inSpeech s = false.
Proof.
  intros Hn Hruns.
  destruct (reachable_invariant (V := scripted)
           (fun _ c s =>
              knobs s = knobs (construct (V := scripted) o script)
              /\ c = [] /\ _inSpeech s = false
              /\ exists k,
                   (0 <= _voiceRun s <= Z.of_nat k)%Z
                   /\ flag_runs_below n k (_handle s) = true))
    with (o := o) (h0 := script) (calls := calls)
    as (s & cbs & E & _ & -> & Hin & _).
  - intros ? ? ? ? E. exact E.
  - intros h0 c f s s' c' _ (Ek & -> & Hin & k & Hk & Hr) H.
    apply processFrame_classified in H.
    destruct H as (f16 & v & p & s1 & Hm & H & Eh & Hv).
    destruct Hm as (Ek1 & _ & Ei & Evr & _).
    destruct (advanceState_runs _ _ _ _ _ _ H) as (Evr' & _).
    assert (Hnext :
              exists k',
                (0 <= (if v then _voiceRun s + 1 else 0) <= Z.of_nat k')%Z
                /\ flag_runs_below n k' (_handle s') = true
                /\ (v = true -> (k' < n)%nat)).
    { rewrite Eh. cbn [ten_vad_process scripted] in Hv |- *.
      destruct (_handle s) as [|r script'] eqn:Es; cbn [fst snd] in Hv |- *.
      - exists 0%nat. destruct v; [destruct (Hv eq_refl); discriminate|].
        split; [lia|]. split; [reflexivity|discriminate].
      - cbn [flag_runs_below] in Hr. destruct (flagged r) eqn:Hf.
        + apply andb_prop in Hr. destruct Hr as [Hlt Hr].
          apply Nat.ltb_lt in Hlt.
          exists (S k). split; [destruct v; lia|]. split; [exact Hr|].
          intros _. exact Hlt.
        + exists 0%nat. destruct v; [destruct (Hv eq_refl); discriminate|].
          split; [lia|]. split; [exact Hr|discriminate]. }
    destruct Hnext as (k' & Hk' & Hr' & Hlt).
    destruct (advanceState_stays_silent _ _ _ _ _ _ H) as (Hin' & -> & Ek');
      [congruence| |].
    { intros ->. rewrite Ek1, Ek, Evr.
      rewrite (ge_count _ _ _ Hn).
      apply Z.leb_gt. specialize (Hlt eq_refl). lia. }
    split; [congruence|]. split; [reflexivity|]. split; [exact Hin'|].
    exists k'. rewrite Evr', Evr. split; [exact Hk'|exact Hr'].
  - intros h0 c s s' c' (_ & _ & Hin & _) Hin'. congruence.
  - split; [reflexivity|]. split; [reflexivity|].
    destruct (construct_initial (V := scripted) o script) as (Hin & Hvr & _).
    split; [exact Hin|]. exists 0%nat. rewrite Hvr. split; [lia|].
    unfold construct. destruct (JS.gt _ _); exact Hruns.
  - exists s. auto.
Qed.

End Debounce.

Section Reachable.
Context {V : TenVad} {M : MathLib}.

Lemma flush_loop_counters (s s' : RealtimeTenVad) (calls : list callback) :
  flush_loop s = Some (s', calls) ->
  _frameIndex s' = _frameIndex s
  /\ _voiceRun s' = _voiceRun s /\ _silenceRun s' = _silenceRun s
  /\ _ring s' = _ring s.
Proof.
  intros H.
  apply (flush_loop_invariant
           (fun _ s1 =>
              _frameIndex s1 = _frameIndex s
              /\ _voiceRun s1 = _voiceRun s /\ _silenceRun s1 = _silenceRun s
              /\ _ring s1 = _ring s)) with (s := s) (c := []) (c' := calls);
    [|repeat split|exact H].
  intros c s1 s2 c' (E1 & E2 & E3 & E4) _ Hfin.
  apply finalizeWithFrame_counters in Hfin.
  destruct Hfin as (F1 & F2 & F3 & F4). repeat split; congruence.
Qed.

(** X16. After any stream of calls [_frameIndex] is the number of
    frames handed to [_processFrame]: every frame advances it by one,
    classifier errors included, and the frames of zeros that [flush]
    appends do not. *)
Theorem frame_index_counts_frames (o : opts.t) (h : vad)
    (calls : list api_call) :
  exists s cbs,
    run calls (construct o h) = Some (s, cbs)
    /\ _frameIndex s = Z.of_nat (length (raw_frames [] calls)).
Proof.
  apply (reachable_invariant
           (fun h _ s => _frameIndex s = Z.of_nat (length h))).
  - intros ? ? ? ? E. exact E.
  - intros h0 c f s s' c' _ E H.
    apply processFrame_advance in H.
    destruct H as (v & p & s1 & Hm & H).
    apply advanceState_frameIndex in H. destruct H as [H _].
    destruct Hm as (_ & Ei & _).
    rewrite H, Ei, E, length_app. cbn [length]. lia.
  - intros h0 c s s' c' E _ H.
    apply flush_loop_counters in H. destruct H as (H & _).
    rewrite H. exact E.
  - unfold construct. destruct (JS.gt _ _); reflexivity.
Qed.

Lemma advanceState_brackets isVoice prob frameRaw s s' calls :
  advanceState isVoice prob frameRaw s = Some (s', calls) ->
  brackets (_inSpeech s) calls = Some (_inSpeech s').
Proof.
  intros H. apply advanceState_effect in H. cbv zeta in H.
  destruct H as (_ & _ & [(-> & -> & _ & ->)|[(-> & -> & _ & ->)
                |[(-> & -> & _ & ->)|(-> & -> & _ & seg & _ & [->| ->])]]]);
    reflexivity.
Qed.

(** From any instance, the callbacks of a stream of calls open and
    close segments in turn. *)
Lemma run_brackets (calls : list api_call) (s s' : RealtimeTenVad)
    (cbs : list callback) :
  run calls s = Some (s', cbs) ->
  brackets (_inSpeech s) cbs = Some (_inSpeech s').
Proof.
  intros H.
  refine (run_invariant
            (fun _ c s1 => brackets (_inSpeech s) c = Some (_inSpeech s1))
            _ _ _ calls [] [] s s' cbs eq_refl H).
  - intros ? ? ? ? E. exact E.
  - intros h0 c f s0 s1 c' _ E H1.
    apply processFrame_advance in H1.
    destruct H1 as (v & p & s2 & Hm & H1).
    apply advanceState_brackets in H1.
    destruct Hm as (_ & _ & Ei & _). rewrite Ei in H1.
    rewrite (brackets_app _ _ _ _ E). exact H1.
  - intros h0 c s0 s1 c' E Hin H1.
    rewrite (brackets_app _ _ _ _ E), Hin.
    apply flush_loop_exit in H1.
    destruct H1 as [(_ & -> & ->)|(_ & -> & x & -> & Hx)].
    + cbn. f_equal. symmetry. exact Hin.
    + destruct x; [destruct Hx|reflexivity|reflexivity].
Qed.

(** X13. In any stream of calls the callbacks open and close segments
    in turn: the first is [onSpeechStart], every [onSpeechStart] but
    possibly the last is followed by exactly one [onSpeechEnd] or
    [onVADMisfire] before the next [onSpeechStart], and the instance is
    in speech at the end exactly when the last [onSpeechStart] is still
    unanswered. *)
Theorem callbacks_alternate (o : opts.t) (h : vad)
    (calls : list api_call) :
  exists s cbs,
    run calls (construct o h) = Some (s, cbs)
    /\ brackets false cbs = Some (_inSpeech s).
Proof.
  destruct (run_ready calls (construct o h) (construct_ready o h))
    as (s & cbs & E & _).
  exists s, cbs. split; [exact E|].
  pose proof (run_brackets calls _ _ _ E) as Hb.
  destruct (construct_initial o h) as (Hin & _).
  rewrite Hin in Hb. exact Hb.
Qed.

Lemma advanceState_segment_state isVoice prob frameRaw s s' calls :
  advanceState isVoice prob frameRaw s = Some (s', calls) ->
  segment_state s -> segment_state s'.
Proof.
  intros H Hs. pose proof (advanceState_countdown _ _ _ _ _ _ H) as Hcd.
  apply advanceState_effect in H. cbv zeta in H. unfold segment_state in *.
  destruct H as (_ & _ & [(Hin & Hin' & Es & _)|[(Hin & Hin' & Es & _)
                |[(Hin & Hin' & Es & _)|(Hin & Hin' & Es & _)]]]);
    rewrite Hin in *; rewrite Hin' in *.
  - rewrite Es. intros E. apply app_eq_nil in E. destruct E as [_ E].
    apply app_eq_nil in E. destruct E as [_ E]. discriminate E.
  - destruct Hs as [Hs1 Hs2]. split; [congruence|].
    rewrite Hcd by reflexivity. exact Hs2.
  - rewrite Es. intros E. apply app_eq_nil in E. destruct E as [_ E].
    discriminate E.
  - split; [exact Es|]. apply Hcd. reflexivity.
Qed.

Lemma finalizeWithFrame_segment_state frame s s' calls :
  JS.gt (_postPadCountdown s) (Num 0) = true ->
  finalizeWithFrame frame true s = Some (s', calls) ->
  segment_state s -> segment_state s'.
Proof.
  intros Hgt H Hs. unfold segment_state in *.
  destruct (finalizeWithFrame_turn _ _ _ _ Hgt H)
    as [(c & Hc & _ & Hin' & Hcd)|(Hc & _ & Hin')];
    apply finalizeWithFrame_effect in H;
    destruct H as (_ & _ & [(Hi & Es & Hc')|(Hi & Es & _)]).
  - congruence.
  - rewrite Hin'. split; [exact Es|exact Hcd].
  - rewrite Hin'. destruct (_inSpeech s).
    + rewrite Es. intros E. apply app_eq_nil in E. destruct E as [_ E].
      discriminate E.
    + destruct Hs as [_ Hs]. rewrite Hs in Hgt. discriminate Hgt.
  - rewrite Hi in Hin'. rewrite <- Hin' in Hs. destruct Hs as [_ Hs].
    rewrite Hs in Hgt. discriminate Hgt.
Qed.

(** A stream of calls keeps the open segment and the countdown in
    step with [_inSpeech]. *)
Lemma run_segment_state (calls : list api_call) (s s' : RealtimeTenVad)
    (cbs : list callback) :
  segment_state s -> run calls s = Some (s', cbs) -> segment_state s'.
Proof.
  intros Hs H.
  refine (run_invariant (fun _ _ s1 => segment_state s1)
            _ _ _ calls [] [] s s' cbs Hs H).
  - intros ? ? ? ? E. exact E.
  - intros h0 c f s0 s1 c' _ E H1.
    apply processFrame_advance in H1.
    destruct H1 as (v & p & s2 & Hm & H1).
    eapply advanceState_segment_state; [exact H1|].
    destruct Hm as (_ & _ & Ei & _ & _ & _ & _ & _ & _ & Es & Ec).
    unfold segment_state in *. rewrite Ei, Es, Ec. exact E.
  - intros h0 c s0 s1 c' E Hin H1.
    apply (flush_loop_invariant (fun _ s2 => segment_state s2))
      with (s := set_postPadCountdown (_postPadFrames s0) s0)
           (c := []) (c' := c'); [| |exact H1].
    + intros c0 s2 s3 c2 Hs2 Hgt Hfin.
      eapply finalizeWithFrame_segment_state; eauto.
    + unfold segment_state in *. cbn. rewrite Hin in *. exact E.
Qed.

Lemma construct_segment_state (o : opts.t) (h : vad) :
  segment_state (construct o h).
Proof.
  unfold segment_state, construct.
  destruct (JS.gt _ _); cbn; split; reflexivity.
Qed.

(** X14. After any stream of calls: in speech the open segment is not
    empty; in silence no frame is held in [_currentSegment] and the
    post-pad countdown is 0. *)
Theorem segment_held_only_in_speech (o : opts.t) (h : vad)
    (calls : list api_call) :
  exists s cbs,
    run calls (construct o h) = Some (s, cbs)
    /\ if _inSpeech s then _currentSegment s <> []
       else _currentSegment s = [] /\ _postPadCountdown s = Num 0.
Proof.
  destruct (run_ready calls (construct o h) (construct_ready o h))
    as (s & cbs & E & _).
  exists s, cbs. split; [exact E|].
  exact (run_segment_state calls _ _ _ (construct_segment_state o h) E).
Qed.

(** X15. After any stream of calls [_voiceRun] and [_silenceRun] are
    not negative and one of them is 0. *)
Theorem run_counters_exclusive (o : opts.t) (h : vad)
    (calls : list api_call) :
  exists s cbs,
    run calls (construct o h) = Some (s, cbs)
    /\ (0 <= _voiceRun s)%Z /\ (0 <= _silenceRun s)%Z
    /\ (_voiceRun s = 0%Z \/ _silenceRun s = 0%Z).
Proof.
  apply (reachable_invariant
           (fun _ _ s =>
              (0 <= _voiceRun s)%Z /\ (0 <= _silenceRun s)%Z
              /\ (_voiceRun s = 0%Z \/ _silenceRun s = 0%Z))).
  - intros ? ? ? ? E. exact E.
  - intros h0 c f s s' c' _ (Hv & Hs & _) H.
    apply processFrame_advance in H.
    destruct H as (v & p & s1 & Hm & H).
    destruct Hm as (_ & _ & _ & Ev & Es & _).
    apply advanceState_runs in H. destruct H as [Ev' Es'].
    rewrite Ev', Es', Ev, Es. destruct v; (split; [lia|]); split; auto; lia.
  - intros h0 c s s' c' E _ H.
    apply flush_loop_counters in H. destruct H as (_ & Ev & Es & _).
    cbn in Ev, Es. rewrite Ev, Es. exact E.
  - unfold construct. destruct (JS.gt _ _); cbn; repeat split; auto; lia.
Qed.

End Reachable.

Section Ring.
Context {V : TenVad} {M : MathLib}.

Lemma gt_zero_of_Z (z : Z) : JS.gt (JS.of_Z z) (Num 0) = (0 <? z)%Z.
Proof.
  unfold JS.gt, JS.lt, JS.of_Z.
  destruct (Z.ltb_spec 0 z) as [Hz|Hz].
  - apply Qltb_lt. change 0%Q with (inject_Z 0). rewrite <- Zlt_Qlt. exact Hz.
  - destruct (JS.Qltb 0 (inject_Z z)) eqn:E; [|reflexivity].
    apply Qltb_lt in E. change 0%Q with (inject_Z 0) in E.
    rewrite <- Zlt_Qlt in E. lia.
Qed.

Lemma ge_of_Z (v z : Z) : JS.ge (JS.of_Z v) (JS.of_Z z) = (z <=? v)%Z.
Proof.
  unfold JS.ge, JS.le, JS.of_Z.
  destruct (Z.leb_spec z v) as [Hz|Hz].
  - apply Qle_bool_iff. rewrite <- Zle_Qle. exact Hz.
  - destruct (Qle_bool _ _) eqn:E; [|reflexivity].
    apply Qle_bool_iff in E. rewrite <- Zle_Qle in E. lia.
Qed.

Lemma ring_capacity_of_Z (z : Z) : ring_capacity (JS.of_Z z) = Z.to_nat z.
Proof. unfold JS.of_Z. cbn [ring_capacity]. rewrite Qfloor_Z. reflexivity. Qed.

Lemma construct_ringMax (o : opts.t) (h : vad) :
  whole_capacity (_ringMax (construct o h)).
Proof.
  unfold construct. destruct (JS.gt _ _); cbn [_ringMax];
    (destruct (JS.Math_round _) as [|q] eqn:E; [left; reflexivity|]);
    unfold JS.Math_round in E;
    (destruct (JS.div _ _) as [|x]; [discriminate E|]);
    inv E; right; cbn [JS.Math_max];
    (destruct (Qle_bool 0 _) eqn:Hle;
     [apply Qle_bool_iff in Hle; change 0%Q with (inject_Z 0) in Hle;
      rewrite <- Zle_Qle in Hle; eexists; split; [exact Hle|reflexivity]
     |exists 0%Z; split; [lia|reflexivity]]).
Qed.

Lemma ring_step (history ring : list Float32Array) (frameRaw : Float32Array)
    (m : number) :
  whole_capacity m ->
  ring = skipn (length history - ring_capacity m) history ->
  (if JS.gt m (Num 0)
   then (if JS.ge (JS.of_nat (length ring)) m then tl ring else ring)
        ++ [frameRaw]
   else ring)
  = skipn (length (history ++ [frameRaw]) - ring_capacity m)
      (history ++ [frameRaw]).
Proof.
  intros [->|(z & Hz & ->)] Hring.
  - cbn [ring_capacity] in *. rewrite Nat.sub_0_r in *.
    rewrite skipn_all in *. subst ring. reflexivity.
  - rewrite ring_capacity_of_Z in *. rewrite gt_zero_of_Z.
    unfold JS.of_nat. rewrite ge_of_Z.
    assert (Hlen : length ring
                   = Nat.min (length history) (Z.to_nat z)).
    { subst ring. rewrite length_skipn. lia. }
    rewrite length_app. cbn [length].
    destruct (Z.ltb_spec 0 z) as [Hpos|Hpos].
    + destruct (Z.leb_spec z (Z.of_nat (length ring))) as [Hfull|Hroom].
      * assert (Hle : (Z.to_nat z <= length history)%nat) by lia.
        rewrite skipn_app.
        replace (length history + 1 - Z.to_nat z - length history)%nat
          with 0%nat by lia.
        cbn [skipn]. f_equal. subst ring.
        replace (length history + 1 - Z.to_nat z)%nat
          with (S (length history - Z.to_nat z)) by lia.
        generalize (length history - Z.to_nat z)%nat. clear.
        induction history as [|x l IH]; intros [|n]; cbn; auto.
      * assert (Hlt : (length history < Z.to_nat z)%nat) by lia.
        subst ring.
        replace (length history - Z.to_nat z)%nat with 0%nat by lia.
        replace (length history + 1 - Z.to_nat z)%nat with 0%nat by lia.
        reflexivity.
    + assert (z = 0%Z) by lia. subst z. cbn [Z.to_nat] in *.
      rewrite Nat.sub_0_r in *. rewrite skipn_all in Hring. subst ring.
      symmetry. apply skipn_all2. rewrite length_app. cbn. lia.
Qed.

(** X17. After any stream of calls the ring holds exactly the newest
    frames of the stream, as many as its capacity [_ringMax] allows (all
    of them while fewer were processed, none when [_ringMax] is 0 or
    [NaN]), oldest first; it never grows beyond [_ringMax]. *)
Theorem ring_holds_newest_frames (o : opts.t) (h : vad)
    (calls : list api_call) :
  exists s cbs,
    run calls (construct o h) = Some (s, cbs)
    /\ _ring s
       = skipn (length (raw_frames [] calls) - ring_capacity (_ringMax s))
           (raw_frames [] calls)
    /\ (length (_ring s) <= ring_capacity (_ringMax s))%nat.
Proof.
  destruct (reachable_invariant
           (fun h0 _ s =>
              _ringMax s = _ringMax (construct o h)
              /\ _ring s
                 = skipn (length h0 - ring_capacity (_ringMax s)) h0)
           ) with (o := o) (h0 := h) (calls := calls)
    as (s & cbs & E & Em & Er).
  - intros ? ? ? ? E. exact E.
  - intros h0 c f s s' c' _ [Em Er] H.
    apply processFrame_advance in H.
    destruct H as (v & p & s1 & Hm & H).
    apply advanceState_effect in H. cbv zeta in H.
    destruct H as (Er' & Em' & _).
    destruct Hm as (_ & _ & _ & _ & _ & _ & _ & Er1 & Em1 & _).
    rewrite Er1, Em1 in *. split; [congruence|].
    rewrite Er', Em'. apply ring_step; [|exact Er].
    rewrite Em. apply construct_ringMax.
  - intros h0 c s s' c' [Em Er] _ H.
    pose proof (flush_loop_counters _ _ _ H) as (_ & _ & _ & Er').
    apply flush_loop_setup in H. destruct H as [(_ & _ & _ & Em') _].
    cbn in Er', Em'. rewrite Er', Em'. split; [exact Em|exact Er].
  - split; [reflexivity|].
    unfold construct. destruct (JS.gt _ _); reflexivity.
  - exists s, cbs. split; [exact E|]. split; [exact Er|].
    rewrite Er, length_skipn. lia.
Qed.

End Ring.

Section PostPad.
Context {V : TenVad} {M : MathLib}.

Lemma advanceState_counted_down isVoice prob frameRaw s s' calls :
  advanceState isVoice prob frameRaw s = Some (s', calls) ->
  knobs s' = knobs s /\ _postPadFrames s' = _postPadFrames s
  /\ (_inSpeech s = false -> _inSpeech s' = true ->
      _postPadCountdown s' = Num 0)
  /\ (_inSpeech s = true -> _inSpeech s' = true ->
      _postPadCountdown s'
      = if isVoice then _postPadCountdown s else counted_down s)
  /\ (_inSpeech s = true -> _inSpeech s' = false ->
      JS.le (counted_down s) (Num 0) = true).
Proof.
  intros H. unfold advanceState, andThen, after, ret in H.
  unfold counted_down.
  split_result H; cbn; (split; [reflexivity|]); (split; [reflexivity|]);
    repeat match goal with
      | E : negb _ && _ = true |- _ =>
          apply andb_prop in E; destruct E as [E _];
          apply negb_true_iff in E
      | E : _ && _ = true |- _ =>
          apply andb_prop in E; destruct E as [_ E]
      end;
    repeat split; intros; try congruence;
    repeat match goal with
      | E : JS.strict_eq _ _ = _ |- _ => rewrite E
      end; try reflexivity; try assumption; try congruence.
Qed.

Lemma finalizeWithFrame_counted_down frame s s' calls :
  finalizeWithFrame frame true s = Some (s', calls) ->
  knobs s' = knobs s /\ _postPadFrames s' = _postPadFrames s
  /\ ((_inSpeech s' = _inSpeech s
       /\ _postPadCountdown s' = counted_down s /\ calls = [])
      \/ (_inSpeech s' = false
          /\ JS.le (counted_down s) (Num 0) = true)).
Proof.
  intros H. unfold finalizeWithFrame in H. unfold counted_down.
  split_result H; cbn; (split; [reflexivity|]); (split; [reflexivity|]);
    repeat match goal with
      | E : JS.strict_eq _ _ = _ |- _ => rewrite E
      end;
    first [ left; repeat split; reflexivity
          | right; split; (reflexivity || assumption) ].
Qed.

Lemma advanceState_closing isVoice prob frameRaw s s' calls :
  advanceState isVoice prob frameRaw s = Some (s', calls) ->
  _inSpeech s = true -> _inSpeech s' = false ->
  exists seg,
    concatFrames (_currentSegment s ++ [frameRaw]) = Some seg
    /\ calls = [if JS.lt (duration_ms seg) (minSpeechMs (knobs s))
                then onVADMisfire else onSpeechEnd seg].
Proof.
  intros H. unfold advanceState, andThen, after, ret in H.
  split_result H; cbn; intros Hin Hin'; try congruence;
    eexists; (split; [reflexivity|]);
    repeat match goal with
      | E : JS.lt _ _ = _ |- _ => rewrite E
      end; reflexivity.
Qed.

Lemma finalizeWithFrame_closing frame s s' calls :
  finalizeWithFrame frame true s = Some (s', calls) ->
  _inSpeech s = true -> _inSpeech s' = false ->
  exists seg,
    concatFrames (_currentSegment s ++ [frame]) = Some seg
    /\ calls = [if JS.lt (duration_ms seg) (minSpeechMs (knobs s))
                then onVADMisfire else onSpeechEnd seg].
Proof.
  intros H. unfold finalizeWithFrame in H.
  split_result H; cbn; intros Hin Hin'; try congruence;
    eexists; (split; [reflexivity|]);
    repeat match goal with
      | E : JS.lt _ _ = _ |- _ => rewrite E
      end; reflexivity.
Qed.

Lemma Qfloor_half (k : Z) : Qfloor (inject_Z k + (1 # 2)) = k.
Proof.
  pose proof (Qfloor_le (inject_Z k + (1 # 2))) as Hlo.
  pose proof (Qlt_floor (inject_Z k + (1 # 2))) as Hhi.
  set (y := Qfloor (inject_Z k + (1 # 2))) in *.
  assert (H1 : (y <= k)%Z).
  { apply Z.lt_succ_r. rewrite Zlt_Qlt. unfold Z.succ.
    rewrite inject_Z_plus. change (inject_Z 1) with 1%Q. lra. }
  assert (H2 : (k < y + 1)%Z).
  { rewrite Zlt_Qlt. lra. }
  lia.
Qed.

(** A segment of [n] frames lasts [16 * n] ms. *)
Lemma duration_of_frames (seg : Float32Array) (n : nat) :
  length seg = (n * HOP_SIZE)%nat ->
  duration_ms seg = JS.of_Z (16 * Z.of_nat n).
Proof.
  intros Hlen. unfold duration_ms. rewrite Hlen, HOP_SIZE_256.
  unfold JS.of_nat, JS.of_Z, JS.div, JS.mul, JS.Math_round, SAMPLE_RATE.
  change (Qeq_bool (inject_Z 16000) 0) with false. cbv iota.
  unfold JS.of_Z. f_equal. f_equal.
  rewrite <- (Qfloor_half (16 * Z.of_nat n)).
  apply Qfloor_comp.
  rewrite Nat2Z.inj_mul, !inject_Z_mult.
  change (inject_Z (Z.of_nat 256)) with (256 # 1)%Q.
  change (inject_Z 16000) with (16000 # 1)%Q.
  change (inject_Z 16) with (16 # 1)%Q.
  field.
Qed.

Lemma lt_of_Z_mono (a b : Z) (m : number) :
  (b <= a)%Z -> JS.lt (JS.of_Z a) m = true -> JS.lt (JS.of_Z b) m = true.
Proof.
  intros Hle. unfold JS.lt, JS.of_Z. destruct m as [|q]; [discriminate|].
  rewrite !Qltb_lt. intros H. rewrite Zle_Qle in Hle. lra.
Qed.

Lemma silent_push (P : Z) (s : RealtimeTenVad) :
  (1 <= P)%Z -> padded P s -> _inSpeech s = true ->
  exists q' c',
    counted_down s = Num q' /\ (q' == inject_Z c')%Q
    /\ (0 <= c' <= P)%Z
    /\ (c' = 0%Z
        \/ (P + 1 - c' <= Z.of_nat (length (_currentSegment s)) + 1)%Z)
    /\ (JS.le (counted_down s) (Num 0) = true ->
        (P + 1 <= Z.of_nat (length (_currentSegment s)) + 1)%Z).
Proof.
  intros HP [Ef Hs] Hin.
  destruct (Hs Hin) as (q & c & Ec & Eq & Hc & Hlen & Hfar).
  unfold counted_down. rewrite Ec, Ef. unfold JS.strict_eq.
  destruct (Qeq_bool q 0) eqn:Hz.
  - apply Qeq_bool_iff in Hz.
    assert (c = 0%Z).
    { apply inject_Z_injective. rewrite <- Eq. exact Hz. }
    subst c. unfold JS.of_Z, JS.sub.
    exists (inject_Z P - 1)%Q, (P - 1)%Z.
    split; [reflexivity|]. split.
    { unfold Zminus. rewrite inject_Z_plus.
      change (inject_Z (- (1))) with (- (1))%Q. lra. }
    split; [lia|]. split; [lia|].
    unfold JS.le. intros Hle. apply Qle_bool_iff in Hle.
    assert (P <= 1)%Z.
    { rewrite Zle_Qle. change (inject_Z 1) with 1%Q. lra. }
    lia.
  - assert (Hc0 : c <> 0%Z).
    { intros ->. apply Qeq_bool_neq in Hz. apply Hz. exact Eq. }
    unfold JS.sub. exists (q - 1)%Q, (c - 1)%Z.
    split; [reflexivity|]. split.
    { unfold Zminus. rewrite inject_Z_plus.
      change (inject_Z (- (1))) with (- (1))%Q. lra. }
    split; [lia|]. split; [lia|].
    unfold JS.le. intros Hle. apply Qle_bool_iff in Hle.
    assert (c <= 1)%Z.
    { rewrite Zle_Qle. change (inject_Z 1) with 1%Q. lra. }
    lia.
Qed.

Lemma closing_spans (P : Z) (m : number) (frames : list Float32Array)
    (seg : Float32Array) :
  (1 <= P)%Z ->
  (P + 1 <= Z.of_nat (length frames))%Z ->
  concatFrames frames = Some seg ->
  Forall (spans P m)
    [if JS.lt (duration_ms seg) m then onVADMisfire else onSpeechEnd seg].
Proof.
  intros HP Hlen Hcat. apply concatFrames_length in Hcat.
  constructor; [|constructor].
  destruct (JS.lt _ _) eqn:Hlt; cbn [spans].
  - rewrite (duration_of_frames _ _ Hcat) in Hlt.
    eapply lt_of_Z_mono; [|exact Hlt]. lia.
  - rewrite Hcat. apply Nat.mul_le_mono_r. lia.
Qed.

Lemma advanceState_padded P isVoice prob frameRaw s s' calls :
  (1 <= P)%Z -> padded P s ->
  advanceState isVoice prob frameRaw s = Some (s', calls) ->
  padded P s' /\ Forall (spans P (minSpeechMs (knobs s))) calls.
Proof.
  intros HP Hpad H.
  pose proof (advanceState_counted_down _ _ _ _ _ _ H)
    as (_ & Ef & Hstart & Hstay & Hclose).
  pose proof (advanceState_closing _ _ _ _ _ _ H) as Hcl.
  pose proof (advanceState_effect _ _ _ _ _ _ H) as He. cbv zeta in He.
  destruct He as (_ & _ & [(Hin & Hin' & Es & ->)|[(Hin & Hin' & Es & ->)
                 |[(Hin & Hin' & Es & ->)|(Hin & Hin' & Es & _)]]]).
  - split; [|repeat constructor].
    split; [rewrite Ef; apply Hpad|]. intros _.
    exists 0%Q, 0%Z. split; [auto|]. split; [reflexivity|].
    split; [lia|]. split; [|left; reflexivity].
    rewrite Es, !length_app. cbn [length]. lia.
  - split; [|constructor].
    split; [rewrite Ef; apply Hpad|]. congruence.
  - split; [|constructor].
    split; [rewrite Ef; apply Hpad|]. intros _.
    rewrite (Hstay Hin Hin'), Es, length_app. cbn [length].
    destruct isVoice.
    + destruct Hpad as [_ Hs].
      destruct (Hs Hin) as (q & c & Ec & Eq & Hc & Hlen & Hfar).
      exists q, c. repeat split; try assumption; lia.
    + destruct (silent_push P s HP Hpad Hin)
        as (q' & c' & Ec & Eq & Hc & Hfar & _).
      destruct Hpad as [_ Hs].
      destruct (Hs Hin) as (_ & _ & _ & _ & _ & Hlen & _).
      exists q', c'. repeat split; try assumption; lia.
  - split; [split; [rewrite Ef; apply Hpad|congruence]|].
    destruct (Hcl Hin Hin') as (seg & Ecat & ->).
    destruct (silent_push P s HP Hpad Hin)
      as (_ & _ & _ & _ & _ & _ & Hend).
    eapply closing_spans; [exact HP| |exact Ecat].
    rewrite length_app. cbn [length].
    specialize (Hend (Hclose Hin Hin')). lia.
Qed.

Lemma finalizeWithFrame_padded P frame s s' calls :
  (1 <= P)%Z -> padded P s -> _inSpeech s = true ->
  finalizeWithFrame frame true s = Some (s', calls) ->
  padded P s' /\ Forall (spans P (minSpeechMs (knobs s))) calls.
Proof.
  intros HP Hpad Hin H.
  pose proof (finalizeWithFrame_counted_down _ _ _ _ H)
    as (_ & Ef & Hcd).
  pose proof (finalizeWithFrame_closing _ _ _ _ H Hin) as Hcl.
  pose proof (finalizeWithFrame_effect _ _ _ _ H) as He.
  destruct He as (_ & _ & [(Hin' & Es & ->)|(Hin' & Es & _)]).
  - split; [|constructor].
    split; [rewrite Ef; apply Hpad|]. intros _.
    destruct Hcd as [(_ & Ec' & _)|(Hout & _)]; [|congruence].
    rewrite Ec', Es, length_app. cbn [length].
    destruct (silent_push P s HP Hpad Hin)
      as (q' & c' & Ec & Eq & Hc & Hfar & _).
    destruct Hpad as [_ Hs].
    destruct (Hs Hin) as (_ & _ & _ & _ & _ & Hlen & _).
    exists q', c'. repeat split; try assumption; lia.
  - split; [split; [rewrite Ef; apply Hpad|congruence]|].
    destruct (Hcl Hin') as (seg & Ecat & ->).
    destruct (silent_push P s HP Hpad Hin)
      as (_ & _ & _ & _ & _ & _ & Hend).
    eapply closing_spans; [exact HP| |exact Ecat].
    rewrite length_app. cbn [length].
    destruct Hcd as [(Hsame & _ & Hno)|(_ & Hle)]; [discriminate Hno|].
    specialize (Hend Hle). lia.
Qed.

End PostPad.

Section Pads.
Context {V : TenVad} {M : MathLib}.

Lemma pad_frames_round (ms : Q) :
  JS.Math_round
    (JS.div (JS.mul (JS.div (Num ms) (Num 1000)) (JS.of_Z SAMPLE_RATE))
       (JS.of_nat HOP_SIZE))
  = JS.of_Z (Qfloor (ms / 16 + (1 # 2))).
Proof.
  rewrite HOP_SIZE_256.
  unfold JS.div, JS.mul, JS.of_nat, JS.of_Z, JS.Math_round, SAMPLE_RATE.
  change (Qeq_bool 1000 0) with false. cbv iota.
  change (Qeq_bool (inject_Z (Z.of_nat 256)) 0) with false. cbv iota.
  unfold JS.of_Z. f_equal. f_equal. apply Qfloor_comp.
  change (inject_Z 16000) with (16000 # 1)%Q.
  change (inject_Z (Z.of_nat 256)) with (256 # 1)%Q.
  field.
Qed.

Lemma whole_pad_frames (k : Z) :
  JS.Math_round
    (JS.div (JS.mul (JS.div (JS.of_Z (16 * k)) (Num 1000))
               (JS.of_Z SAMPLE_RATE))
       (JS.of_nat HOP_SIZE))
  = JS.of_Z k.
Proof.
  unfold JS.of_Z at 1. rewrite pad_frames_round. f_equal.
  rewrite <- (Qfloor_half k) at 2. apply Qfloor_comp.
  rewrite inject_Z_mult. change (inject_Z 16) with (16 # 1)%Q. field.
Qed.

(** X10. A pad that is a whole number of frames, [16 * k] ms with [k]
    between 0 and 1000000, is stored as [k] frames, for the pre-pad and
    for the post-pad, and the ring then holds up to [k] frames.  (On
    such pads the rounding of doubles in
    [Math.round((ms / 1000) * 16000 / 256)] does not show: the quotient
    is within 10^-9 of [k].  It does on others: 8008 ms gives
    500.49999999999994 in the source, rounded to 500, where the exact
    quotient 500.5 rounds to 501.) *)
Theorem pads_of_whole_frames (o : opts.t) (h : vad) (pre post : Z) :
  preSpeechPadMs (knobs (construct o h)) = JS.of_Z (16 * pre) ->
  postSpeechPadMs (knobs (construct o h)) = JS.of_Z (16 * post) ->
  (0 <= pre <= 1000000)%Z -> (0 <= post <= 1000000)%Z ->
  _prePadFrames (construct o h) = JS.of_Z pre
  /\ _postPadFrames (construct o h) = JS.of_Z post
  /\ _ringMax (construct o h) = JS.of_Z pre
  /\ ring_capacity (_ringMax (construct o h)) = Z.to_nat pre.
Proof.
  unfold construct.
  destruct (JS.gt _ _);
    cbn [_prePadFrames _postPadFrames _ringMax knobs preSpeechPadMs
         postSpeechPadMs];
    intros -> -> Hpre Hpost; rewrite !whole_pad_frames;
    (assert (Hmax : JS.Math_max (Num 0) (JS.of_Z pre) = JS.of_Z pre)
       by (unfold JS.of_Z; cbn [JS.Math_max];
           destruct (Qle_bool 0 (inject_Z pre)) eqn:Hle; [reflexivity|];
           destruct Hpre as [H0 _]; rewrite Zle_Qle in H0;
           apply Qle_bool_iff in H0; change (inject_Z 0) with 0%Q in H0;
           congruence));
    rewrite Hmax;
    (split; [reflexivity|]); (split; [reflexivity|]);
    (split; [reflexivity|apply ring_capacity_of_Z]).
Qed.

End Pads.

Section PostPadRun.
Context {V : TenVad} {M : MathLib}.

Lemma run_spans (o : opts.t) (h : vad) (calls : list api_call) (P : Z) :
  _postPadFrames (construct o h) = JS.of_Z P -> (1 <= P)%Z ->
  exists s cbs,
    run calls (construct o h) = Some (s, cbs)
    /\ Forall (spans P (minSpeechMs (knobs (construct o h)))) cbs.
Proof.
  intros EP HP.
  destruct (reachable_invariant
           (fun _ c s =>
              knobs s = knobs (construct o h)
              /\ padded P s
              /\ (_inSpeech s = false -> _postPadCountdown s = Num 0)
              /\ Forall (spans P (minSpeechMs (knobs (construct o h)))) c))
    with (o := o) (h0 := h) (calls := calls)
    as (s & cbs & E & _ & _ & _ & Hs).
  - intros ? ? ? ? E. exact E.
  - intros h0 c f s s' c' _ (Ek & Hpad & Hidle & Hc) H.
    apply processFrame_advance in H.
    destruct H as (v & p & s1 & Hm & H).
    destruct Hm as (Ek1 & _ & Ei & _ & _ & _ & Ef & _ & _ & Es & Ec).
    assert (Hpad1 : padded P s1).
    { unfold padded in *. rewrite Ef, Ei, Es, Ec. exact Hpad. }
    destruct (advanceState_padded P _ _ _ _ _ _ HP Hpad1 H) as [Hpad' Hc'].
    pose proof (advanceState_countdown _ _ _ _ _ _ H) as Hcd.
    destruct (advanceState_counted_down _ _ _ _ _ _ H) as (Ek' & _).
    split; [congruence|]. split; [exact Hpad'|]. split.
    + intros Hout. rewrite (Hcd Hout), Ei, Ec.
      destruct (_inSpeech s); [reflexivity|auto].
    + apply Forall_app. split; [exact Hc|].
      rewrite Ek1, Ek in Hc'. exact Hc'.
  - intros h0 c s s' c' (Ek & Hpad & Hidle & Hc) Hin H.
    apply (flush_loop_invariant
             (fun c1 s1 =>
                knobs s1 = knobs (construct o h)
                /\ padded P s1
                /\ (_inSpeech s1 = false -> _postPadCountdown s1 = Num 0)
                /\ Forall (spans P (minSpeechMs (knobs (construct o h)))) c1))
      with (s := set_postPadCountdown (_postPadFrames s) s)
           (c := c) (c' := c'); [| |exact H].
    + intros c1 s1 s2 c2 (Ek1 & Hpad1 & Hidle1 & Hc1) Hgt Hfin.
      assert (Hin1 : _inSpeech s1 = true).
      { destruct (_inSpeech s1); [reflexivity|].
        rewrite (Hidle1 eq_refl) in Hgt. discriminate Hgt. }
      destruct (finalizeWithFrame_padded P _ _ _ _ HP Hpad1 Hin1 Hfin)
        as [Hpad2 Hc2].
      destruct (finalizeWithFrame_counted_down _ _ _ _ Hfin) as (Ek2 & _).
      split; [congruence|]. split; [exact Hpad2|]. split.
      * intros Hout.
        destruct (finalizeWithFrame_turn _ _ _ _ Hgt Hfin)
          as [(_ & _ & _ & _ & Hcd)|(_ & _ & Hsame)];
          [exact Hcd|congruence].
      * apply Forall_app. split; [exact Hc1|].
        rewrite Ek1 in Hc2. exact Hc2.
    + split; [exact Ek|]. split; [|split; [cbn; congruence|exact Hc]].
      destruct Hpad as [Ef Hs]. split; [exact Ef|]. cbn. intros _.
      destruct (Hs Hin) as (_ & _ & _ & _ & _ & Hlen & _).
      rewrite Ef. exists (inject_Z P), P.
      split; [reflexivity|]. split; [reflexivity|].
      split; [lia|]. split; [exact Hlen|right; lia].
  - split; [reflexivity|]. split; [|split; [|constructor]].
    + split; [exact EP|]. destruct (construct_initial o h) as (E & _).
      rewrite E. discriminate.
    + intros _. unfold construct. destruct (JS.gt _ _); reflexivity.
  - exists s, cbs. split; [exact E|exact Hs].
Qed.

(** X18. When the post-pad is a whole number [P >= 1] of frames, every
    segment handed to [onSpeechEnd] holds at least [P + 1] frames: a
    segment is closed only after [P] silent (or flushed) frames were
    counted down behind at least one frame. *)
Theorem emitted_segment_spans_post_pad (o : opts.t) (h : vad)
    (calls : list api_call) (P : Z) :
  _postPadFrames (construct o h) = JS.of_Z P -> (1 <= P)%Z ->
  exists s cbs,
    run calls (construct o h) = Some (s, cbs)
    /\ forall seg, In (onSpeechEnd seg) cbs ->
         ((Z.to_nat P + 1) * 256 <= length seg)%nat.
Proof.
  intros EP HP. destruct (run_spans o h calls P EP HP) as (s & cbs & E & Hs).
  exists s, cbs. split; [exact E|]. intros seg Hin.
  rewrite Forall_forall in Hs. specialize (Hs _ Hin). cbn [spans] in Hs.
  rewrite HOP_SIZE_256 in Hs. exact Hs.
Qed.

(** X19. When the post-pad is a whole number [P >= 1] of frames and
    [minSpeechMs] does not exceed [16 * (P + 1)] ms, the duration of the
    shortest segment that can be closed, [onVADMisfire] is never called.
    With the default options (10 post-pad frames, 176 ms against 150 ms)
    a misfire is impossible. *)
Theorem misfire_needs_short_post_pad (o : opts.t) (h : vad)
    (calls : list api_call) (P : Z) :
  _postPadFrames (construct o h) = JS.of_Z P -> (1 <= P)%Z ->
  JS.lt (JS.of_Z (16 * (P + 1))) (minSpeechMs (knobs (construct o h)))
  = false ->
  exists s cbs,
    run calls (construct o h) = Some (s, cbs)
    /\ ~ In onVADMisfire cbs.
Proof.
  intros EP HP Hm. destruct (run_spans o h calls P EP HP) as (s & cbs & E & Hs).
  exists s, cbs. split; [exact E|]. intros Hin.
  rewrite Forall_forall in Hs. specialize (Hs _ Hin). cbn [spans] in Hs.
  congruence.
Qed.

End PostPadRun.

Section Misfire.
Context {V : TenVad} {M : MathLib}.

Lemma advanceState_long_enough isVoice prob frameRaw s s' calls :
  advanceState isVoice prob frameRaw s = Some (s', calls) ->
  Forall (long_enough (minSpeechMs (knobs s))) calls.
Proof.
  intros H. pose proof (advanceState_closing _ _ _ _ _ _ H) as Hcl.
  apply advanceState_effect in H. cbv zeta in H.
  destruct H as (_ & _ & [(_ & _ & _ & ->)|[(_ & _ & _ & ->)
                |[(_ & _ & _ & ->)|(Hin & Hin' & _)]]]);
    try (repeat constructor; fail).
  destruct (Hcl Hin Hin') as (seg & _ & ->).
  constructor; [|constructor].
  destruct (JS.lt _ _) eqn:E; cbn; [exact I|exact E].
Qed.

Lemma finalizeWithFrame_long_enough frame s s' calls :
  finalizeWithFrame frame true s = Some (s', calls) ->
  Forall (long_enough (minSpeechMs (knobs s))) calls.
Proof.
  intros H. unfold finalizeWithFrame in H.
  split_result H; repeat constructor; cbn; assumption.
Qed.

(** X20. No segment that lasts less than [minSpeechMs], by
    [Math.round(seg.length / 16000 * 1000)], is ever handed to
    [onSpeechEnd]. *)
Theorem emitted_segments_are_long_enough (o : opts.t) (h : vad)
    (calls : list api_call) :
  exists s cbs,
    run calls (construct o h) = Some (s, cbs)
    /\ forall seg, In (onSpeechEnd seg) cbs ->
         JS.lt (duration_ms seg) (minSpeechMs (knobs (construct o h)))
         = false.
Proof.
  destruct (reachable_invariant
              (fun _ c s =>
                 knobs s = knobs (construct o h)
                 /\ Forall (long_enough (minSpeechMs (knobs (construct o h))))
                      c))
    with (o := o) (h0 := h) (calls := calls) as (s & cbs & E & _ & Hs).
  - intros ? ? ? ? E. exact E.
  - intros h0 c f s s' c' _ (Ek & Hc) H.
    apply processFrame_advance in H.
    destruct H as (v & p & s1 & Hm & H). destruct Hm as (Ek1 & _).
    destruct (advanceState_work_fields _ _ _ _ _ _ H) as (Ek' & _).
    apply advanceState_long_enough in H.
    split; [congruence|]. apply Forall_app. split; [exact Hc|].
    rewrite Ek1, Ek in H. exact H.
  - intros h0 c s s' c' (Ek & Hc) _ H.
    apply (flush_loop_invariant
             (fun c1 s1 =>
                knobs s1 = knobs (construct o h)
                /\ Forall
                     (long_enough (minSpeechMs (knobs (construct o h)))) c1))
      with (s := set_postPadCountdown (_postPadFrames s) s)
           (c := c) (c' := c'); [|split; [exact Ek|exact Hc]|exact H].
    intros c1 s1 s2 c2 (Ek1 & Hc1) _ Hfin.
    destruct (finalizeWithFrame_work_fields _ _ _ _ _ Hfin) as (Ek2 & _).
    apply finalizeWithFrame_long_enough in Hfin.
    split; [congruence|]. apply Forall_app. split; [exact Hc1|].
    rewrite Ek1 in Hfin. exact Hfin.
  - split; [reflexivity|constructor].
  - exists s, cbs. split; [exact E|]. intros seg Hin.
    rewrite Forall_forall in Hs. exact (Hs _ Hin).
Qed.

End Misfire.

Section FlushFrame.
Context {V : TenVad} {M : MathLib}.

Lemma skipn_zeros (k n : nat) :
  skipn k (new_Float32Array n) = new_Float32Array (n - k).
Proof.
  unfold new_Float32Array. revert k.
  induction n as [|n IH]; intros [|k]; cbn; auto.
Qed.


(** X21. With a remainder of 1 to 255 samples, [flush] processes
    exactly one more frame before it closes the open segment: the first
    256 samples of the remainder, the remainder again and zeros.  The
    remainder comes twice because [flush] hands its zero-padded copy to
    [processAudio] while [_floatBuf] still holds it. *)
Theorem flush_pads_after_repeating_remainder (s : RealtimeTenVad) :
  (0 < length (_floatBuf s) < 256)%nat ->
  flush s
  = andThen
      (processFrame
         (firstn 256
            (_floatBuf s ++ _floatBuf s
               ++ new_Float32Array (256 - length (_floatBuf s)))) s)
      (fun s1 =>
         if _inSpeech s1
         then flush_loop
                (set_postPadCountdown (_postPadFrames s1)
                   (set_floatBuf [] s1))
         else ret (set_floatBuf [] s1)).
Proof.
  rewrite <- HOP_SIZE_256. intros Hlen. unfold flush.
  destruct (Nat.ltb_spec 0 (length (_floatBuf s))) as [_|]; [|lia].
  rewrite typed_set_fits by (rewrite length_new_Float32Array; lia).
  cbn [firstn app Nat.add]. rewrite skipn_zeros.
  rewrite processAudio_feed. cbv zeta.
  set (pad := _floatBuf s ++ new_Float32Array (HOP_SIZE - length (_floatBuf s))).
  assert (Hpad : length pad = HOP_SIZE).
  { subst pad. rewrite length_app, length_new_Float32Array. lia. }
  assert (Hone : frames_of (_floatBuf s ++ pad)
                 = [firstn HOP_SIZE (_floatBuf s ++ pad)]).
  { unfold frames_of. rewrite length_app, Hpad.
    replace (length (_floatBuf s) + HOP_SIZE)%nat
      with (length (_floatBuf s) + 1 * HOP_SIZE)%nat by lia.
    rewrite Nat.div_add by lia.
    rewrite Nat.div_small by lia. cbn [Nat.add seq map Nat.mul].
    unfold subarray. rewrite Nat.sub_0_r. reflexivity. }
  rewrite Hone. cbn [feed]. rewrite andThen_ret_r.
  rewrite !andThen_assoc. apply andThen_ext. intros s1.
  rewrite !andThen_ret_l. reflexivity.
Qed.


End FlushFrame.

(** *** Teardown *)

Lemma attempt_prefix (throws : Teardown.wasm_call -> bool)
    (todo : list Teardown.wasm_call) :
  exists rest, todo = Teardown.attempt throws todo ++ rest.
Proof.
  induction todo as [|c todo [rest IH]]; [exists []; reflexivity|].
  cbn [Teardown.attempt]. destruct (throws c).
  - exists todo. reflexivity.
  - exists rest. cbn [app]. f_equal. exact IH.
Qed.

Lemma attempt_all (throws : Teardown.wasm_call -> bool)
    (todo : list Teardown.wasm_call) :
  (forall c, In c todo -> throws c = false) ->
  Teardown.attempt throws todo = todo.
Proof.
  induction todo as [|c todo IH]; intros Hno; [reflexivity|].
  cbn [Teardown.attempt]. rewrite (Hno c (or_introl eq_refl)).
  f_equal. apply IH. intros c' Hc'. apply Hno. right. exact Hc'.
Qed.

(** X23. [destroy]: whatever the calls into the module throw, it leaves
    [_module], [_handle] and [_handlePtr] null; the calls it makes are
    the beginning of the list of releases (the three buffers, the
    classifier instance, the handle pointer, in this order, null and 0
    pointers skipped), all of it when the module is loaded and nothing
    throws; and a second [destroy] makes no call and changes nothing, so
    nothing is released twice. *)
Theorem destroy_releases_once
    (throws throws' : Teardown.wasm_call -> bool)
    (r : Teardown.wasm_fields) :
  let '(r', calls) := Teardown.destroy throws r in
  Teardown._module r' = false /\ Teardown._handle r' = None
  /\ Teardown._handlePtr r' = None
  /\ (exists rest, Teardown.releases r = calls ++ rest)
  /\ (Teardown._module r = true ->
      (forall c, In c (Teardown.releases r) -> throws c = false) ->
      calls = Teardown.releases r)
  /\ Teardown.destroy throws' r' = (r', []).
Proof.
  unfold Teardown.destroy. cbv zeta.
  split; [reflexivity|]. split; [reflexivity|]. split; [reflexivity|].
  split.
  { destruct (Teardown._module r).
    - apply attempt_prefix.
    - exists (Teardown.releases r). reflexivity. }
  split; [|reflexivity].
  intros -> Hno. apply attempt_all. exact Hno.
Qed.

(** *** Witnesses *)

Lemma emitted_segment_spans_post_pad_witness :
  exists s cbs,
    run (V := scripted) (M := no_gate_math)
      [ProcessAudio (concat (tones 1 4)); Flush]
      (construct (V := scripted) opts.empty (repeat voice_result 4))
    = Some (s, cbs)
    /\ forall seg, In (onSpeechEnd seg) cbs ->
         ((Z.to_nat 10 + 1) * 256 <= length seg)%nat.
Proof.
  apply (emitted_segment_spans_post_pad (V := scripted) (M := no_gate_math)
           opts.empty (repeat voice_result 4)
           [ProcessAudio (concat (tones 1 4)); Flush] 10).
  - reflexivity.
  - lia.
Defined.

Lemma misfire_needs_short_post_pad_witness :
  exists s cbs,
    run (V := scripted) (M := no_gate_math)
      [ProcessAudio (concat (tones 1 4)); Flush]
      (construct (V := scripted) opts.empty (repeat voice_result 4))
    = Some (s, cbs)
    /\ ~ In onVADMisfire cbs.
Proof.
  apply (misfire_needs_short_post_pad (V := scripted) (M := no_gate_math)
           opts.empty (repeat voice_result 4)
           [ProcessAudio (concat (tones 1 4)); Flush] 10).
  - reflexivity.
  - lia.
  - reflexivity.
Defined.

Lemma short_input_is_buffered_witness :
  processAudio (V := scripted) (M := no_gate_math) [Num (1 # 2)]
    with_remainder
  = Some (set_floatBuf (_floatBuf with_remainder ++ [Num (1 # 2)])
            with_remainder, [])
  /\ ([Num (1 # 2)] = [] ->
      processAudio (V := scripted) (M := no_gate_math) [Num (1 # 2)]
        with_remainder
      = Some (with_remainder, [])).
Proof.
  apply (short_input_is_buffered (V := scripted) (M := no_gate_math)
           [Num (1 # 2)] with_remainder).
  vm_compute. lia.
Defined.

Lemma frames_round_trip_witness :
  frames_of (concat (tones 1 2)) = tones 1 2
  /\ remainder (concat (tones 1 2)) = [].
Proof.
  apply (frames_round_trip (tones 1 2) (concat (tones 1 2))).
  - vm_compute. repeat constructor.
  - vm_compute. reflexivity.
Defined.

Lemma to_int16_frame_filters_witness :
  to_int16_frame (Num (97 # 100)) (Num 0) (tone 50) (repeat 0%Z 256)
  = (get (tone 50) 255,
     map quantize (conditioned (Num (97 # 100)) (Num 0) (tone 50))).
Proof.
  apply (to_int16_frame_filters (Num (97 # 100)) (Num 0) (tone 50)
           (repeat 0%Z 256)).
  - vm_compute. reflexivity.
  - vm_compute. reflexivity.
Defined.

Lemma no_voice_no_callback_witness :
  exists s,
    run (V := constant silence_result) (M := no_gate_math)
      [ProcessAudio (concat (tones 1 4)); Flush]
      (construct (V := constant silence_result) opts.empty tt)
    = Some (s, [])
    /\ _inSpeech s = false.
Proof.
  apply (no_voice_no_callback (V := constant silence_result)
           (M := no_gate_math) opts.empty tt
           [ProcessAudio (concat (tones 1 4)); Flush]).
  left. intros h' frame16. reflexivity.
Defined.

Lemma short_voice_runs_are_ignored_witness :
  exists s,
    run (V := scripted) (M := no_gate_math)
      [ProcessAudio (concat (tones 1 5)); Flush]
      (construct (V := scripted) opts.empty
         [voice_result; voice_result; silence_result; voice_result;
          voice_result])
    = Some (s, [])
    /\ _inSpeech s = false.
Proof.
  apply (short_voice_runs_are_ignored (M := no_gate_math) opts.empty
           [voice_result; voice_result; silence_result; voice_result;
            voice_result]
           [ProcessAudio (concat (tones 1 5)); Flush] 3).
  - vm_compute. reflexivity.
  - vm_compute. reflexivity.
Defined.

Lemma smoothed_probability_in_unit_witness :
  exists s cbs,
    run (V := constant voice_result) (M := no_gate_math)
      [ProcessAudio (concat (tones 1 4)); Flush]
      (construct (V := constant voice_result) opts.empty tt)
    = Some (s, cbs)
    /\ in_unit (_pSmoothed s).
Proof.
  apply (smoothed_probability_in_unit (V := constant voice_result)
           (M := no_gate_math) opts.empty tt
           [ProcessAudio (concat (tones 1 4)); Flush]).
  - exact I.
  - intros h' frame16. vm_compute. split; discriminate.
Defined.

Lemma constructor_clamps_witness :
  in_unit (positiveSpeechThreshold
             (knobs (construct (V := scripted) inverted_thresholds [])))
  /\ in_unit (negativeSpeechThreshold
                (knobs (construct (V := scripted) inverted_thresholds [])))
  /\ in_unit (probSmoothing
                (knobs (construct (V := scripted) inverted_thresholds []))).
Proof.
  apply (constructor_clamps (V := scripted) inverted_thresholds []);
    exact I.
Defined.

Lemma pads_of_whole_frames_witness :
  _prePadFrames (construct (V := scripted) (with_pads 48 96) []) = JS.of_Z 3
  /\ _postPadFrames (construct (V := scripted) (with_pads 48 96) [])
     = JS.of_Z 6
  /\ _ringMax (construct (V := scripted) (with_pads 48 96) []) = JS.of_Z 3
  /\ ring_capacity
       (_ringMax (construct (V := scripted) (with_pads 48 96) []))
     = Z.to_nat 3.
Proof.
  apply (pads_of_whole_frames (V := scripted) (with_pads 48 96) [] 3 6).
  - reflexivity.
  - reflexivity.
  - lia.
  - lia.
Defined.

Lemma flush_pads_after_repeating_remainder_witness :
  flush (V := scripted) (M := no_gate_math) with_remainder
  = andThen
      (processFrame (V := scripted) (M := no_gate_math)
         (firstn 256
            (_floatBuf with_remainder ++ _floatBuf with_remainder
               ++ new_Float32Array (256 - length (_floatBuf with_remainder))))
         with_remainder)
      (fun s1 =>
         if _inSpeech s1
         then flush_loop (V := scripted)
                (set_postPadCountdown (_postPadFrames s1)
                   (set_floatBuf [] s1))
         else ret (set_floatBuf [] s1)).
Proof.
  apply (flush_pads_after_repeating_remainder (V := scripted)
           (M := no_gate_math) with_remainder).
  vm_compute. lia.
Defined.

